(** * Routing engine of the transportation system: a shallow embedding

    The three routers of the repository
    ([traffic_flow/dijkstra_time_dependent.py],
    [traffic_flow/yen_alternate_routes.py], [emergency/astar_emergency.py])
    are embedded together with the parts of networkx and heapq they call.

    - Python floats are modelled by rationals extended with the two
      infinities and NaN ([num]); rounding is not modelled.
    - A networkx [DiGraph] keeps its nodes and, per node, its successors in
      insertion order; both are association lists here, because the order
      decides ties in the searches.
    - Attribute dictionaries of edges and the dictionaries local to the
      searches ([dist], [seen], [paths], [enqueued], [explored]) are only
      read and written by key: they are [gmap]s.
    - A heap of tuples whose first components are totally ordered is used
      through [heappush]/[heappop] only, so it is modelled by the list of
      its entries and "pop the least entry".  *)

From Stdlib Require Import QArith Qminmax Lqa Lia.
From stdpp Require Import gmap strings list.

Local Open Scope string_scope.
Local Open Scope list_scope.

(** ** Numbers *)

Inductive num : Type :=
| Fin (q : Q)
| PInf
| NInf
| NaN.

Definition Qltb (x y : Q) : bool :=
  match Qcompare x y with Lt => true | _ => false end.

Definition Qeqb (x y : Q) : bool :=
  match Qcompare x y with Eq => true | _ => false end.

(** [a + b] *)
Definition nadd (a b : num) : num :=
  match a, b with
  | NaN, _ | _, NaN => NaN
  | Fin x, Fin y => Fin (x + y)
  | PInf, NInf | NInf, PInf => NaN
  | PInf, _ | _, PInf => PInf
  | NInf, _ | _, NInf => NInf
  end.

Definition inf_of_sign (positive : bool) : num :=
  if positive then PInf else NInf.

(** the infinity [positive] scaled by the finite [q] *)
Definition inf_times (positive : bool) (q : Q) : num :=
  if Qltb 0 q then inf_of_sign positive
  else if Qltb q 0 then inf_of_sign (negb positive)
  else NaN.

(** [a * b] *)
Definition nmul (a b : num) : num :=
  match a, b with
  | NaN, _ | _, NaN => NaN
  | Fin x, Fin y => Fin (x * y)
  | PInf, Fin y | Fin y, PInf => inf_times true y
  | NInf, Fin y | Fin y, NInf => inf_times false y
  | PInf, PInf | NInf, NInf => PInf
  | PInf, NInf | NInf, PInf => NInf
  end.

(** [a / b]; every division of the routers is guarded against a zero
    divisor, so the case [Fin x / Fin 0] (a ZeroDivisionError) is never
    reached. *)
Definition ndiv (a b : num) : num :=
  match a, b with
  | NaN, _ | _, NaN => NaN
  | Fin x, Fin y => Fin (x / y)
  | Fin _, (PInf | NInf) => Fin 0
  | PInf, Fin y => inf_times true y
  | NInf, Fin y => inf_times false y
  | (PInf | NInf), (PInf | NInf) => NaN
  end.

(** [a < b] *)
Definition nltb (a b : num) : bool :=
  match a, b with
  | NaN, _ | _, NaN => false
  | Fin x, Fin y => Qltb x y
  | NInf, (Fin _ | PInf) => true
  | Fin _, PInf => true
  | _, _ => false
  end.

(** [a == b] *)
Definition neqb (a b : num) : bool :=
  match a, b with
  | Fin x, Fin y => Qeqb x y
  | PInf, PInf | NInf, NInf => true
  | _, _ => false
  end.

(** [a <= b] *)
Definition nleb (a b : num) : bool := nltb a b || neqb a b.

(** [min(a, b)] of two arguments: the second one only when it is smaller *)
Definition nmin (a b : num) : num := if nltb b a then b else a.

(** Equality of the numbers denoted (rationals up to [Qeq]). *)
Definition num_eq (a b : num) : Prop :=
  match a, b with
  | Fin x, Fin y => (x == y)%Q
  | PInf, PInf | NInf, NInf | NaN, NaN => True
  | _, _ => False
  end.

(** The order of the numbers denoted; NaN is unordered. *)
Definition nle (a b : num) : Prop :=
  match a, b with
  | NaN, _ | _, NaN => False
  | Fin x, Fin y => (x <= y)%Q
  | NInf, _ | _, PInf => True
  | _, _ => False
  end.

Definition is_finite (a : num) : Prop :=
  match a with Fin _ => True | _ => False end.

(** A cost of the data model: a rational [>= 0] or [+inf]. *)
Definition nonneg (a : num) : Prop :=
  match a with
  | Fin q => (0 <= q)%Q
  | PInf => True
  | _ => False
  end.

Definition nonnegb (a : num) : bool :=
  match a with
  | Fin q => Qle_bool 0 q
  | PInf => true
  | _ => false
  end.

(** ** The congestion model

    [edge_data] is the attribute dictionary of an edge. *)

Abbreviation edge_data := (gmap string num).

Definition traffic_col_map (time_of_day : string) : option string :=
  if decide (time_of_day = "morning_peak") then Some "morning_peak_veh_h"
  else if decide (time_of_day = "afternoon") then Some "afternoon_veh_h"
  else if decide (time_of_day = "evening_peak") then Some "evening_peak_veh_h"
  else if decide (time_of_day = "night") then Some "night_veh_h"
  else None.

(** Truth value of the optional string [time_of_day]. *)
Definition truthy (s : option string) : bool :=
  match s with
  | None => false
  | Some s => negb (String.eqb s "")
  end.

(** [capacity = data.get("base_capacity_veh_hr", 1)], then
    [if capacity == 0: capacity = 1]. *)
Definition edge_capacity (data : edge_data) : num :=
  let capacity := default (Fin 1) (data !! "base_capacity_veh_hr") in
  if neqb capacity (Fin 0) then Fin 1 else capacity.

(** Lines 145-153 of dijkstra_time_dependent.py: the capped factor. *)
Definition congestion_factor (traffic_flow : num) (data : edge_data) : num :=
  let capacity := edge_capacity data in
  let congestion_factor := nadd (Fin 1) (ndiv traffic_flow capacity) in
  nmin congestion_factor (Fin 5).

(** Lines 121-128 of astar_emergency.py. *)
Definition emergency_congestion_factor (traffic_flow : num) (data : edge_data) : num :=
  let capacity := edge_capacity data in
  let congestion_factor :=
    nadd (Fin 1) (ndiv traffic_flow (nmul capacity (Fin (3 # 2)))) in
  nmin congestion_factor (Fin 3).

(** The traffic bucket the query reads on an edge, when congestion applies:
    [time_dependent and time_of_day], a known label, the attribute present. *)
Definition traffic_bucket (time_dependent : bool) (time_of_day : option string)
    (data : edge_data) : option num :=
  if time_dependent && truthy time_of_day then
    match time_of_day ≫= traffic_col_map with
    | Some traffic_attr => data !! traffic_attr
    | None => None
    end
  else None.

(** [get_edge_weight], the closure of [dijkstra_time_dependent]. *)
Definition get_edge_weight (weight_key : string) (time_dependent : bool)
    (time_of_day : option string) (u v : string) (data : edge_data) : num :=
  let base_weight := default PInf (data !! weight_key) in
  match traffic_bucket time_dependent time_of_day data with
  | Some traffic_flow => nmul base_weight (congestion_factor traffic_flow data)
  | None => base_weight
  end.

(** [get_dynamic_edge_weight], the closure of [a_star_emergency_path]. *)
Definition get_dynamic_edge_weight (weight_key : string) (time_dependent : bool)
    (time_of_day : option string) (emergency_priority_factor : Q)
    (u v : string) (data : edge_data) : num :=
  let base_weight := default PInf (data !! weight_key) in
  let effective_weight :=
    match traffic_bucket time_dependent time_of_day data with
    | Some traffic_flow =>
        nmul base_weight (emergency_congestion_factor traffic_flow data)
    | None => base_weight
    end in
  nmul effective_weight (Fin emergency_priority_factor).

(** ** The graph

    [nx.DiGraph]: the node dictionary and the successor dictionaries, both in
    insertion order.  Of the node attributes only the coordinates are read
    by the routers. *)

Record node_attrs : Type := mk_node_attrs {
  X_coordinate : option Q;
  Y_coordinate : option Q
}.

Record node_entry : Type := mk_node_entry {
  attrs : node_attrs;
  succs : list (string * edge_data)
}.

Abbreviation DiGraph := (list (string * node_entry)).

Fixpoint assoc {A : Type} (k : string) (l : list (string * A)) : option A :=
  match l with
  | [] => None
  | (k', a) :: l' => if decide (k = k') then Some a else assoc k l'
  end.

Definition has_node (G : DiGraph) (n : string) : bool :=
  bool_decide (is_Some (assoc n G)).

(** [G._adj[v]]; every node the searches look up is a node of [G]. *)
Definition G_succ (G : DiGraph) (v : string) : list (string * edge_data) :=
  match assoc v G with
  | Some e => succs e
  | None => []
  end.

Definition get_edge_data (G : DiGraph) (u v : string) : option edge_data :=
  assoc v (G_succ G u).

Definition has_edge (G : DiGraph) (u v : string) : bool :=
  bool_decide (is_Some (get_edge_data G u v)).

Fixpoint remove_key {A : Type} (k : string) (l : list (string * A)) : list (string * A) :=
  match l with
  | [] => []
  | (k', a) :: l' => if decide (k = k') then l' else (k', a) :: remove_key k l'
  end.

(** [G.remove_edge(u, v)] for an edge that is present *)
Fixpoint remove_edge (G : DiGraph) (u v : string) : DiGraph :=
  match G with
  | [] => []
  | (k, e) :: G' =>
      if decide (u = k)
      then (k, mk_node_entry (attrs e) (remove_key v (succs e))) :: G'
      else (k, e) :: remove_edge G' u v
  end.

(** ** Exceptions and the heap *)

Inductive exn : Type :=
| NetworkXNoPath
| NodeNotFound
| ValueError
| KeyError
| IndexError
| FuelExhausted.  (* not a Python exception: the iteration bound of a loop
                     of this model; the bounds used are shown sufficient *)

Inductive result (A : Type) : Type :=
| Return (a : A)
| Raise (e : exn).
Arguments Return {A} a.
Arguments Raise {A} e.

Definition bind {A B : Type} (r : result A) (f : A -> result B) : result B :=
  match r with
  | Return a => f a
  | Raise e => Raise e
  end.

(** a [for] loop whose body may raise *)
Fixpoint for_each {A S : Type} (body : S -> A -> result S) (l : list A) (s : S) : result S :=
  match l with
  | [] => Return s
  | x :: l' => bind (body s x) (for_each body l')
  end.

Section Heap.
Context {A : Type} (lt : A -> A -> bool).

Definition heappush (heap : list A) (item : A) : list A := heap ++ [item].

(** the least entry of [x :: l] and the other entries, in their order *)
Fixpoint pop_min (x : A) (l : list A) : A * list A :=
  match l with
  | [] => (x, [])
  | y :: l' =>
      let '(m, r) := pop_min y l' in
      if lt m x then (m, x :: r) else (x, y :: l')
  end.

Definition heappop (heap : list A) : option (A * list A) :=
  match heap with
  | [] => None
  | x :: l => Some (pop_min x l)
  end.
End Heap.

(** ** networkx: [dijkstra_path]

    The entries of the fringe are the tuples [(distance, count, node)];
    the counts are distinct, so nodes are never compared. *)

Definition fringe_lt (a b : num * nat * string) : bool :=
  let '(d1, c1, _) := a in
  let '(d2, c2, _) := b in
  if neqb d1 d2 then Nat.ltb c1 c2 else nltb d1 d2.

Record dijkstra_state : Type := mk_dijkstra_state {
  dist : gmap string num;
  seen : gmap string num;
  paths : gmap string (list string);
  fringe : list (num * nat * string);
  count : nat
}.

Section Dijkstra.
Variable G : DiGraph.
Variable weight : string -> string -> edge_data -> num.
Variable target : string.

(** the body of [for u, e in G_succ[v].items()], with [d = dist[v]] *)
Definition relax (v : string) (d : num) (st : dijkstra_state)
    (ue : string * edge_data) : result dijkstra_state :=
  let '(u, e) := ue in
  let cost := weight v u e in
  let vu_dist := nadd d cost in
  let push :=
    match paths st !! v with
    | Some pv =>
        Return (mk_dijkstra_state (dist st) (<[u := vu_dist]> (seen st))
                  (<[u := pv ++ [u]]> (paths st))
                  (heappush (fringe st) (vu_dist, count st, u))
                  (S (count st)))
    | None => Raise KeyError
    end in
  match dist st !! u with
  | Some u_dist =>
      if nltb vu_dist u_dist then Raise ValueError else Return st
  | None =>
      match seen st !! u with
      | None => push
      | Some su => if nltb vu_dist su then push else Return st
      end
  end.

(** [while fringe: ...] *)
Fixpoint dijkstra_loop (fuel : nat) (st : dijkstra_state) : result dijkstra_state :=
  match fuel with
  | O => Raise FuelExhausted
  | S fuel' =>
      match heappop fringe_lt (fringe st) with
      | None => Return st
      | Some ((d, _, v), rest) =>
          match dist st !! v with
          | Some _ =>
              dijkstra_loop fuel'
                (mk_dijkstra_state (dist st) (seen st) (paths st) rest (count st))
          | None =>
              let st1 := mk_dijkstra_state (<[v := d]> (dist st)) (seen st)
                           (paths st) rest (count st) in
              if decide (v = target) then Return st1
              else bind (for_each (relax v d) (G_succ G v) st1)
                        (dijkstra_loop fuel')
          end
      end
  end.
End Dijkstra.

Definition edge_count (G : DiGraph) : nat :=
  foldr (fun ke n => (length (succs ke.2) + n)%nat) 0%nat G.

(** [_dijkstra_multisource] from the single source, then
    [multi_source_dijkstra]'s lookup of the target. *)
Definition single_source_dijkstra (G : DiGraph)
    (weight : string -> string -> edge_data -> num) (source target : string)
    : result (num * list string) :=
  if negb (has_node G source) then Raise NodeNotFound
  else if decide (target = source) then Return (Fin 0, [target])
  else
    let st0 := mk_dijkstra_state ∅ {[ source := Fin 0 ]} {[ source := [source] ]}
                 [(Fin 0, 0%nat, source)] 1%nat in
    bind (dijkstra_loop G weight target (S (S (edge_count G))) st0) (fun st =>
      match dist st !! target, paths st !! target with
      | Some d, Some p => Return (d, p)
      | _, _ => Raise NetworkXNoPath
      end).

Definition dijkstra_path (G : DiGraph) (weight : string -> string -> edge_data -> num)
    (source target : string) : result (list string) :=
  bind (single_source_dijkstra G weight source target) (fun dp => Return dp.2).

(** [_weight_function(G, weight)] for an attribute name on a [DiGraph] *)
Definition weight_function (weight : string) (u v : string) (data : edge_data) : num :=
  default (Fin 1) (data !! weight).

(** ** [dijkstra_time_dependent] *)

(** [(path, length)] or [(None, None)] *)
Inductive route_result : Type :=
| Route (path : list string) (length : num)
| NoRoute.

(** the loop that sums the weights of the consecutive edges of [path];
    [get_edge_data] gives [None] for a missing edge, on which the weight
    closure raises *)
Fixpoint path_length (G : DiGraph) (w : string -> string -> edge_data -> num)
    (path : list string) (length : num) : result num :=
  match path with
  | u :: (v :: _) as rest =>
      match get_edge_data G u v with
      | Some edge_data => path_length G w rest (nadd length (w u v edge_data))
      | None => Raise KeyError
      end
  | _ => Return length
  end.

Definition dijkstra_time_dependent (G : DiGraph) (source target : string)
    (weight_key : string) (time_dependent : bool) (time_of_day : option string)
    : route_result :=
  if negb (has_node G source) || negb (has_node G target) then NoRoute
  else
    let w := get_edge_weight weight_key time_dependent time_of_day in
    match bind (dijkstra_path G w source target) (fun path =>
            bind (path_length G w path (Fin 0)) (fun length =>
              Return (path, length))) with
    | Return (path, length) => Route path length
    | Raise _ => NoRoute  (* except nx.NetworkXNoPath / except Exception *)
    end.

(** ** networkx: [astar_path]

    The entries of the queue are the tuples
    [(priority, count, node, cost to reach, parent)]. *)

Abbreviation astar_entry := (num * nat * string * num * option string)%type.

Definition queue_lt (a b : astar_entry) : bool :=
  let '(p1, c1, _, _, _) := a in
  let '(p2, c2, _, _, _) := b in
  if neqb p1 p2 then Nat.ltb c1 c2 else nltb p1 p2.

Record astar_state : Type := mk_astar_state {
  queue : list astar_entry;
  enqueued : gmap string (num * num);
  explored : gmap string (option string);
  acount : nat
}.

(** the walk back along the parents: [while node is not None] *)
Fixpoint reconstruct (fuel : nat) (explored : gmap string (option string))
    (node : option string) (path : list string) : result (list string) :=
  match node with
  | None => Return path
  | Some n =>
      match fuel with
      | O => Raise FuelExhausted
      | S fuel' =>
          match explored !! n with
          | Some parent => reconstruct fuel' explored parent (path ++ [n])
          | None => Raise KeyError
          end
      end
  end.

Section AStar.
Variable G : DiGraph.
Variable heuristic : string -> string -> num.
Variable weight : string -> string -> edge_data -> num.
Variable target : string.

(** the body of [for neighbor, w in G_succ[curnode].items()] *)
Definition expand (curnode : string) (dist : num) (st : astar_state)
    (nw : string * edge_data) : astar_state :=
  let '(neighbor, w) := nw in
  let cost := weight curnode neighbor w in
  let ncost := nadd dist cost in
  let push (h : num) :=
    mk_astar_state
      (heappush (queue st) (nadd ncost h, acount st, neighbor, ncost, Some curnode))
      (<[neighbor := (ncost, h)]> (enqueued st))
      (explored st)
      (S (acount st)) in
  match enqueued st !! neighbor with
  | Some (qcost, h) => if nleb qcost ncost then st else push h
  | None => push (heuristic neighbor target)
  end.

(** [while queue: ...]; the search does not end on every input, so the
    number of iterations is a parameter *)
Fixpoint astar_loop (fuel : nat) (st : astar_state) : result (list string) :=
  match fuel with
  | O => Raise FuelExhausted
  | S fuel' =>
      match heappop queue_lt (queue st) with
      | None => Raise NetworkXNoPath
      | Some ((_, _, curnode, dist, parent), rest) =>
          let st1 := mk_astar_state rest (enqueued st) (explored st) (acount st) in
          if decide (curnode = target) then
            bind (reconstruct (S (size (explored st))) (explored st) parent [curnode])
                 (fun path => Return (reverse path))
          else
            let go_on :=
              let st2 := mk_astar_state rest (enqueued st)
                           (<[curnode := parent]> (explored st)) (acount st) in
              astar_loop fuel' (foldl (expand curnode dist) st2 (G_succ G curnode)) in
            match explored st !! curnode with
            | Some None => astar_loop fuel' st1
            | Some (Some _) =>
                match enqueued st !! curnode with
                | Some (qcost, h) =>
                    if nltb qcost dist then astar_loop fuel' st1 else go_on
                | None => Raise KeyError
                end
            | None => go_on
            end
      end
  end.
End AStar.

Definition astar_path (fuel : nat) (G : DiGraph) (source target : string)
    (heuristic : string -> string -> num)
    (weight : string -> string -> edge_data -> num) : result (list string) :=
  if negb (has_node G source) || negb (has_node G target) then Raise NodeNotFound
  else
    astar_loop G heuristic weight target fuel
      (mk_astar_state [(Fin 0, 0%nat, source, Fin 0, None)] ∅ ∅ 1%nat).

(** ** [a_star_emergency_path] *)

(** [math.sqrt] on a rational: exact on the square of a rational, rounded
    down to a multiple of [1 / (10^9 * Qden q)] elsewhere. *)
Definition Qsqrt (q : Q) : Q :=
  let s := (10 ^ 9)%positive in
  Qmake (Z.sqrt (Qnum q * Zpos (Qden q) * Zpos (s * s))) (Qden q * s).

Definition square (x : Q) : Q := x * x.

Definition node_coordinates (G : DiGraph) (n : string) : option Q * option Q :=
  match assoc n G with
  | Some e => (X_coordinate (attrs e), Y_coordinate (attrs e))
  | None => (None, None)
  end.

Definition heuristic_distance (G : DiGraph) (node1_id node2_id : string) : num :=
  match node_coordinates G node1_id, node_coordinates G node2_id with
  | (Some x1, Some y1), (Some x2, Some y2) =>
      Fin (Qsqrt (square (x1 - x2) + square (y1 - y2)))
  | _, _ => Fin 0
  end.

(** [None] when the search has not ended within [fuel] iterations. *)
Definition a_star_emergency_path (fuel : nat) (G : DiGraph) (source target : string)
    (weight_key : string) (time_dependent : bool) (time_of_day : option string)
    (emergency_priority_factor : Q) : option route_result :=
  if negb (has_node G source) || negb (has_node G target) then Some NoRoute
  else
    let w := get_dynamic_edge_weight weight_key time_dependent time_of_day
               emergency_priority_factor in
    let h := fun u v => nmul (heuristic_distance G u v) (Fin emergency_priority_factor) in
    match bind (astar_path fuel G source target h w) (fun path =>
            bind (path_length G w path (Fin 0)) (fun length =>
              Return (path, length))) with
    | Return (path, length) => Some (Route path length)
    | Raise FuelExhausted => None
    | Raise _ => Some NoRoute
    end.

(** ** Yen's algorithm: [yen_alternate_routes.py] *)

(** [get_path_length]: the sum of [current_weight_key] along [path], and
    [float("inf")] at the first edge that is missing or lacks the key *)
Fixpoint get_path_length (path : list string) (current_graph : DiGraph)
    (current_weight_key : string) (length : num) : num :=
  match path with
  | u :: (v_node :: _) as rest =>
      match get_edge_data current_graph u v_node with
      | Some edge_data =>
          match edge_data !! current_weight_key with
          | Some w => get_path_length rest current_graph current_weight_key (nadd length w)
          | None => PInf
          end
      | None => PInf
      end
  | _ => length
  end.

(** [<] on lists of node names and on the tuples [(length, path)] of [B] *)
Fixpoint path_ltb (p q : list string) : bool :=
  match p, q with
  | _, [] => false
  | [], _ :: _ => true
  | x :: p', y :: q' => if decide (x = y) then path_ltb p' q' else String.ltb x y
  end.

Abbreviation yen_entry := (num * list string)%type.

Definition candidate_lt (a b : yen_entry) : bool :=
  if neqb a.1 b.1 then path_ltb a.2 b.2 else nltb a.1 b.1.

(** [any(tuple(existing) == tuple(path) for _, existing in A)] *)
Definition in_A (A : list yen_entry) (path : list string) : bool :=
  existsb (fun e => bool_decide (e.2 = path)) A.

(** [for path_len, path_val in A]: remove from [temp_graph] the edge that
    follows the root in every accepted path sharing the root *)
Definition remove_root_edge (i : nat) (root_path : list string)
    (temp_graph : DiGraph) (entry : yen_entry) : result DiGraph :=
  let path_val := entry.2 in
  if bool_decide (i < length path_val)%nat && bool_decide (take (S i) path_val = root_path) then
    match path_val !! i, path_val !! (S i) with
    | Some u, Some v_node =>
        Return (if has_edge temp_graph u v_node then remove_edge temp_graph u v_node
                else temp_graph)
    | _, _ => Raise IndexError
    end
  else Return temp_graph.

Section Yen.
Variable graph : DiGraph.
Variable target : string.
Variable weight_key : string.

(** the body of [for i in range(len(prev_path) - 1)] *)
Definition spur (A : list yen_entry) (prev_path : list string)
    (B : list yen_entry) (i : nat) : result (list yen_entry) :=
  match prev_path !! i with
  | None => Raise IndexError
  | Some spur_node =>
      let root_path := take (S i) prev_path in
      bind (for_each (remove_root_edge i root_path) A graph) (fun temp_graph =>
        match dijkstra_path temp_graph (weight_function weight_key) spur_node target with
        | Return spur_path =>
            let total_path := removelast root_path ++ spur_path in
            let total_path_len := get_path_length total_path graph weight_key (Fin 0) in
            if in_A A total_path then Return B
            else Return (heappush B (total_path_len, total_path))
        | Raise NetworkXNoPath | Raise KeyError => Return B
        | Raise e => Raise e
        end)
  end.

(** [while B and not added_to_A]; every round pops an entry, so
    [length B] rounds empty the heap *)
Fixpoint pop_candidate (rounds : nat) (A B : list yen_entry)
    : list yen_entry * list yen_entry * bool :=
  match rounds with
  | O => (A, B, false)
  | S rounds' =>
      match heappop candidate_lt B with
      | None => (A, B, false)
      | Some ((potential_len, potential_path), B') =>
          if in_A A potential_path then pop_candidate rounds' A B'
          else (A ++ [(potential_len, potential_path)], B', true)
      end
  end.

(** [for k in range(1, K)], over the values of [k] that are left *)
Fixpoint yen_loop (ks : list nat) (A B : list yen_entry) : result (list yen_entry) :=
  match ks with
  | [] => Return A
  | k :: ks' =>
      if bool_decide (A = []) then Return A
      else
        match A !! (k - 1)%nat with
        | None => Raise IndexError
        | Some (prev_path_len, prev_path) =>
            bind (for_each (spur A prev_path) (seq 0 (length prev_path - 1)) B)
              (fun B1 =>
                 if bool_decide (B1 = []) then Return A
                 else
                   let '(A2, B2, added_to_A) := pop_candidate (length B1) A B1 in
                   if negb added_to_A && bool_decide (B2 = []) then Return A2
                   else yen_loop ks' A2 B2)
        end
  end.
End Yen.

(** [A.sort(key=lambda x: x[0])]: the stable sort by length *)
Fixpoint insert_by_length (x : yen_entry) (l : list yen_entry) : list yen_entry :=
  match l with
  | [] => [x]
  | y :: l' => if nltb x.1 y.1 then x :: y :: l' else y :: insert_by_length x l'
  end.

Definition sort_by_length (l : list yen_entry) : list yen_entry :=
  foldl (fun acc x => insert_by_length x acc) [] l.

(** the slice [A[:K]] *)
Definition slice_to {A : Type} (K : Z) (l : list A) : list A :=
  if (0 <=? K)%Z then take (Z.to_nat K) l
  else take (Z.to_nat (Z.of_nat (length l) + K)) l.

Definition yen_k_shortest_paths (graph : DiGraph) (source target : string) (K : Z)
    (weight_key : string) : result (list (list string)) :=
  if negb (has_node graph source) || negb (has_node graph target) then Return []
  else
    match dijkstra_path graph (weight_function weight_key) source target with
    | Raise NetworkXNoPath | Raise KeyError => Return []
    | Raise e => Raise e
    | Return first_path =>
        let first_path_len := get_path_length first_path graph weight_key (Fin 0) in
        bind (yen_loop graph target weight_key (seq 1 (Z.to_nat (K - 1)))
                [(first_path_len, first_path)] [])
          (fun A => Return (map snd (slice_to K (sort_by_length A))))
    end.

(** ** Notions used to state the properties *)

(** The factor in the spec's words:
    [1 + volume / (capacity * sensitivity)], capped at [ceiling]. *)
Definition spec_congestion_factor (volume capacity sensitivity ceiling : Q) : Q :=
  Qmin (1 + volume / (capacity * sensitivity)) ceiling.

(** An edge of the data model has a capacity that is an integer [>= 0]
    (here: a rational [>= 0]) when it has one. *)
Definition capacity_ok (data : edge_data) : Prop :=
  match data !! "base_capacity_veh_hr" with
  | Some (Fin c) => (0 <= c)%Q
  | Some _ => False
  | None => True
  end.

(** A walk of [G]: consecutive nodes are joined by an edge. *)
Fixpoint is_walk (G : DiGraph) (p : list string) : Prop :=
  match p with
  | u :: (v :: _) as rest => is_Some (get_edge_data G u v) /\ is_walk G rest
  | _ => True
  end.

Definition walk_from_to (G : DiGraph) (s t : string) (p : list string) : Prop :=
  is_walk G p /\ head p = Some s /\ last p = Some t.

Definition reachable (G : DiGraph) (s t : string) : Prop :=
  exists p, walk_from_to G s t p.

(** One round of the [while] loop of [_dijkstra_multisource]. *)
Inductive step_result (S A : Type) : Type :=
| Continue (st : S)
| Stop (r : result A).
Arguments Continue {S A} st.
Arguments Stop {S A} r.

Definition dijkstra_step (G : DiGraph) (weight : string -> string -> edge_data -> num)
    (target : string) (st : dijkstra_state) : step_result dijkstra_state dijkstra_state :=
  match heappop fringe_lt (fringe st) with
  | None => Stop (Return st)
  | Some ((d, _, v), rest) =>
      match dist st !! v with
      | Some _ =>
          Continue (mk_dijkstra_state (dist st) (seen st) (paths st) rest (count st))
      | None =>
          let st1 := mk_dijkstra_state (<[v := d]> (dist st)) (seen st)
                       (paths st) rest (count st) in
          if decide (v = target) then Stop (Return st1)
          else match for_each (relax weight v d) (G_succ G v) st1 with
               | Return st' => Continue st'
               | Raise e => Stop (Raise e)
               end
      end
  end.

(** The weights of the consecutive edges of [p], when they all exist. *)
Fixpoint edge_weights (G : DiGraph) (w : string -> string -> edge_data -> num)
    (p : list string) : option (list num) :=
  match p with
  | u :: (v :: _) as rest =>
      match get_edge_data G u v, edge_weights G w rest with
      | Some e, Some ws => Some (w u v e :: ws)
      | _, _ => None
      end
  | _ => Some []
  end.

(** The sum from [0], taken from the left as the routers do. *)
Definition sum_weights (ws : list num) : num := foldl nadd (Fin 0) ws.

(** The data model of an edge: the base metric is [>= 0] (or [+inf], or
    missing), the capacity and the four traffic volumes are [>= 0]. *)
Definition count_ok (data : edge_data) (attr : string) : bool :=
  match data !! attr with
  | Some (Fin q) => Qle_bool 0 q
  | Some _ => false
  | None => true
  end.

Definition edge_ok (weight_key : string) (data : edge_data) : bool :=
  nonnegb (default PInf (data !! weight_key)) &&
  count_ok data "base_capacity_veh_hr" &&
  count_ok data "morning_peak_veh_h" && count_ok data "afternoon_veh_h" &&
  count_ok data "evening_peak_veh_h" && count_ok data "night_veh_h".

Definition road_network_ok (weight_key : string) (G : DiGraph) : bool :=
  forallb (fun ke => forallb (fun ue => edge_ok weight_key ue.2) (succs ke.2)) G.

(** The shape networkx keeps: a successor dictionary has one entry per
    neighbour, and every neighbour is a node of the graph. *)
Definition graph_wf (G : DiGraph) : bool :=
  forallb (fun ke => bool_decide (NoDup (succs ke.2).*1) &&
                     forallb (fun ue => has_node G ue.1) (succs ke.2)) G.

(** Every edge carries the base metric, with a value [>= 0] or [+inf]. *)
Definition metric_ok (weight_key : string) (G : DiGraph) : bool :=
  forallb (fun ke =>
    forallb (fun ue => match ue.2 !! weight_key with
                       | Some x => nonnegb x
                       | None => false
                       end) (succs ke.2)) G.


(** One round of the [while] loop of [astar_path]. *)
Definition astar_step (G : DiGraph) (heuristic : string -> string -> num)
    (weight : string -> string -> edge_data -> num) (target : string)
    (st : astar_state) : step_result astar_state (list string) :=
  match heappop queue_lt (queue st) with
  | None => Stop (Raise NetworkXNoPath)
  | Some ((_, _, curnode, dist, parent), rest) =>
      let st1 := mk_astar_state rest (enqueued st) (explored st) (acount st) in
      if decide (curnode = target) then
        Stop (bind (reconstruct (S (size (explored st))) (explored st) parent [curnode])
                (fun path => Return (reverse path)))
      else
        let go_on :=
          let st2 := mk_astar_state rest (enqueued st)
                       (<[curnode := parent]> (explored st)) (acount st) in
          Continue (foldl (expand heuristic weight target curnode dist) st2
                      (G_succ G curnode)) in
        match explored st !! curnode with
        | Some None => Continue st1
        | Some (Some _) =>
            match enqueued st !! curnode with
            | Some (qcost, h) => if nltb qcost dist then Continue st1 else go_on
            | None => Stop (Raise KeyError)
            end
        | None => go_on
        end
  end.

(** * Properties *)

(** ** Numbers *)

Lemma Qltb_lt (x y : Q) : Qltb x y = true <-> (x < y)%Q.
Proof.
  unfold Qltb. rewrite Qlt_alt. destruct (x ?= y)%Q; split; congruence.
Qed.

Lemma Qltb_ge (x y : Q) : Qltb x y = false <-> (y <= x)%Q.
Proof.
  rewrite <- not_true_iff_false, Qltb_lt. split; [apply Qnot_lt_le | apply Qle_not_lt].
Qed.

Lemma Qeqb_eq (x y : Q) : Qeqb x y = true <-> (x == y)%Q.
Proof.
  unfold Qeqb. rewrite Qeq_alt. destruct (x ?= y)%Q; split; congruence.
Qed.

Lemma Qeqb_neq (x y : Q) : Qeqb x y = false <-> ~ (x == y)%Q.
Proof. rewrite <- not_true_iff_false, Qeqb_eq. tauto. Qed.

Ltac qbool :=
  repeat match goal with
    | H : Qltb _ _ = true |- _ => apply Qltb_lt in H
    | H : Qltb _ _ = false |- _ => apply Qltb_ge in H
    | H : Qeqb _ _ = true |- _ => apply Qeqb_eq in H
    | H : Qeqb _ _ = false |- _ => apply Qeqb_neq in H
    | |- Qltb _ _ = true => apply Qltb_lt
    | |- Qltb _ _ = false => apply Qltb_ge
    | |- Qeqb _ _ = true => apply Qeqb_eq
    | |- Qeqb _ _ = false => apply Qeqb_neq
    end.

Lemma nmin_fin (x y : Q) : num_eq (nmin (Fin x) (Fin y)) (Fin (Qmin x y)).
Proof.
  unfold nmin; simpl. destruct (Qltb y x) eqn:E; qbool; simpl.
  - symmetry. apply Q.min_r. lra.
  - symmetry. apply Q.min_l. lra.
Qed.

Lemma num_eq_refl (a : num) : num_eq a a.
Proof. destruct a; simpl; auto. reflexivity. Qed.

Lemma num_eq_sym (a b : num) : num_eq a b -> num_eq b a.
Proof. destruct a, b; simpl; auto. intros H; symmetry; exact H. Qed.

Lemma num_eq_trans (a b c : num) : num_eq a b -> num_eq b c -> num_eq a c.
Proof. destruct a, b, c; simpl; try tauto. intros H1 H2; rewrite H1; exact H2. Qed.

(** ** The congestion model (C2, C7, C9) *)


Lemma edge_capacity_fin (data : edge_data) (c : Q) :
  edge_capacity data = Fin c -> ~ (c == 0)%Q.
Proof.
  unfold edge_capacity.
  destruct (default (Fin 1) (data !! "base_capacity_veh_hr")) as [q| | |] eqn:E;
    simpl; try discriminate.
  destruct (Qeqb q 0) eqn:E0; intros [= <-]; qbool; [lra | exact E0].
Qed.

Lemma congestion_factor_spec (data : edge_data) (vol c : Q) :
  edge_capacity data = Fin c ->
  num_eq (congestion_factor (Fin vol) data) (Fin (spec_congestion_factor vol c 1 5)).
Proof.
  intros Hc. unfold congestion_factor, spec_congestion_factor. rewrite Hc. simpl ndiv.
  simpl nadd. eapply num_eq_trans; [apply nmin_fin|]. simpl.
  apply Q.min_compat; [|reflexivity].
  assert (c * 1 == c)%Q as -> by ring. reflexivity.
Qed.

Lemma emergency_congestion_factor_spec (data : edge_data) (vol c : Q) :
  edge_capacity data = Fin c ->
  num_eq (emergency_congestion_factor (Fin vol) data)
         (Fin (spec_congestion_factor vol c (3 # 2) 3)).
Proof.
  intros Hc. unfold emergency_congestion_factor, spec_congestion_factor. rewrite Hc.
  simpl. eapply num_eq_trans; [apply nmin_fin|]. simpl. reflexivity.
Qed.

Lemma traffic_col_map_truthy (label attr : string) :
  traffic_col_map label = Some attr -> truthy (Some label) = true.
Proof.
  intros H. simpl. destruct (String.eqb_spec label ""); [subst; discriminate|reflexivity].
Qed.

Lemma traffic_bucket_known (label attr : string) (data : edge_data) :
  traffic_col_map label = Some attr ->
  traffic_bucket true (Some label) data = data !! attr.
Proof.
  intros H. unfold traffic_bucket. rewrite (traffic_col_map_truthy _ _ H). simpl.
  rewrite H. reflexivity.
Qed.


Lemma edge_capacity_pos (data : edge_data) :
  capacity_ok data -> exists c, edge_capacity data = Fin c /\ (0 < c)%Q.
Proof.
  unfold capacity_ok, edge_capacity.
  destruct (data !! "base_capacity_veh_hr") as [[c| | |]|]; simpl; try tauto.
  - intros Hc. destruct (Qeqb c 0) eqn:E; qbool.
    + exists 1%Q. split; [reflexivity|lra].
    + exists c. split; [reflexivity|]. destruct (Qlt_le_dec 0 c); [assumption|].
      exfalso. apply E. lra.
  - intros _. exists 1%Q. split; [reflexivity|lra].
Qed.

Lemma Qdiv_le_mono (x y c : Q) : (0 < c)%Q -> (x <= y)%Q -> (x / c <= y / c)%Q.
Proof.
  intros Hc Hxy. unfold Qdiv. apply Qmult_le_compat_r; [assumption|].
  apply Qlt_le_weak, Qinv_lt_0_compat, Hc.
Qed.

Lemma nle_nmin_mono (x y z : Q) :
  (x <= y)%Q -> nle (nmin (Fin x) (Fin z)) (nmin (Fin y) (Fin z)).
Proof.
  intros H. unfold nmin; simpl.
  destruct (Qltb z x) eqn:E1, (Qltb z y) eqn:E2; qbool; simpl; lra.
Qed.

Lemma nle_nmin_cap (x z : Q) : nle (nmin (Fin x) (Fin z)) (Fin z).
Proof.
  unfold nmin; simpl. destruct (Qltb z x) eqn:E1; qbool; simpl; lra.
Qed.

(** C9. For a fixed edge whose capacity is non-negative, the congestion factor
    of either routing mode is monotonically non-decreasing in the traffic
    volume and never exceeds its cap (5 ordinary, 3 emergency); for capacity
    1000 and volume 10000 the ordinary factor is exactly 5, not 11. *)
Theorem congestion_factor_monotone_capped (data : edge_data) (v1 v2 : Q) :
  capacity_ok data ->
  (v1 <= v2)%Q ->
  nle (congestion_factor (Fin v1) data) (congestion_factor (Fin v2) data) /\
  nle (congestion_factor (Fin v2) data) (Fin 5) /\
  nle (emergency_congestion_factor (Fin v1) data)
      (emergency_congestion_factor (Fin v2) data) /\
  nle (emergency_congestion_factor (Fin v2) data) (Fin 3) /\
  congestion_factor (Fin 10000) {[ "base_capacity_veh_hr" := Fin 1000 ]} = Fin 5.
Proof.
  intros Hok Hv. destruct (edge_capacity_pos data Hok) as (c & Hc & Hpos).
  unfold congestion_factor, emergency_congestion_factor. rewrite Hc. simpl ndiv.
  simpl nadd. repeat split.
  - apply nle_nmin_mono. pose proof (Qdiv_le_mono v1 v2 c Hpos Hv). lra.
  - apply nle_nmin_cap.
  - apply nle_nmin_mono.
    assert (0 < c * (3 # 2))%Q as Hpos' by lra.
    pose proof (Qdiv_le_mono v1 v2 _ Hpos' Hv). lra.
  - apply nle_nmin_cap.
Qed.

Lemma congestion_factor_monotone_capped_witness :
  let data : edge_data := {[ "base_capacity_veh_hr" := Fin 1000 ]} in
  nle (congestion_factor (Fin 500) data) (congestion_factor (Fin 10000) data) /\
  nle (congestion_factor (Fin 10000) data) (Fin 5).
Proof.
  intros data.
  assert (capacity_ok data) as Hok by (vm_compute; discriminate).
  assert (500 <= 10000)%Q as Hv by (vm_compute; discriminate).
  destruct (congestion_factor_monotone_capped data 500 10000 Hok Hv) as (H1 & H2 & _).
  split; assumption.
Defined.

(** C2, as stated, fails on an edge of capacity 0 and on a query that names
    a time of day without [time_dependent]: with capacity 0 and volume 1 the
    code multiplies the base 10 by 2 (capacity read as 1), which is neither
    the formula's value nor the capped one; with [time_dependent = False]
    the bucket is not read at all. *)
Lemma effective_weight_formula_counterexample :
  let zero_cap : edge_data :=
    {[ "distance_km" := Fin 10; "base_capacity_veh_hr" := Fin 0;
       "morning_peak_veh_h" := Fin 1 ]} in
  let busy : edge_data :=
    {[ "distance_km" := Fin 10; "base_capacity_veh_hr" := Fin 1000;
       "morning_peak_veh_h" := Fin 4000 ]} in
  (get_edge_weight "distance_km" true (Some "morning_peak") "A" "B" zero_cap = Fin 20 /\
   ~ num_eq (Fin 20) (Fin (10 * spec_congestion_factor 1 0 1 5)) /\
   ~ num_eq (Fin 20) (Fin (10 * 5))) /\
  (get_edge_weight "distance_km" false (Some "morning_peak") "A" "B" busy = Fin 10 /\
   ~ num_eq (Fin 10) (Fin (10 * spec_congestion_factor 4000 1000 1 5))).
Proof.
  vm_compute. repeat split; try discriminate; intros H; discriminate H.
Qed.

(** C2 (amended). In a query with [time_dependent] set, for every edge that
    carries the base metric and the traffic bucket of the (known) time of day,
    the effective weight is [base * congestionFactor] for ordinary routing and
    [base * congestionFactor * priorityFactor] for emergency routing, where
    [congestionFactor = min(1 + volume / (capacity * sensitivity), cap)],
    sensitivity 1 and cap 5 for [dijkstra_time_dependent], sensitivity 1.5 and
    cap 3 for [a_star_emergency_path], and [capacity] is the edge's capacity
    with 0 or a missing value read as 1. *)
Theorem effective_weight_formula (weight_key label attr : string) (data : edge_data)
    (b vol c pf : Q) (u v : string) :
  traffic_col_map label = Some attr ->
  data !! attr = Some (Fin vol) ->
  data !! weight_key = Some (Fin b) ->
  edge_capacity data = Fin c ->
  num_eq (get_edge_weight weight_key true (Some label) u v data)
         (Fin (b * spec_congestion_factor vol c 1 5)) /\
  num_eq (get_dynamic_edge_weight weight_key true (Some label) pf u v data)
         (Fin (b * spec_congestion_factor vol c (3 # 2) 3 * pf)).
Proof.
  intros Hl Hv Hb Hc.
  unfold get_edge_weight, get_dynamic_edge_weight.
  rewrite (traffic_bucket_known _ _ _ Hl), Hv, Hb. simpl default.
  pose proof (congestion_factor_spec data vol c Hc) as H1.
  pose proof (emergency_congestion_factor_spec data vol c Hc) as H2.
  destruct (congestion_factor (Fin vol) data) as [f1| | |]; simpl in H1; try tauto.
  destruct (emergency_congestion_factor (Fin vol) data) as [f2| | |];
    simpl in H2; try tauto.
  simpl. rewrite H1, H2. split; reflexivity.
Qed.

Lemma effective_weight_formula_witness :
  let data : edge_data :=
    {[ "distance_km" := Fin 5; "base_capacity_veh_hr" := Fin 1000;
       "morning_peak_veh_h" := Fin 4000 ]} in
  num_eq (get_edge_weight "distance_km" true (Some "morning_peak") "A" "B" data)
         (Fin (5 * spec_congestion_factor 4000 1000 1 5)) /\
  num_eq (get_dynamic_edge_weight "distance_km" true (Some "morning_peak") (4 # 5) "A" "B" data)
         (Fin (5 * spec_congestion_factor 4000 1000 (3 # 2) 3 * (4 # 5))).
Proof.
  intros data.
  apply (effective_weight_formula "distance_km" "morning_peak" "morning_peak_veh_h"
           data 5 4000 1000 (4 # 5) "A" "B"); reflexivity.
Defined.

(** C7, as stated, fails: with capacity 0 the capacity is read as 1, so a
    volume of 1 gives the factor 2 (ordinary) and 5/3 (emergency), not the
    caps 5 and 3. *)
Lemma zero_capacity_saturates_counterexample :
  let data : edge_data :=
    {[ "distance_km" := Fin 10; "base_capacity_veh_hr" := Fin 0;
       "morning_peak_veh_h" := Fin 1 ]} in
  ~ num_eq (congestion_factor (Fin 1) data) (Fin 5) /\
  ~ num_eq (emergency_congestion_factor (Fin 1) data) (Fin 3).
Proof.
  vm_compute. split; intros H; discriminate H.
Qed.

Lemma edge_capacity_zero (data : edge_data) (c : Q) :
  data !! "base_capacity_veh_hr" = Some (Fin c) -> (c == 0)%Q ->
  edge_capacity data = Fin 1.
Proof.
  intros H Hc. unfold edge_capacity. rewrite H. simpl.
  assert (Qeqb c 0 = true) as -> by (qbool; exact Hc). reflexivity.
Qed.

(** C7 (amended). On an edge whose capacity is 0 the capacity is read as 1:
    for a traffic volume [vol > 0] the congestion factor is [min(1 + vol, 5)]
    for ordinary routing and [min(1 + vol / 1.5, 3)] for emergency routing,
    which is the cap from volume 4 (ordinary) and volume 3 (emergency) on;
    the resulting cost is finite whenever the base metric of the edge is. *)
Theorem zero_capacity_factor (weight_key label attr : string) (data : edge_data)
    (c vol b pf : Q) (u v : string) :
  data !! "base_capacity_veh_hr" = Some (Fin c) -> (c == 0)%Q ->
  traffic_col_map label = Some attr ->
  data !! attr = Some (Fin vol) -> (0 < vol)%Q ->
  num_eq (congestion_factor (Fin vol) data) (Fin (Qmin (1 + vol) 5)) /\
  num_eq (emergency_congestion_factor (Fin vol) data) (Fin (Qmin (1 + vol / (3 # 2)) 3)) /\
  ((4 <= vol)%Q -> num_eq (congestion_factor (Fin vol) data) (Fin 5)) /\
  ((3 <= vol)%Q -> num_eq (emergency_congestion_factor (Fin vol) data) (Fin 3)) /\
  (data !! weight_key = Some (Fin b) ->
   is_finite (get_edge_weight weight_key true (Some label) u v data) /\
   is_finite (get_dynamic_edge_weight weight_key true (Some label) pf u v data)).
Proof.
  intros Hcap Hc Hl Hv Hpos.
  pose proof (edge_capacity_zero data c Hcap Hc) as Hone.
  pose proof (congestion_factor_spec data vol 1 Hone) as H1.
  pose proof (emergency_congestion_factor_spec data vol 1 Hone) as H2.
  unfold spec_congestion_factor in H1, H2.
  assert (num_eq (congestion_factor (Fin vol) data) (Fin (Qmin (1 + vol) 5))) as H1'.
  { eapply num_eq_trans; [exact H1|]. simpl. apply Q.min_compat; [|reflexivity].
    field. }
  assert (num_eq (emergency_congestion_factor (Fin vol) data)
            (Fin (Qmin (1 + vol / (3 # 2)) 3))) as H2'.
  { eapply num_eq_trans; [exact H2|]. simpl. apply Q.min_compat; [|reflexivity].
    field. }
  split; [exact H1'|]. split; [exact H2'|]. split; [|split].
  - intros H4. eapply num_eq_trans; [exact H1'|]. simpl. apply Q.min_r. lra.
  - intros H3. eapply num_eq_trans; [exact H2'|]. simpl. apply Q.min_r.
    assert (vol / (3 # 2) == vol * (2 # 3))%Q as -> by field. lra.
  - intros Hb. unfold get_edge_weight, get_dynamic_edge_weight.
    rewrite (traffic_bucket_known _ _ _ Hl), Hv, Hb. simpl default.
    destruct (congestion_factor (Fin vol) data) as [f1| | |]; simpl in H1; try tauto.
    destruct (emergency_congestion_factor (Fin vol) data) as [f2| | |];
      simpl in H2; try tauto.
    simpl. split; exact I.
Qed.

Lemma zero_capacity_factor_witness :
  let data : edge_data :=
    {[ "distance_km" := Fin 10; "base_capacity_veh_hr" := Fin 0;
       "morning_peak_veh_h" := Fin 4 ]} in
  num_eq (congestion_factor (Fin 4) data) (Fin 5) /\
  is_finite (get_edge_weight "distance_km" true (Some "morning_peak") "A" "B" data).
Proof.
  intros data.
  destruct (zero_capacity_factor "distance_km" "morning_peak" "morning_peak_veh_h"
              data 0 4 10 1 "A" "B") as (_ & _ & H4 & _ & Hf);
    try reflexivity.
  split; [apply H4; vm_compute; discriminate | apply Hf; reflexivity].
Defined.

(** ** Association lists and walks *)

Lemma assoc_Some_In {A : Type} (k : string) (l : list (string * A)) (a : A) :
  assoc k l = Some a -> In (k, a) l.
Proof.
  induction l as [|[k' a'] l IH]; simpl; [discriminate|].
  destruct (decide (k = k')) as [->|]; [intros [= ->]; auto | auto].
Qed.

Lemma In_assoc_is_Some {A : Type} (k : string) (l : list (string * A)) (a : A) :
  In (k, a) l -> is_Some (assoc k l).
Proof.
  induction l as [|[k' a'] l IH]; simpl; [tauto|].
  intros H. destruct (decide (k = k')); [eauto|].
  destruct H as [[= -> ->]|H]; [congruence|auto].
Qed.

Lemma succ_edge (G : DiGraph) (v u : string) (e : edge_data) :
  In (u, e) (G_succ G v) -> is_Some (get_edge_data G v u).
Proof. apply In_assoc_is_Some. Qed.

Lemma is_walk_snoc (G : DiGraph) (p : list string) (v u : string) :
  is_walk G p -> last p = Some v -> is_Some (get_edge_data G v u) ->
  is_walk G (p ++ [u]).
Proof.
  induction p as [|x [|y p] IH]; simpl; intros Hw Hl He.
  - discriminate.
  - injection Hl as ->. auto.
  - destruct Hw as [Hxy Hw]. split; [exact Hxy|]. apply IH; auto.
Qed.

Lemma is_walk_app_l (G : DiGraph) (p q : list string) :
  is_walk G (p ++ q) -> is_walk G p.
Proof.
  induction p as [|x [|y p] IH]; simpl; auto.
  intros [Hxy Hw]. split; [exact Hxy|]. apply IH. exact Hw.
Qed.

Lemma is_walk_app_r (G : DiGraph) (p q : list string) :
  is_walk G (p ++ q) -> is_walk G q.
Proof.
  induction p as [|x [|y p] IH]; simpl; auto.
  - destruct q; simpl; tauto.
  - intros [_ Hw]. apply IH. exact Hw.
Qed.

(** ** The heap *)

Section HeapFacts.
Context {A : Type} (lt : A -> A -> bool) (P : A -> Prop).
Hypothesis lt_asym : forall a b, P a -> P b -> lt a b = true -> lt b a = false.
Hypothesis lt_negtrans :
  forall a b c, P a -> P b -> P c -> lt a b = false -> lt b c = false -> lt a c = false.

Lemma pop_min_split (x : A) (l : list A) :
  exists l1 l2, x :: l = l1 ++ (pop_min lt x l).1 :: l2 /\ (pop_min lt x l).2 = l1 ++ l2.
Proof.
  revert x. induction l as [|y l IH]; intros x; simpl.
  - exists [], []. auto.
  - destruct (IH y) as (l1 & l2 & H1 & H2).
    destruct (pop_min lt y l) as [m r]; simpl in *.
    destruct (lt m x); simpl.
    + exists (x :: l1), l2. rewrite H1, H2. auto.
    + exists [], (y :: l). auto.
Qed.

Lemma pop_min_In (x : A) (l : list A) : In (pop_min lt x l).1 (x :: l).
Proof.
  destruct (pop_min_split x l) as (l1 & l2 & H1 & _). rewrite H1.
  apply in_elt.
Qed.

Lemma pop_min_rest_In (x : A) (l : list A) (y : A) :
  In y (pop_min lt x l).2 -> In y (x :: l).
Proof.
  destruct (pop_min_split x l) as (l1 & l2 & H1 & H2). rewrite H1, H2.
  rewrite !in_app_iff. simpl. tauto.
Qed.

Lemma pop_min_In_inv (x : A) (l : list A) (y : A) :
  In y (x :: l) -> y = (pop_min lt x l).1 \/ In y (pop_min lt x l).2.
Proof.
  destruct (pop_min_split x l) as (l1 & l2 & H1 & H2). rewrite H1, H2.
  rewrite !in_app_iff. simpl. intuition.
Qed.

Lemma pop_min_length (x : A) (l : list A) : length (pop_min lt x l).2 = length l.
Proof.
  destruct (pop_min_split x l) as (l1 & l2 & H1 & H2). rewrite H2.
  apply (f_equal length) in H1. simpl in H1. rewrite !length_app in *. simpl in H1. lia.
Qed.

Lemma pop_min_least (x : A) (l : list A) :
  Forall P (x :: l) -> forall y, In y (x :: l) -> lt y (pop_min lt x l).1 = false.
Proof.
  revert x. induction l as [|y l IH]; intros x HP z Hz.
  - simpl in *. destruct Hz as [<-|[]].
    inversion HP; subst.
    destruct (lt x x) eqn:E; [|reflexivity]. rewrite (lt_asym x x) in E; auto.
  - inversion HP as [|? ? Px HP']; subst.
    specialize (IH y HP').
    assert (P (pop_min lt y l).1) as Pm.
    { rewrite Forall_forall in HP'. apply HP'. apply list_elem_of_In, pop_min_In. }
    simpl. destruct (pop_min lt y l) as [m r] eqn:E; simpl in *.
    assert (lt x x = false) as Hxx.
    { destruct (lt x x) eqn:E'; [|reflexivity]. rewrite (lt_asym x x) in E'; auto. }
    destruct (lt m x) eqn:Emx; simpl.
    + destruct Hz as [<-|Hz]; [apply lt_asym; auto|]. apply IH. exact Hz.
    + destruct Hz as [<-|Hz]; [exact Hxx|].
      assert (P z) as Pz.
      { rewrite Forall_forall in HP'. apply HP'. apply list_elem_of_In. exact Hz. }
      apply (lt_negtrans z m x); auto.
Qed.
End HeapFacts.

(** ** Loops *)

Lemma for_each_inv {A S : Type} (body : S -> A -> result S) (J : S -> Prop)
    (l : list A) :
  (forall s x s', In x l -> J s -> body s x = Return s' -> J s') ->
  forall s s', J s -> for_each body l s = Return s' -> J s'.
Proof.
  induction l as [|x l IH]; simpl; intros Hbody s s' HJ Hrun.
  - injection Hrun as <-. exact HJ.
  - destruct (body s x) as [s1|e] eqn:E; simpl in Hrun; [|discriminate].
    apply (IH (fun s x s' H => Hbody s x s' (or_intror H)) s1 s'); auto.
    apply (Hbody s x s1); auto.
Qed.

Lemma dijkstra_loop_unfold (G : DiGraph) (w : string -> string -> edge_data -> num)
    (t : string) (fuel : nat) (st : dijkstra_state) :
  dijkstra_loop G w t (S fuel) st =
  match dijkstra_step G w t st with
  | Continue st' => dijkstra_loop G w t fuel st'
  | Stop r => r
  end.
Proof.
  unfold dijkstra_step. simpl.
  destruct (heappop fringe_lt (fringe st)) as [[[[d c] v] rest]|]; [|reflexivity].
  destruct (dist st !! v); [reflexivity|].
  destruct (decide (v = t)); [reflexivity|].
  destruct (for_each _ _ _); reflexivity.
Qed.

Lemma dijkstra_loop_inv (I : dijkstra_state -> Prop) (G : DiGraph)
    (w : string -> string -> edge_data -> num) (t : string) :
  (forall st st', I st -> dijkstra_step G w t st = Continue st' -> I st') ->
  forall fuel st, I st ->
    dijkstra_loop G w t fuel st = Raise FuelExhausted \/
    exists st', I st' /\ dijkstra_step G w t st' = Stop (dijkstra_loop G w t fuel st).
Proof.
  intros Hstep. induction fuel as [|fuel IH]; intros st HI.
  - left. reflexivity.
  - rewrite dijkstra_loop_unfold.
    destruct (dijkstra_step G w t st) as [st'|r] eqn:E.
    + apply IH. eapply Hstep; eauto.
    + right. exists st. auto.
Qed.

(** ** Soundness of [dijkstra_path]: a loopless walk from source to target *)

Section DijkstraSound.
Variable G : DiGraph.
Variable w : string -> string -> edge_data -> num.
Variables source target : string.

Definition path_ok (st : dijkstra_state) (u : string) (p : list string) : Prop :=
  is_walk G p /\ head p = Some source /\ last p = Some u /\ NoDup p /\
  (forall x, In x p -> x <> u -> is_Some (dist st !! x)).

Definition sound_inv (st : dijkstra_state) : Prop :=
  (forall u p, paths st !! u = Some p -> path_ok st u p) /\
  (forall d c u, In (d, c, u) (fringe st) -> is_Some (paths st !! u)).

Lemma relax_sound (v : string) (d : num) (st st' : dijkstra_state)
    (ue : string * edge_data) :
  In ue (G_succ G v) ->
  sound_inv st /\ is_Some (dist st !! v) ->
  relax w v d st ue = Return st' ->
  sound_inv st' /\ is_Some (dist st' !! v).
Proof.
  destruct ue as [u e]. intros Hin [[Hp Hf] Hv]. unfold relax.
  assert (forall pv,
    dist st !! u = None ->
    paths st !! v = Some pv ->
    let st2 := mk_dijkstra_state (dist st) (<[u := nadd d (w v u e)]> (seen st))
                 (<[u := pv ++ [u]]> (paths st))
                 (heappush (fringe st) (nadd d (w v u e), count st, u))
                 (S (count st)) in
    sound_inv st2 /\ is_Some (dist st2 !! v)) as Hpush.
  { intros pv Hu Hpv st2. split; [|exact Hv]. split.
    - intros x p. simpl. destruct (decide (u = x)) as [<-|Hne].
      + rewrite lookup_insert_eq. intros [= <-].
        destruct (Hp v pv Hpv) as (Hw & Hh & Hl & Hnd & Hd).
        assert (~ In u pv) as Hnotin.
        { intros Hin'. destruct (decide (u = v)) as [->|Huv].
          - rewrite Hu in Hv. destruct Hv; discriminate.
          - specialize (Hd u Hin' Huv). rewrite Hu in Hd. destruct Hd; discriminate. }
        repeat split.
        * eapply is_walk_snoc; eauto. eapply succ_edge; eauto.
        * destruct pv; [discriminate|]. exact Hh.
        * apply last_snoc.
        * apply NoDup_app. repeat split; auto.
          -- intros y Hy Hy'. apply list_elem_of_In in Hy.
             apply list_elem_of_In in Hy'. destruct Hy' as [<-|[]]. tauto.
          -- apply NoDup_singleton.
        * intros y Hy Hyu. apply in_app_iff in Hy. destruct Hy as [Hy|[<-|[]]]; [|tauto].
          destruct (decide (y = v)) as [->|Hyv]; [exact Hv|]. apply Hd; auto.
      + rewrite lookup_insert_ne by exact Hne. intros Hx.
        destruct (Hp x p Hx) as (Hw & Hh & Hl & Hnd & Hd). repeat split; auto.
    - intros d' c' x. simpl. unfold heappush. rewrite in_app_iff. simpl.
      intros [Hx|[[= <- <- <-]|[]]].
      + destruct (decide (u = x)) as [<-|Hne].
        * rewrite lookup_insert_eq. eauto.
        * rewrite lookup_insert_ne by exact Hne. eapply Hf; eauto.
      + rewrite lookup_insert_eq. eauto. }
  assert (sound_inv st /\ is_Some (dist st !! v)) as Hst by (split; [split|]; assumption).
  destruct (dist st !! u) as [du|] eqn:Hu.
  - destruct (nltb _ du); [discriminate|]. intros [= <-]. exact Hst.
  - destruct (paths st !! v) as [pv|] eqn:Hpv.
    + destruct (seen st !! u) as [su|].
      * destruct (nltb _ su); intros [= <-]; [apply Hpush; auto | exact Hst].
      * intros [= <-]. apply Hpush; auto.
    + destruct (seen st !! u) as [su|]; [|discriminate].
      destruct (nltb _ su); [discriminate|]. intros [= <-]. exact Hst.
Qed.

Lemma heappop_In {A : Type} (lt : A -> A -> bool) (h : list A) (x : A) (rest : list A) :
  heappop lt h = Some (x, rest) -> In x h /\ (forall y, In y rest -> In y h).
Proof.
  destruct h as [|a l]; simpl; [discriminate|]. intros [= H].
  pose proof (pop_min_In lt a l) as H1.
  pose proof (pop_min_rest_In lt a l) as H2.
  rewrite H in H1, H2. simpl in *. auto.
Qed.

Lemma path_ok_dist_mono (st st' : dijkstra_state) (u : string) (p : list string) :
  (forall x, is_Some (dist st !! x) -> is_Some (dist st' !! x)) ->
  path_ok st u p -> path_ok st' u p.
Proof.
  intros Hd (Hw & Hh & Hl & Hnd & Hin). repeat split; auto.
Qed.

Lemma step_sound (st st' : dijkstra_state) :
  sound_inv st -> dijkstra_step G w target st = Continue st' -> sound_inv st'.
Proof.
  intros [Hp Hf]. unfold dijkstra_step.
  destruct (heappop fringe_lt (fringe st)) as [[[[d c] v] rest]|] eqn:Hpop; [|discriminate].
  destruct (heappop_In _ _ _ _ Hpop) as [Hv Hrest].
  destruct (dist st !! v) eqn:Hdv.
  - intros [= <-]. split; simpl; auto. intros; eapply Hf; eauto.
  - destruct (decide (v = target)); [discriminate|].
    destruct (for_each _ _ _) as [st2|] eqn:Hrun; [|discriminate].
    intros [= <-].
    eapply (for_each_inv _ (fun s => sound_inv s /\ is_Some (dist s !! v))) in Hrun.
    + apply Hrun.
    + intros s x s' Hx HJ Hb. eapply relax_sound; eauto.
    + simpl. split; [|rewrite lookup_insert_eq; eauto]. split; simpl.
      * intros u p Hu. eapply path_ok_dist_mono; [|apply Hp; exact Hu].
        simpl. intros x Hx. rewrite lookup_insert_is_Some. destruct (decide (v = x)); auto.
      * intros; eapply Hf; eauto.
Qed.

Lemma stop_sound (st st' : dijkstra_state) :
  sound_inv st -> dijkstra_step G w target st = Stop (Return st') ->
  forall u p, paths st' !! u = Some p -> path_ok st' u p.
Proof.
  intros [Hp Hf]. unfold dijkstra_step.
  destruct (heappop fringe_lt (fringe st)) as [[[[d c] v] rest]|] eqn:Hpop.
  - destruct (dist st !! v) eqn:Hdv; [discriminate|].
    destruct (decide (v = target)).
    + intros [= <-]. simpl. intros u p Hu.
      eapply path_ok_dist_mono; [|apply Hp; exact Hu].
      simpl. intros x Hx. rewrite lookup_insert_is_Some. destruct (decide (v = x)); auto.
    + destruct (for_each _ _ _); discriminate.
  - intros [= <-]. exact Hp.
Qed.

Lemma single_source_dijkstra_sound (d : num) (p : list string) :
  single_source_dijkstra G w source target = Return (d, p) ->
  walk_from_to G source target p /\ NoDup p.
Proof.
  unfold single_source_dijkstra.
  destruct (negb (has_node G source)); [discriminate|].
  destruct (decide (target = source)) as [->|Hne].
  - intros [= <- <-]. repeat split; simpl; auto.
    apply NoDup_singleton.
  - set (st0 := mk_dijkstra_state _ _ _ _ _).
    assert (sound_inv st0) as H0.
    { split; simpl.
      - intros u p'. rewrite lookup_singleton_Some. intros [<- <-].
        repeat split; simpl; auto.
        + apply NoDup_singleton.
        + intros x [<-|[]]. congruence.
      - intros d' c' u [[= <- <- <-]|[]]. rewrite lookup_singleton_eq. eauto. }
    destruct (dijkstra_loop_inv sound_inv G w target step_sound
                (S (S (edge_count G))) st0 H0) as [E|(st' & HI & Hs)].
    + rewrite E. discriminate.
    + destruct (dijkstra_loop _ _ _ _ _) as [st2|e]; simpl; [|discriminate].
      destruct (dist st2 !! target) as [dt|]; [|discriminate].
      destruct (paths st2 !! target) as [pt|] eqn:Hpt; [|discriminate].
      intros [= <- <-].
      destruct (stop_sound st' st2 HI Hs target pt Hpt) as (Hw & Hh & Hl & Hnd & _).
      repeat split; auto.
Qed.

End DijkstraSound.

(** ** The order on costs *)

Ltac num_cases :=
  repeat match goal with
    | a : num |- _ => destruct a
    end;
  simpl in *; try tauto; try discriminate; try congruence.

Ltac num_solve :=
  num_cases;
  unfold nleb, nltb, neqb, Qltb, Qeqb in *; simpl in *;
  repeat match goal with
    | H : context [Qcompare ?x ?y] |- _ =>
        let E := fresh "E" in
        destruct (Qcompare x y) eqn:E;
        [apply Qeq_alt in E | apply Qlt_alt in E | apply Qgt_alt in E]
    | |- context [Qcompare ?x ?y] =>
        let E := fresh "E" in
        destruct (Qcompare x y) eqn:E;
        [apply Qeq_alt in E | apply Qlt_alt in E | apply Qgt_alt in E]
    end;
  simpl in *; try tauto; try discriminate; try congruence; try lra.

Lemma nonnegb_nonneg (a : num) : nonnegb a = true <-> nonneg a.
Proof. destruct a; simpl; try (split; [discriminate|tauto]); try tauto. apply Qle_bool_iff. Qed.

Lemma nle_refl (a : num) : nonneg a -> nle a a.
Proof. num_solve. Qed.

Lemma nle_trans (a b c : num) : nle a b -> nle b c -> nle a c.
Proof. num_solve. Qed.

Lemma nadd_nonneg (a b : num) : nonneg a -> nonneg b -> nonneg (nadd a b).
Proof. num_solve. Qed.

Lemma nle_nadd_r (a b : num) : nonneg a -> nonneg b -> nle a (nadd a b).
Proof. num_solve. Qed.

Lemma nadd_mono_l (a a' b : num) :
  nonneg a -> nonneg a' -> nonneg b -> nle a a' -> nle (nadd a b) (nadd a' b).
Proof. num_solve. Qed.

Lemma nltb_false_nle (a b : num) : nonneg a -> nonneg b -> nltb a b = false -> nle b a.
Proof. num_solve. Qed.

Lemma nle_nltb_false (a b : num) : nle b a -> nltb a b = false.
Proof. num_solve. Qed.

Lemma nltb_true_nle (a b : num) : nltb a b = true -> nle a b.
Proof. num_solve. Qed.

Lemma neqb_true_nle (a b : num) : neqb a b = true -> nle a b /\ nle b a.
Proof. num_solve. Qed.

Lemma nle_antisym_eq (a b : num) : nle a b -> nle b a -> num_eq a b.
Proof. num_solve. Qed.

Lemma num_eq_nle (a b : num) : nonneg a -> num_eq a b -> nle a b.
Proof. num_solve. Qed.

Lemma nonneg_num_eq (a b : num) : nonneg a -> num_eq a b -> nonneg b.
Proof. num_solve. Qed.

(** On entries with ordered keys [fringe_lt] is a strict weak order. *)
Definition key_ok (e : num * nat * string) : Prop := nonneg e.1.1.

Lemma fringe_lt_asym (a b : num * nat * string) :
  key_ok a -> key_ok b -> fringe_lt a b = true -> fringe_lt b a = false.
Proof.
  destruct a as [[d1 c1] v1], b as [[d2 c2] v2]. unfold key_ok, fringe_lt. simpl.
  intros H1 H2.
  destruct (neqb d1 d2) eqn:E1, (neqb d2 d1) eqn:E2;
    try (intros H; apply Nat.ltb_lt in H; apply Nat.ltb_ge; lia);
    revert E1 E2; num_solve.
Qed.

Lemma fringe_lt_negtrans (a b c : num * nat * string) :
  key_ok a -> key_ok b -> key_ok c ->
  fringe_lt a b = false -> fringe_lt b c = false -> fringe_lt a c = false.
Proof.
  destruct a as [[d1 c1] v1], b as [[d2 c2] v2], c as [[d3 c3] v3].
  unfold key_ok, fringe_lt. simpl. intros H1 H2 H3.
  destruct (neqb d1 d2) eqn:E1, (neqb d2 d3) eqn:E2, (neqb d1 d3) eqn:E3;
    try (intros Ha Hb; apply Nat.ltb_ge in Ha; apply Nat.ltb_ge in Hb;
         apply Nat.ltb_ge; lia);
    revert E1 E2 E3; num_solve.
Qed.

Lemma fringe_pop_least (h : list (num * nat * string)) (d : num) (c : nat)
    (v : string) (rest : list (num * nat * string)) :
  (forall e, In e h -> key_ok e) ->
  heappop fringe_lt h = Some ((d, c, v), rest) ->
  forall e, In e h -> fringe_lt e (d, c, v) = false.
Proof.
  intros Hok Hpop e He. destruct h as [|x l]; [discriminate|].
  simpl in Hpop. injection Hpop as Hpop.
  pose proof (pop_min_least fringe_lt key_ok fringe_lt_asym fringe_lt_negtrans x l) as H.
  rewrite Hpop in H. simpl in H. apply H; [|exact He].
  apply Forall_forall. intros y Hy. apply Hok. apply list_elem_of_In. exact Hy.
Qed.

Lemma fringe_lt_false_nle (d' d : num) (c' c : nat) (v' v : string) :
  nonneg d' -> nonneg d -> fringe_lt (d', c', v') (d, c, v) = false -> nle d d'.
Proof.
  unfold fringe_lt. intros H1 H2. destruct (neqb d' d) eqn:E.
  - intros _. apply neqb_true_nle in E. tauto.
  - apply nltb_false_nle; assumption.
Qed.

(** ** The iteration bound of [dijkstra_loop] is never reached *)

Fixpoint pending (G : DiGraph) (D : gmap string num) : nat :=
  match G with
  | [] => 0
  | (k, e) :: G' =>
      (match D !! k with Some _ => 0 | None => length (succs e) end + pending G' D)%nat
  end.

Lemma pending_empty (G : DiGraph) : pending G ∅ = edge_count G.
Proof.
  induction G as [|[k e] G IH]; simpl; [reflexivity|].
  rewrite lookup_empty, IH. reflexivity.
Qed.

Lemma pending_mono (G : DiGraph) (D : gmap string num) (v : string) (d : num) :
  (pending G (<[v := d]> D) <= pending G D)%nat.
Proof.
  induction G as [|[k e] G IH]; simpl; [lia|].
  destruct (decide (v = k)) as [->|Hne].
  - rewrite lookup_insert_eq. lia.
  - rewrite lookup_insert_ne by exact Hne. lia.
Qed.

Lemma pending_insert (G : DiGraph) (D : gmap string num) (v : string) (d : num) :
  D !! v = None ->
  (pending G (<[v := d]> D) + length (G_succ G v) <= pending G D)%nat.
Proof.
  intros Hv. induction G as [|[k e] G IH]; simpl; [unfold G_succ; simpl; lia|].
  unfold G_succ in *. simpl. destruct (decide (v = k)) as [->|Hne].
  - rewrite lookup_insert_eq, Hv.
    pose proof (pending_mono G D k d) as Hm. simpl. lia.
  - rewrite lookup_insert_ne by exact Hne. lia.
Qed.

Lemma relax_shape (w : string -> string -> edge_data -> num) (v : string) (d : num)
    (st : dijkstra_state) (ue : string * edge_data) :
  match relax w v d st ue with
  | Return st' =>
      dist st' = dist st /\ (length (fringe st') <= S (length (fringe st)))%nat
  | Raise e => e = ValueError \/ e = KeyError
  end.
Proof.
  destruct ue as [u e]. unfold relax.
  destruct (dist st !! u).
  - destruct (nltb _ _); auto.
  - destruct (seen st !! u) as [su|]; [destruct (nltb _ su)|];
      destruct (paths st !! v); simpl; auto; unfold heappush; rewrite ?length_app;
      simpl; split; auto; lia.
Qed.

Lemma for_each_relax_shape (w : string -> string -> edge_data -> num) (v : string)
    (d : num) (l : list (string * edge_data)) (st : dijkstra_state) :
  match for_each (relax w v d) l st with
  | Return st' =>
      dist st' = dist st /\
      (length (fringe st') <= length l + length (fringe st))%nat
  | Raise e => e = ValueError \/ e = KeyError
  end.
Proof.
  revert st. induction l as [|x l IH]; intros st; simpl; [split; auto; lia|].
  pose proof (relax_shape w v d st x) as Hx.
  destruct (relax w v d st x) as [s1|e]; simpl; [|exact Hx].
  specialize (IH s1). destruct (for_each _ l s1); [|exact IH].
  destruct Hx as [Hx1 Hx2], IH as [IH1 IH2]. split; [congruence|lia].
Qed.

Definition dijkstra_measure (G : DiGraph) (st : dijkstra_state) : nat :=
  (length (fringe st) + pending G (dist st))%nat.

Lemma heappop_length {A : Type} (lt : A -> A -> bool) (h : list A) (x : A)
    (rest : list A) :
  heappop lt h = Some (x, rest) -> length h = S (length rest).
Proof.
  destruct h as [|a l]; simpl; [discriminate|]. intros [= H].
  pose proof (pop_min_length lt a l) as Hl. rewrite H in Hl. simpl in Hl. lia.
Qed.

Lemma dijkstra_step_measure (G : DiGraph) (w : string -> string -> edge_data -> num)
    (t : string) (st : dijkstra_state) :
  match dijkstra_step G w t st with
  | Continue st' => (dijkstra_measure G st' < dijkstra_measure G st)%nat
  | Stop r => r <> Raise FuelExhausted
  end.
Proof.
  unfold dijkstra_step, dijkstra_measure.
  destruct (heappop fringe_lt (fringe st)) as [[[[d c] v] rest]|] eqn:Hpop; [|discriminate].
  apply heappop_length in Hpop.
  destruct (dist st !! v) eqn:Hv; simpl; [lia|].
  destruct (decide (v = t)); [discriminate|].
  match goal with |- context [for_each ?b ?l ?s] =>
    pose proof (for_each_relax_shape w v d l s) as Hr;
    destruct (for_each b l s) as [st'|e] end.
  - simpl in Hr. destruct Hr as [Hr1 Hr2]. rewrite Hr1.
    pose proof (pending_insert G (dist st) v d Hv). lia.
  - destruct Hr as [->| ->]; discriminate.
Qed.

Lemma dijkstra_loop_fuel (G : DiGraph) (w : string -> string -> edge_data -> num)
    (t : string) (fuel : nat) (st : dijkstra_state) :
  (dijkstra_measure G st < fuel)%nat ->
  dijkstra_loop G w t fuel st <> Raise FuelExhausted.
Proof.
  revert st. induction fuel as [|fuel IH]; intros st Hm; [lia|].
  rewrite dijkstra_loop_unfold.
  pose proof (dijkstra_step_measure G w t st) as Hs.
  destruct (dijkstra_step G w t st) as [st'|r]; [|exact Hs].
  apply IH. lia.
Qed.


(** ** Completeness of [dijkstra_path] for non-negative weights *)

Lemma for_each_total {A S : Type} (body : S -> A -> result S)
    (J : list A -> S -> Prop) (l : list A) :
  (forall pre x s, J pre s -> In x l ->
     exists s', body s x = Return s' /\ J (pre ++ [x]) s') ->
  forall pre s, J pre s ->
    exists s', for_each body l s = Return s' /\ J (pre ++ l) s'.
Proof.
  induction l as [|x l IH]; intros Hbody pre s HJ; simpl.
  - exists s. rewrite app_nil_r. auto.
  - destruct (Hbody pre x s HJ (or_introl eq_refl)) as (s1 & E & HJ1).
    rewrite E. simpl.
    destruct (IH (fun pre x s H Hin => Hbody pre x s H (or_intror Hin)) _ _ HJ1)
      as (s' & E' & HJ').
    exists s'. split; [exact E'|]. rewrite <- app_assoc in HJ'. exact HJ'.
Qed.

Section DijkstraComplete.
Variable G : DiGraph.
Variable w : string -> string -> edge_data -> num.
Variables source target : string.
Hypothesis w_nonneg : forall v u e, In (u, e) (G_succ G v) -> nonneg (w v u e).

Record nn_inv (st : dijkstra_state) : Prop := {
  nn_key : forall d c u, In (d, c, u) (fringe st) -> nonneg d;
  nn_dist : forall v dv, dist st !! v = Some dv ->
            nonneg dv /\ forall d c u, In (d, c, u) (fringe st) -> nle dv d;
  nn_target : dist st !! target = None;
  nn_succ : forall v, is_Some (dist st !! v) ->
            forall u e, In (u, e) (G_succ G v) -> is_Some (seen st !! u);
  nn_seen : forall u, is_Some (seen st !! u) ->
            is_Some (dist st !! u) \/ exists d c, In (d, c, u) (fringe st);
  nn_source : is_Some (seen st !! source);
  nn_paths_f : forall d c u, In (d, c, u) (fringe st) -> is_Some (paths st !! u);
  nn_paths_d : forall v, is_Some (dist st !! v) -> is_Some (paths st !! v);
  nn_fseen : forall d c u, In (d, c, u) (fringe st) -> is_Some (seen st !! u);
  nn_dseen : forall v, is_Some (dist st !! v) -> is_Some (seen st !! v)
}.

(** the state while the successors of the node [v], settled at [d], are
    relaxed; [pre] are the successors done *)
Record nn_mid (v : string) (d : num) (pre : list (string * edge_data))
    (st : dijkstra_state) : Prop := {
  m_key : forall d' c u, In (d', c, u) (fringe st) -> nonneg d';
  m_dist : forall x dx, dist st !! x = Some dx ->
           nonneg dx /\ forall d' c u, In (d', c, u) (fringe st) -> nle dx d';
  m_d : nonneg d;
  m_le : forall x dx, dist st !! x = Some dx -> nle dx d;
  m_v : dist st !! v = Some d;
  m_target : dist st !! target = None;
  m_succ : forall x, x <> v -> is_Some (dist st !! x) ->
           forall u e, In (u, e) (G_succ G x) -> is_Some (seen st !! u);
  m_pre : forall u e, In (u, e) pre -> is_Some (seen st !! u);
  m_seen : forall u, is_Some (seen st !! u) ->
           is_Some (dist st !! u) \/ exists d' c, In (d', c, u) (fringe st);
  m_source : is_Some (seen st !! source);
  m_paths_f : forall d' c u, In (d', c, u) (fringe st) -> is_Some (paths st !! u);
  m_paths_d : forall x, is_Some (dist st !! x) -> is_Some (paths st !! x);
  m_fseen : forall d' c u, In (d', c, u) (fringe st) -> is_Some (seen st !! u);
  m_dseen : forall x, is_Some (dist st !! x) -> is_Some (seen st !! x)
}.

Lemma relax_nn (v : string) (d : num) (pre : list (string * edge_data))
    (st : dijkstra_state) (ue : string * edge_data) :
  nn_mid v d pre st -> In ue (G_succ G v) ->
  exists st', relax w v d st ue = Return st' /\ nn_mid v d (pre ++ [ue]) st'.
Proof.
  destruct ue as [u e]. intros M Hin.
  pose proof (w_nonneg v u e Hin) as Hw.
  pose proof (m_d _ _ _ _ M) as Hd.
  assert (nonneg (nadd d (w v u e))) as Hvu by (apply nadd_nonneg; assumption).
  assert (nle d (nadd d (w v u e))) as Hdvu by (apply nle_nadd_r; assumption).
  (* the state is kept *)
  assert (is_Some (seen st !! u) -> nn_mid v d (pre ++ [(u, e)]) st) as Hkeep.
  { intros Hs. destruct M. constructor; auto.
    intros u' e'. rewrite in_app_iff. simpl. intros [H|[[= <- <-]|[]]]; eauto. }
  (* the entry is pushed *)
  assert (forall pv, dist st !! u = None -> paths st !! v = Some pv ->
    nn_mid v d (pre ++ [(u, e)])
      (mk_dijkstra_state (dist st) (<[u := nadd d (w v u e)]> (seen st))
         (<[u := pv ++ [u]]> (paths st))
         (heappush (fringe st) (nadd d (w v u e), count st, u))
         (S (count st)))) as Hpush.
  { intros pv Hu Hpv. destruct M. constructor; simpl; auto.
    - intros d' c x. unfold heappush. rewrite in_app_iff. simpl.
      intros [H|[[= <- <- <-]|[]]]; eauto.
    - intros x dx Hx. destruct (m_dist0 x dx Hx) as [Hnn Hle]. split; [exact Hnn|].
      intros d' c y. unfold heappush. rewrite in_app_iff. simpl.
      intros [H|[[= <- <- <-]|[]]]; eauto.
      eapply nle_trans; [apply (m_le0 x dx Hx)|exact Hdvu].
    - intros x Hx Hdx u' e' Hin'. rewrite lookup_insert_is_Some.
      destruct (decide (u = u')); [auto|right; split; eauto].
    - intros u' e'. rewrite in_app_iff. simpl. rewrite lookup_insert_is_Some.
      intros [H|[[= <- <-]|[]]]; [|auto].
      destruct (decide (u = u')); [auto|right; split; eauto].
    - intros x. rewrite lookup_insert_is_Some. unfold heappush.
      intros [<-|[Hne Hs]].
      + right. exists (nadd d (w v u e)), (count st). apply in_app_iff. simpl. auto.
      + destruct (m_seen0 x Hs) as [H|(d' & c & H)]; [auto|].
        right. exists d', c. apply in_app_iff. auto.
    - rewrite lookup_insert_is_Some. destruct (decide (u = source)); auto.
    - intros d' c x. unfold heappush. rewrite in_app_iff. simpl.
      rewrite lookup_insert_is_Some.
      intros [H|[[= <- <- <-]|[]]]; [|auto].
      destruct (decide (u = x)); [auto|right; split; eauto].
    - intros x Hx. rewrite lookup_insert_is_Some.
      destruct (decide (u = x)); [auto|right; split; eauto].
    - intros d' c x. unfold heappush. rewrite in_app_iff. simpl.
      rewrite lookup_insert_is_Some.
      intros [H|[[= <- <- <-]|[]]]; [|auto].
      destruct (decide (u = x)); [auto|right; split; eauto].
    - intros x Hx. rewrite lookup_insert_is_Some.
      destruct (decide (u = x)); [auto|right; split; eauto]. }
  assert (is_Some (paths st !! v)) as [pv Hpv].
  { apply (m_paths_d _ _ _ _ M). rewrite (m_v _ _ _ _ M). eauto. }
  unfold relax. rewrite Hpv.
  destruct (dist st !! u) as [du|] eqn:Hu.
  - assert (nltb (nadd d (w v u e)) du = false) as ->.
    { apply nle_nltb_false. eapply nle_trans; [|exact Hdvu].
      apply (m_le _ _ _ _ M u du Hu). }
    exists st. split; [reflexivity|]. apply Hkeep.
    apply (m_dseen _ _ _ _ M). rewrite Hu. eauto.
  - destruct (seen st !! u) as [su|] eqn:Hs.
    + destruct (nltb _ su).
      * eexists. split; [reflexivity|]. apply Hpush; auto.
      * exists st. split; [reflexivity|]. apply Hkeep. eauto.
    + eexists. split; [reflexivity|]. apply Hpush; auto.
Qed.


Lemma heappop_In_inv {A : Type} (lt : A -> A -> bool) (h : list A) (x : A)
    (rest : list A) :
  heappop lt h = Some (x, rest) -> forall y, In y h -> y = x \/ In y rest.
Proof.
  destruct h as [|a l]; simpl; [discriminate|]. intros [= H] y Hy.
  pose proof (pop_min_In_inv lt a l y Hy) as H1. rewrite H in H1. exact H1.
Qed.

Lemma nn_mid_start (st : dijkstra_state) (d : num) (c : nat) (v : string)
    (rest : list (num * nat * string)) :
  nn_inv st ->
  heappop fringe_lt (fringe st) = Some ((d, c, v), rest) ->
  dist st !! v = None -> v <> target ->
  nn_mid v d []
    (mk_dijkstra_state (<[v := d]> (dist st)) (seen st) (paths st) rest (count st)).
Proof.
  intros I Hpop Hv Hvt.
  destruct (heappop_In _ _ _ _ Hpop) as [Hin Hrest].
  pose proof (heappop_In_inv _ _ _ _ Hpop) as Hinv.
  assert (forall e, In e (fringe st) -> key_ok e) as Hok.
  { intros [[d' c'] u'] He. apply (nn_key _ I d' c' u' He). }
  pose proof (fringe_pop_least _ _ _ _ _ Hok Hpop) as Hleast.
  assert (nonneg d) as Hd by apply (nn_key _ I d c v Hin).
  assert (forall d' c' u', In (d', c', u') (fringe st) -> nle d d') as Hmin.
  { intros d' c' u' He. eapply fringe_lt_false_nle; [| |apply (Hleast _ He)]; auto.
    apply (nn_key _ I d' c' u' He). }
  destruct I. constructor; simpl; eauto.
  - intros x dx. rewrite lookup_insert_Some. intros [[<- <-]|[Hne Hx]].
    + split; [exact Hd|]. eauto.
    + destruct (nn_dist0 x dx Hx) as [H1 H2]. split; eauto.
  - intros x dx. rewrite lookup_insert_Some. intros [[<- <-]|[Hne Hx]].
    + apply nle_refl. exact Hd.
    + destruct (nn_dist0 x dx Hx) as [H1 H2]. eauto.
  - apply lookup_insert_eq.
  - rewrite lookup_insert_ne; auto.
  - intros x Hx. rewrite lookup_insert_is_Some. intros [?|[_ H]]; [congruence|]. eauto.
  - intros u e [].
  - intros u Hu. rewrite lookup_insert_is_Some.
    destruct (nn_seen0 u Hu) as [H|(d' & c' & H)].
    + destruct (decide (v = u)); auto.
    + destruct (Hinv _ H) as [[= -> -> ->]|H']; [auto|]. right. eauto.
  - intros x. rewrite lookup_insert_is_Some. intros [<-|[_ H]]; eauto.
  - intros x. rewrite lookup_insert_is_Some. intros [<-|[_ H]]; eauto.
Qed.

Lemma nn_mid_end (st : dijkstra_state) (d : num) (v : string) :
  nn_mid v d (G_succ G v) st -> nn_inv st.
Proof.
  intros M. destruct M. constructor; eauto.
  intros x Hx u e Hin. destruct (decide (x = v)) as [->|Hne]; eauto.
Qed.

Lemma step_nn (st : dijkstra_state) :
  nn_inv st ->
  match dijkstra_step G w target st with
  | Continue st' => nn_inv st'
  | Stop (Return st') =>
      (fringe st = [] /\ st' = st) \/
      (is_Some (dist st' !! target) /\ is_Some (paths st' !! target))
  | Stop (Raise _) => False
  end.
Proof.
  intros I. unfold dijkstra_step.
  destruct (heappop fringe_lt (fringe st)) as [[[[d c] v] rest]|] eqn:Hpop.
  2:{ left. destruct (fringe st); [auto|discriminate]. }
  destruct (heappop_In _ _ _ _ Hpop) as [Hin Hrest].
  pose proof (heappop_In_inv _ _ _ _ Hpop) as Hinv.
  destruct (dist st !! v) as [dv|] eqn:Hv.
  - destruct I. constructor; simpl; eauto.
    + intros x dx Hx. destruct (nn_dist0 x dx Hx). split; eauto.
    + intros u Hu. destruct (nn_seen0 u Hu) as [H|(d' & c' & H)]; [auto|].
      destruct (Hinv _ H) as [[= -> -> ->]|H']; [left; rewrite Hv; eauto|]. right. eauto.
  - destruct (decide (v = target)) as [->|Hvt].
    + right. simpl. rewrite lookup_insert_eq. split; [eauto|].
      apply (nn_paths_f _ I d c target Hin).
    + pose proof (nn_mid_start st d c v rest I Hpop Hv Hvt) as M.
      destruct (for_each_total (relax w v d) (nn_mid v d) (G_succ G v)
                  (fun pre x s HJ Hx => relax_nn v d pre s x HJ Hx) [] _ M)
        as (s' & E & M').
      rewrite E. simpl in M'. apply (nn_mid_end _ _ _ M').
Qed.

Lemma closed_walk (D : string -> Prop) (p : list string) :
  (forall v, D v -> forall u e, In (u, e) (G_succ G v) -> D u) ->
  is_walk G p -> (forall s, head p = Some s -> D s) -> forall x, In x p -> D x.
Proof.
  intros Hcl. induction p as [|a [|b p] IH]; simpl; intros Hw Hh x Hx.
  - destruct Hx.
  - destruct Hx as [<-|[]]. auto.
  - destruct Hw as [[e He] Hw].
    destruct Hx as [<-|Hx]; [auto|].
    apply IH; auto. intros s [= <-].
    eapply Hcl; [apply (Hh a eq_refl)|]. apply assoc_Some_In. exact He.
Qed.

Lemma last_In {A : Type} (p : list A) (x : A) : last p = Some x -> In x p.
Proof.
  intros H. apply list_elem_of_In. apply last_Some_elem_of. exact H.
Qed.

Definition dijkstra_init (source : string) : dijkstra_state :=
  mk_dijkstra_state ∅ {[ source := Fin 0 ]} {[ source := [source] ]}
    [(Fin 0, 0%nat, source)] 1%nat.

Lemma nn_inv_init : nn_inv (dijkstra_init source).
Proof.
  constructor; unfold dijkstra_init; simpl.
  - intros d c u [[= <- <- <-]|[]]. simpl. lra.
  - intros v dv. rewrite lookup_empty. discriminate.
  - apply lookup_empty.
  - intros v. rewrite lookup_empty. intros [? ?]. discriminate.
  - intros u. rewrite lookup_singleton_is_Some. intros <-. right. eauto.
  - rewrite lookup_singleton_eq. eauto.
  - intros d c u [[= <- <- <-]|[]]. rewrite lookup_singleton_eq. eauto.
  - intros v. rewrite lookup_empty. intros [? ?]. discriminate.
  - intros d c u [[= <- <- <-]|[]]. rewrite lookup_singleton_eq. eauto.
  - intros v. rewrite lookup_empty. intros [? ?]. discriminate.
Qed.

(** With non-negative weights the search never raises, and it reaches every
    target that a walk reaches. *)
Lemma single_source_dijkstra_complete :
  has_node G source = true -> reachable G source target ->
  exists d p, single_source_dijkstra G w source target = Return (d, p).
Proof.
  intros Hs (q & Hw & Hh & Hl). unfold single_source_dijkstra.
  rewrite Hs. cbn [negb].
  destruct (decide (target = source)) as [->|Hne]; [eauto|].
  change (mk_dijkstra_state _ _ _ _ _) with (dijkstra_init source).
  set (st0 := dijkstra_init source).
  pose proof nn_inv_init as H0.
  assert (forall st st', nn_inv st -> dijkstra_step G w target st = Continue st' ->
                         nn_inv st') as Hstep.
  { intros st st' I E. pose proof (step_nn st I) as H. rewrite E in H. exact H. }
  destruct (dijkstra_loop_inv nn_inv G w target Hstep (S (S (edge_count G))) st0 H0)
    as [E|(st' & I & E)].
  { exfalso. revert E. apply dijkstra_loop_fuel.
    unfold dijkstra_measure, st0, dijkstra_init. simpl. rewrite pending_empty. lia. }
  pose proof (step_nn st' I) as H. rewrite E in H.
  destruct (dijkstra_loop _ _ _ _ _) as [st2|e]; simpl in H; [|destruct H]. simpl.
  destruct H as [[Hempty ->]|[[d Hd] [p Hp]]].
  - exfalso.
    assert (forall x, In x q -> is_Some (dist st' !! x)) as Hall.
    { apply (closed_walk (fun x => is_Some (dist st' !! x))); auto.
      - intros v Hv u e Hin.
        destruct (nn_seen _ I u (nn_succ _ I v Hv u e Hin)) as [H|(d & c & H)]; [auto|].
        rewrite Hempty in H. destruct H.
      - intros s. rewrite Hh. intros [= <-].
        destruct (nn_seen _ I source (nn_source _ I)) as [H|(d & c & H)]; [auto|].
        rewrite Hempty in H. destruct H. }
    specialize (Hall target (last_In _ _ Hl)). rewrite (nn_target _ I) in Hall.
    destruct Hall; discriminate.
  - rewrite Hd, Hp. eauto.
Qed.

End DijkstraComplete.

(** ** [dijkstra_time_dependent] (C1, C5) *)

Lemma path_length_spec (G : DiGraph) (w : string -> string -> edge_data -> num)
    (p : list string) (a : num) :
  path_length G w p a =
  match edge_weights G w p with
  | Some ws => Return (foldl nadd a ws)
  | None => Raise KeyError
  end.
Proof.
  revert a. induction p as [|u p IH]; intros a; [reflexivity|].
  destruct p as [|v p]; [reflexivity|].
  change (path_length G w (u :: v :: p) a) with
    (match get_edge_data G u v with
     | Some e => path_length G w (v :: p) (nadd a (w u v e))
     | None => Raise KeyError
     end).
  change (edge_weights G w (u :: v :: p)) with
    (match get_edge_data G u v, edge_weights G w (v :: p) with
     | Some e, Some ws => Some (w u v e :: ws)
     | _, _ => None
     end).
  destruct (get_edge_data G u v) as [e|]; [|reflexivity].
  rewrite IH. destruct (edge_weights G w (v :: p)); reflexivity.
Qed.

Lemma is_walk_edge_weights (G : DiGraph) (w : string -> string -> edge_data -> num)
    (p : list string) :
  is_walk G p <-> is_Some (edge_weights G w p).
Proof.
  induction p as [|u p IH]; [simpl; split; eauto|].
  destruct p as [|v p]; [simpl; split; eauto|].
  change (is_walk G (u :: v :: p)) with
    (is_Some (get_edge_data G u v) /\ is_walk G (v :: p)).
  change (edge_weights G w (u :: v :: p)) with
    (match get_edge_data G u v, edge_weights G w (v :: p) with
     | Some e, Some ws => Some (w u v e :: ws)
     | _, _ => None
     end).
  destruct (get_edge_data G u v) as [e|].
  - rewrite IH. destruct (edge_weights G w (v :: p)); split.
    + eauto.
    + intros _. split; eauto.
    + intros [_ [? ?]]. discriminate.
    + intros [? ?]. discriminate.
  - split; [intros [[? ?] _]|intros [? ?]]; discriminate.
Qed.

Lemma road_network_ok_edge (weight_key : string) (G : DiGraph) (v u : string)
    (e : edge_data) :
  road_network_ok weight_key G = true -> In (u, e) (G_succ G v) ->
  edge_ok weight_key e = true.
Proof.
  unfold road_network_ok, G_succ. intros Hok Hin.
  destruct (assoc v G) as [ent|] eqn:E; [|destruct Hin].
  apply assoc_Some_In in E.
  rewrite forallb_forall in Hok. specialize (Hok _ E). simpl in Hok.
  rewrite forallb_forall in Hok. apply (Hok _ Hin).
Qed.

Lemma count_ok_spec (data : edge_data) (attr : string) :
  count_ok data attr = true ->
  data !! attr = None \/ exists q, data !! attr = Some (Fin q) /\ (0 <= q)%Q.
Proof.
  unfold count_ok. destruct (data !! attr) as [[q| | |]|]; try discriminate; auto.
  intros H. right. exists q. split; [reflexivity|]. apply Qle_bool_iff. exact H.
Qed.

Lemma traffic_col_map_cases (label attr : string) :
  traffic_col_map label = Some attr ->
  attr = "morning_peak_veh_h" \/ attr = "afternoon_veh_h" \/
  attr = "evening_peak_veh_h" \/ attr = "night_veh_h".
Proof.
  unfold traffic_col_map. repeat case_decide; intros [= <-]; auto.
Qed.

Lemma traffic_bucket_Some (td : bool) (tod : option string) (data : edge_data)
    (x : num) :
  traffic_bucket td tod data = Some x ->
  td = true /\ exists label attr,
    tod = Some label /\ traffic_col_map label = Some attr /\ data !! attr = Some x.
Proof.
  unfold traffic_bucket. destruct td; simpl; [|discriminate].
  destruct tod as [label|]; simpl; [|discriminate].
  destruct (negb (String.eqb label "")); [|discriminate].
  destruct (traffic_col_map label) as [attr|] eqn:E; [|discriminate].
  intros H. split; [reflexivity|]. exists label, attr. auto.
Qed.

(** On an edge of the data model the effective weight is a cost. *)
Lemma get_edge_weight_nonneg (weight_key : string) (td : bool) (tod : option string)
    (u v : string) (data : edge_data) :
  edge_ok weight_key data = true ->
  nonneg (get_edge_weight weight_key td tod u v data).
Proof.
  unfold edge_ok. rewrite !andb_true_iff.
  intros [[[[[Hb Hc] H1] H2] H3] H4]. apply nonnegb_nonneg in Hb.
  unfold get_edge_weight.
  destruct (traffic_bucket td tod data) as [x|] eqn:E; [|exact Hb].
  apply traffic_bucket_Some in E. destruct E as (_ & label & attr & _ & Hl & Hx).
  assert (count_ok data attr = true) as Hattr.
  { destruct (traffic_col_map_cases _ _ Hl) as [->|[->|[->| ->]]]; assumption. }
  destruct (count_ok_spec _ _ Hattr) as [Hn|(vol & Hv & Hvol)]; [congruence|].
  rewrite Hx in Hv. injection Hv as ->.
  assert (capacity_ok data) as Hcap.
  { unfold capacity_ok. destruct (count_ok_spec _ _ Hc) as [->|(c & -> & Hc')]; auto. }
  destruct (edge_capacity_pos data Hcap) as (c & Hcv & Hpos).
  unfold congestion_factor. rewrite Hcv. simpl ndiv. simpl nadd.
  assert (0 <= vol / c)%Q as Hdiv.
  { pose proof (Qdiv_le_mono 0 vol c Hpos Hvol) as H.
    assert (0 / c == 0)%Q as E0 by (field; lra). lra. }
  unfold nmin. simpl. destruct (Qltb 5 (1 + vol / c)) eqn:E5.
  - destruct (default PInf (data !! weight_key)); simpl in *; try tauto.
    apply Qmult_le_0_compat; lra.
  - destruct (default PInf (data !! weight_key)) as [b| | |]; simpl in *; try tauto.
    + apply Qmult_le_0_compat; lra.
    + unfold inf_times. assert (Qltb 0 (1 + vol / c) = true) as ->; [|exact I].
      apply Qltb_lt. lra.
Qed.

(** C1. On a road network of the data model (base metric, capacity and traffic
    volumes non-negative), for every pair of nodes joined by a walk,
    [dijkstra_time_dependent] returns a path that starts at the source, ends
    at the target, repeats no node and follows edges of the graph, with a
    total cost equal to the sum of the effective weights [get_edge_weight] of
    its edges. *)
Theorem dijkstra_time_dependent_path (G : DiGraph) (source target weight_key : string)
    (time_dependent : bool) (time_of_day : option string) :
  road_network_ok weight_key G = true ->
  has_node G source = true -> has_node G target = true ->
  reachable G source target ->
  exists path ws,
    dijkstra_time_dependent G source target weight_key time_dependent time_of_day
      = Route path (sum_weights ws) /\
    head path = Some source /\ last path = Some target /\ NoDup path /\
    edge_weights G (get_edge_weight weight_key time_dependent time_of_day) path = Some ws.
Proof.
  intros Hok Hs Ht Hreach. unfold dijkstra_time_dependent, dijkstra_path.
  rewrite Hs, Ht. cbn [negb orb].
  set (w := get_edge_weight weight_key time_dependent time_of_day).
  assert (forall v u e, In (u, e) (G_succ G v) -> nonneg (w v u e)) as Hnn.
  { intros v u e Hin. apply get_edge_weight_nonneg.
    eapply road_network_ok_edge; eauto. }
  destruct (single_source_dijkstra_complete G w source target Hnn Hs Hreach)
    as (d & p & E).
  destruct (single_source_dijkstra_sound G w source target d p E)
    as [(Hw & Hh & Hl) Hnd].
  rewrite E. cbn [bind snd]. rewrite path_length_spec.
  destruct (proj1 (is_walk_edge_weights G w p) Hw) as [ws Hws].
  rewrite Hws. cbn [bind]. exists p, ws. auto.
Qed.

Definition demo_edge (d : Q) : edge_data :=
  {[ "distance_km" := Fin d; "base_capacity_veh_hr" := Fin 1000 ]}.

Definition no_coordinates : node_attrs := mk_node_attrs None None.

(** The network of the spec's scenarios: A->B and B->C of length 5, A->C of
    length 12, capacities 1000, and the isolated node D. *)
Definition demo_network : DiGraph :=
  [ ("A", mk_node_entry no_coordinates [("B", demo_edge 5); ("C", demo_edge 12)]);
    ("B", mk_node_entry no_coordinates [("C", demo_edge 5)]);
    ("C", mk_node_entry no_coordinates []);
    ("D", mk_node_entry no_coordinates []) ].

Lemma demo_network_reachable : reachable demo_network "A" "C".
Proof.
  exists ["A"; "B"; "C"]. repeat split; vm_compute; eauto.
Qed.

Lemma dijkstra_time_dependent_path_witness :
  exists path ws,
    dijkstra_time_dependent demo_network "A" "C" "distance_km" false None
      = Route path (sum_weights ws) /\
    head path = Some "A" /\ last path = Some "C" /\ NoDup path /\
    edge_weights demo_network (get_edge_weight "distance_km" false None) path = Some ws.
Proof.
  apply (dijkstra_time_dependent_path demo_network "A" "C" "distance_km" false None).
  - vm_compute. reflexivity.
  - vm_compute. reflexivity.
  - vm_compute. reflexivity.
  - exact demo_network_reachable.
Defined.

(** ** The searches read the weight closure on the edges of the graph only *)

Lemma for_each_ext {A S : Type} (body1 body2 : S -> A -> result S) (l : list A) :
  (forall x, In x l -> forall s, body1 s x = body2 s x) ->
  forall s, for_each body1 l s = for_each body2 l s.
Proof.
  induction l as [|x l IH]; intros H s; simpl; [reflexivity|].
  rewrite (H x (or_introl eq_refl)).
  destruct (body2 s x); simpl; [|reflexivity].
  apply IH. intros y Hy. apply H. right. exact Hy.
Qed.

Section WeightExt.
Variable G : DiGraph.
Variables w1 w2 : string -> string -> edge_data -> num.
Hypothesis w_ext : forall v u e, In (u, e) (G_succ G v) -> w1 v u e = w2 v u e.

Lemma dijkstra_step_ext (t : string) (st : dijkstra_state) :
  dijkstra_step G w1 t st = dijkstra_step G w2 t st.
Proof.
  unfold dijkstra_step.
  destruct (heappop fringe_lt (fringe st)) as [[[[d c] v] rest]|]; [|reflexivity].
  destruct (dist st !! v); [reflexivity|].
  destruct (decide (v = t)); [reflexivity|].
  rewrite (for_each_ext (relax w1 v d) (relax w2 v d)); [reflexivity|].
  intros [u e] Hin s. unfold relax. rewrite (w_ext v u e Hin). reflexivity.
Qed.

Lemma dijkstra_loop_ext (t : string) (fuel : nat) (st : dijkstra_state) :
  dijkstra_loop G w1 t fuel st = dijkstra_loop G w2 t fuel st.
Proof.
  revert st. induction fuel as [|fuel IH]; intros st; [reflexivity|].
  rewrite !dijkstra_loop_unfold, dijkstra_step_ext.
  destruct (dijkstra_step G w2 t st); auto.
Qed.

Lemma dijkstra_path_ext (s t : string) :
  dijkstra_path G w1 s t = dijkstra_path G w2 s t.
Proof.
  unfold dijkstra_path, single_source_dijkstra.
  rewrite dijkstra_loop_ext. reflexivity.
Qed.

Lemma path_length_ext (p : list string) (a : num) :
  path_length G w1 p a = path_length G w2 p a.
Proof.
  revert a. induction p as [|u p IH]; intros a; [reflexivity|].
  destruct p as [|v p]; [reflexivity|].
  change (path_length G ?w (u :: v :: p) a) with
    (match get_edge_data G u v with
     | Some e => path_length G w (v :: p) (nadd a (w u v e))
     | None => Raise KeyError
     end).
  destruct (get_edge_data G u v) as [e|] eqn:E; [|reflexivity].
  rewrite (w_ext u v e (assoc_Some_In _ _ _ E)). apply IH.
Qed.
End WeightExt.

Lemma dijkstra_time_dependent_ext (G : DiGraph) (s t wk : string) (td td' : bool)
    (tod tod' : option string) :
  (forall v u e, In (u, e) (G_succ G v) ->
     get_edge_weight wk td tod v u e = get_edge_weight wk td' tod' v u e) ->
  dijkstra_time_dependent G s t wk td tod = dijkstra_time_dependent G s t wk td' tod'.
Proof.
  intros Hext. unfold dijkstra_time_dependent.
  destruct (negb (has_node G s) || negb (has_node G t)); [reflexivity|].
  rewrite (dijkstra_path_ext G _ _ Hext).
  destruct (dijkstra_path G _ s t) as [p|e]; [|reflexivity]. cbn [bind].
  rewrite (path_length_ext G _ _ Hext). reflexivity.
Qed.

(** ** Unreachable and unknown nodes (C5) *)

(** C5, as stated, fails: for the isolated node D and for the absent node Z
    the call returns the same value [(None, None)]. *)
Lemma not_found_vs_invalid_node_counterexample :
  has_node demo_network "D" = true /\ has_node demo_network "Z" = false /\
  dijkstra_time_dependent demo_network "A" "D" "distance_km" false None = NoRoute /\
  dijkstra_time_dependent demo_network "A" "Z" "distance_km" false None = NoRoute.
Proof. vm_compute. auto. Qed.

(** C5 (amended). [dijkstra_time_dependent] returns the same result
    [(None, None)] when the source or the target is absent from the graph and
    when both are nodes of the graph with no walk between them; the value
    returned does not distinguish the two outcomes, and in neither case an
    exception leaves the call. *)
Theorem no_route_when_invalid_or_unreachable (G : DiGraph) (source target weight_key : string)
    (time_dependent : bool) (time_of_day : option string) :
  (has_node G source = false \/ has_node G target = false) \/
  (has_node G source = true /\ has_node G target = true /\
   ~ reachable G source target) ->
  dijkstra_time_dependent G source target weight_key time_dependent time_of_day = NoRoute.
Proof.
  unfold dijkstra_time_dependent. intros [[Hs|Ht]|(Hs & Ht & Hn)].
  - rewrite Hs. reflexivity.
  - rewrite Ht. rewrite orb_true_r. reflexivity.
  - rewrite Hs, Ht. cbn [negb orb]. unfold dijkstra_path.
    destruct (single_source_dijkstra G _ source target) as [[d p]|e] eqn:E;
      [|reflexivity].
    exfalso. apply Hn. exists p.
    apply (single_source_dijkstra_sound _ _ _ _ _ _ E).
Qed.

Lemma not_reachable_demo : ~ reachable demo_network "A" "D".
Proof.
  intros (p & Hw & Hh & Hl).
  assert (forall x, In x p -> x = "A" \/ x = "B" \/ x = "C") as Hall.
  { apply (closed_walk demo_network (fun x => x = "A" \/ x = "B" \/ x = "C")); auto.
    - intros v [->|[->| ->]] u e; vm_compute; intuition congruence.
    - intros s. rewrite Hh. intros [= <-]. auto. }
  destruct (Hall "D" (last_In _ _ Hl)) as [H|[H|H]]; discriminate.
Qed.

Lemma no_route_when_invalid_or_unreachable_witness :
  dijkstra_time_dependent demo_network "A" "Z" "distance_km" false None = NoRoute /\
  dijkstra_time_dependent demo_network "A" "D" "distance_km" false None = NoRoute.
Proof.
  split.
  - apply no_route_when_invalid_or_unreachable. left. right. vm_compute. reflexivity.
  - apply no_route_when_invalid_or_unreachable. right.
    split; [vm_compute; reflexivity|]. split; [vm_compute; reflexivity|].
    exact not_reachable_demo.
Defined.

(** ** Static and time-dependent queries (C10) *)

Lemma traffic_bucket_None (td : bool) (tod : option string) (data : edge_data) :
  traffic_bucket td tod data = None <->
  td = false \/ tod = None \/
  (exists label, tod = Some label /\ traffic_col_map label = None) \/
  (exists label attr, tod = Some label /\ traffic_col_map label = Some attr /\
                      data !! attr = None).
Proof.
  unfold traffic_bucket. split.
  - destruct td; [|auto]. destruct tod as [label|]; [|auto].
    change (Some label ≫= traffic_col_map) with (traffic_col_map label).
    destruct (traffic_col_map label) as [attr|] eqn:E.
    + rewrite (traffic_col_map_truthy _ _ E). intros H. right. right. right. eauto.
    + intros _. right. right. left. eauto.
  - intros [->|[->|[(label & -> & Hl)|(label & attr & -> & Hl & Hd)]]].
    + reflexivity.
    + destruct td; reflexivity.
    + destruct td; simpl; [|reflexivity]. rewrite Hl. destruct (negb _); reflexivity.
    + destruct td; simpl; [|reflexivity]. rewrite Hl. destruct (negb _); auto.
Qed.

(** C10. [get_edge_weight] departs from the static base metric only on an edge
    that carries the traffic attribute of a recognized time of day, in a call
    with [time_dependent] set.  When [time_dependent] is False (whatever the
    time of day), or the time of day is None or an unknown label, or no edge
    of the graph carries that traffic attribute, every edge weight is the
    static base metric and the call returns exactly the path and cost of the
    static query. *)
Theorem static_unless_congested (G : DiGraph) (source target weight_key : string)
    (time_dependent : bool) (time_of_day : option string) :
  (forall u v data,
     get_edge_weight weight_key time_dependent time_of_day u v data
       <> default PInf (data !! weight_key) ->
     time_dependent = true /\
     exists label attr, time_of_day = Some label /\
       traffic_col_map label = Some attr /\ is_Some (data !! attr)) /\
  (time_dependent = false \/ time_of_day = None \/
   (exists label, time_of_day = Some label /\ traffic_col_map label = None) \/
   (exists label attr, time_of_day = Some label /\ traffic_col_map label = Some attr /\
      forall v u e, In (u, e) (G_succ G v) -> e !! attr = None) ->
   (forall v u e, In (u, e) (G_succ G v) ->
      get_edge_weight weight_key time_dependent time_of_day v u e
        = default PInf (e !! weight_key)) /\
   dijkstra_time_dependent G source target weight_key time_dependent time_of_day
     = dijkstra_time_dependent G source target weight_key false None).
Proof.
  split.
  - intros u v data Hne. unfold get_edge_weight in Hne.
    destruct (traffic_bucket time_dependent time_of_day data) as [x|] eqn:E;
      [|congruence].
    apply traffic_bucket_Some in E. destruct E as (Htd & label & attr & H1 & H2 & H3).
    split; [exact Htd|]. exists label, attr. rewrite H3. eauto.
  - intros Hcase.
    assert (forall v u e, In (u, e) (G_succ G v) ->
              traffic_bucket time_dependent time_of_day e = None) as Hb.
    { intros v u e Hin. apply traffic_bucket_None.
      destruct Hcase as [H|[H|[H|(label & attr & H1 & H2 & H3)]]]; auto.
      right. right. right. exists label, attr. eauto. }
    assert (forall v u e, In (u, e) (G_succ G v) ->
              get_edge_weight weight_key time_dependent time_of_day v u e
                = default PInf (e !! weight_key)) as Hw.
    { intros v u e Hin. unfold get_edge_weight. rewrite (Hb v u e Hin). reflexivity. }
    split; [exact Hw|].
    apply dijkstra_time_dependent_ext. intros v u e Hin. rewrite (Hw v u e Hin).
    reflexivity.
Qed.

Definition busy_edge (d vol : Q) : edge_data :=
  <[ "morning_peak_veh_h" := Fin vol ]> (demo_edge d).

(** The network of the spec's congestion scenario: 4000 vehicles on A->B in
    the morning peak. *)
Definition busy_network : DiGraph :=
  [ ("A", mk_node_entry no_coordinates [("B", busy_edge 5 4000); ("C", demo_edge 12)]);
    ("B", mk_node_entry no_coordinates [("C", demo_edge 5)]);
    ("C", mk_node_entry no_coordinates []);
    ("D", mk_node_entry no_coordinates []) ].

Lemma static_unless_congested_witness :
  dijkstra_time_dependent busy_network "A" "C" "distance_km" false (Some "morning_peak")
  = dijkstra_time_dependent busy_network "A" "C" "distance_km" false None.
Proof.
  apply (static_unless_congested busy_network "A" "C" "distance_km" false
           (Some "morning_peak")).
  left. reflexivity.
Defined.

(** ** Optimality of [dijkstra_path] for non-negative weights *)

Lemma nltb_trans (a b c : num) : nltb a b = true -> nltb b c = true -> nltb a c = true.
Proof. num_solve. Qed.

Lemma nltb_neqb (a b : num) : nltb a b = true -> neqb a b = false.
Proof. num_solve. Qed.

Lemma NoDup_assoc {A : Type} (k : string) (a : A) (l : list (string * A)) :
  NoDup l.*1 -> In (k, a) l -> assoc k l = Some a.
Proof.
  induction l as [|[k' a'] l IH]; simpl; [tauto|].
  intros Hnd Hin. apply NoDup_cons in Hnd. destruct Hnd as [Hk Hnd].
  destruct (decide (k = k')) as [->|Hne].
  - destruct Hin as [[= ->]|Hin]; [reflexivity|].
    exfalso. apply Hk. apply list_elem_of_fmap. exists (k', a). split; [reflexivity|].
    apply list_elem_of_In. exact Hin.
  - destruct Hin as [[= -> ->]|Hin]; [congruence|]. auto.
Qed.

Lemma graph_wf_succ (G : DiGraph) (v : string) :
  graph_wf G = true -> NoDup (G_succ G v).*1.
Proof.
  unfold graph_wf, G_succ. intros H.
  destruct (assoc v G) as [ent|] eqn:E; [|apply NoDup_nil_2].
  apply assoc_Some_In in E. rewrite forallb_forall in H.
  specialize (H _ E). simpl in H. apply andb_true_iff in H. destruct H as [H _].
  apply bool_decide_eq_true in H. exact H.
Qed.

Lemma graph_wf_node (G : DiGraph) (v u : string) (e : edge_data) :
  graph_wf G = true -> In (u, e) (G_succ G v) -> has_node G u = true.
Proof.
  unfold graph_wf, G_succ at 1. intros H Hin.
  destruct (assoc v G) as [ent|] eqn:E; [|destruct Hin].
  apply assoc_Some_In in E. rewrite forallb_forall in H.
  specialize (H _ E). simpl in H. apply andb_true_iff in H. destruct H as [_ H].
  rewrite forallb_forall in H. apply (H _ Hin).
Qed.

Lemma graph_wf_edge (G : DiGraph) (v u : string) (e : edge_data) :
  graph_wf G = true -> In (u, e) (G_succ G v) -> get_edge_data G v u = Some e.
Proof.
  intros H Hin. apply NoDup_assoc; [apply graph_wf_succ; exact H|exact Hin].
Qed.

(** *** Sums of weights along walks *)

Lemma edge_weights_cons (G : DiGraph) (w : string -> string -> edge_data -> num)
    (u v : string) (p : list string) :
  edge_weights G w (u :: v :: p) =
  match get_edge_data G u v, edge_weights G w (v :: p) with
  | Some e, Some ws => Some (w u v e :: ws)
  | _, _ => None
  end.
Proof. reflexivity. Qed.

Lemma edge_weights_app (G : DiGraph) (w : string -> string -> edge_data -> num)
    (p q : list string) (x : string) (ws : list num) :
  last p = Some x -> edge_weights G w (p ++ q) = Some ws ->
  exists ws1 ws2, edge_weights G w p = Some ws1 /\
                  edge_weights G w (x :: q) = Some ws2 /\ ws = ws1 ++ ws2.
Proof.
  revert ws. induction p as [|a p IH]; intros ws Hl H; [discriminate|].
  destruct p as [|b p].
  - injection Hl as ->. exists [], ws. auto.
  - change ((a :: b :: p) ++ q) with (a :: b :: (p ++ q)) in H.
    rewrite edge_weights_cons in H. rewrite edge_weights_cons.
    destruct (get_edge_data G a b) as [e|]; [|discriminate].
    destruct (edge_weights G w (b :: p ++ q)) as [ws'|] eqn:E; [|discriminate].
    injection H as <-.
    destruct (IH ws' Hl E) as (ws1 & ws2 & H1 & H2 & ->).
    rewrite H1. exists (w a b e :: ws1), ws2. auto.
Qed.

Lemma edge_weights_snoc (G : DiGraph) (w : string -> string -> edge_data -> num)
    (p : list string) (v u : string) (e : edge_data) (ws : list num) :
  last p = Some v -> get_edge_data G v u = Some e ->
  edge_weights G w p = Some ws ->
  edge_weights G w (p ++ [u]) = Some (ws ++ [w v u e]).
Proof.
  revert ws. induction p as [|a p IH]; intros ws Hl He H; [discriminate|].
  destruct p as [|b p].
  - injection Hl as ->. injection H as <-. simpl. rewrite He. reflexivity.
  - change ((a :: b :: p) ++ [u]) with (a :: b :: (p ++ [u])).
    rewrite edge_weights_cons in *.
    destruct (get_edge_data G a b) as [e'|]; [|discriminate].
    destruct (edge_weights G w (b :: p)) as [ws'|] eqn:E; [|discriminate].
    injection H as <-.
    change (b :: p ++ [u]) with ((b :: p) ++ [u]).
    rewrite (IH ws' Hl He eq_refl). reflexivity.
Qed.

Lemma sum_weights_snoc (ws : list num) (x : num) :
  sum_weights (ws ++ [x]) = nadd (sum_weights ws) x.
Proof. unfold sum_weights. rewrite foldl_app. reflexivity. Qed.

Lemma foldl_nadd_nonneg (ws : list num) (a : num) :
  nonneg a -> Forall nonneg ws -> nonneg (foldl nadd a ws) /\ nle a (foldl nadd a ws).
Proof.
  revert a. induction ws as [|x ws IH]; intros a Ha Hws; simpl.
  - split; [exact Ha|apply nle_refl; exact Ha].
  - inversion Hws as [|? ? Hx Hws']; subst.
    destruct (IH (nadd a x)) as [K1 K2]; auto using nadd_nonneg.
    split; [exact K1|]. eapply nle_trans; [|exact K2]. apply nle_nadd_r; auto.
Qed.

Lemma sum_weights_nonneg (ws : list num) :
  Forall nonneg ws -> nonneg (sum_weights ws).
Proof.
  intros H. apply foldl_nadd_nonneg; [simpl; lra|exact H].
Qed.

Lemma sum_weights_app_le (ws1 ws2 : list num) :
  Forall nonneg ws1 -> Forall nonneg ws2 ->
  nle (sum_weights ws1) (sum_weights (ws1 ++ ws2)).
Proof.
  intros H1 H2. unfold sum_weights. rewrite foldl_app.
  apply foldl_nadd_nonneg; [|exact H2]. apply (sum_weights_nonneg ws1 H1).
Qed.

Lemma walk_crossing (D : string -> Prop) (p : list string) (s v : string) :
  (forall x, D x \/ ~ D x) ->
  head p = Some s -> last p = Some v -> D s -> ~ D v ->
  exists p1 x y p2, p = p1 ++ x :: y :: p2 /\ D x /\ ~ D y.
Proof.
  intros Hdec. revert s. induction p as [|a p IH]; intros s Hh Hl Hs Hv; [discriminate|].
  injection Hh as ->. destruct p as [|b p].
  - injection Hl as ->. tauto.
  - destruct (Hdec b) as [Hb|Hb].
    + destruct (IH b eq_refl Hl Hb Hv) as (p1 & x & y & p2 & E & Hx & Hy).
      exists (s :: p1), x, y, p2. rewrite E. auto.
    + exists [], s, b, p. auto.
Qed.

Section DijkstraOptimal.
Variable G : DiGraph.
Variable w : string -> string -> edge_data -> num.
Variables source target : string.
Hypothesis w_nonneg : forall v u e, In (u, e) (G_succ G v) -> nonneg (w v u e).
Hypothesis G_wf : graph_wf G = true.

(** [c] is the sum of the weights along [p] *)
Definition cost_of (p : list string) (c : num) : Prop :=
  exists ws, edge_weights G w p = Some ws /\ sum_weights ws = c.

Lemma edge_weights_nonneg (p : list string) (ws : list num) :
  edge_weights G w p = Some ws -> Forall nonneg ws.
Proof.
  revert ws. induction p as [|a p IH]; intros ws H.
  - injection H as <-. constructor.
  - destruct p as [|b p]; [injection H as <-; constructor|].
    rewrite edge_weights_cons in H.
    destruct (get_edge_data G a b) as [e|] eqn:E; [|discriminate].
    destruct (edge_weights G w (b :: p)) as [ws'|]; [|discriminate].
    injection H as <-. constructor; [|apply IH; reflexivity].
    apply w_nonneg. apply assoc_Some_In. exact E.
Qed.

Lemma cost_of_nonneg (p : list string) (c : num) : cost_of p c -> nonneg c.
Proof.
  intros (ws & H & <-). apply sum_weights_nonneg. eapply edge_weights_nonneg; eauto.
Qed.

Record opt_inv (st : dijkstra_state) : Prop := {
  o_nn : nn_inv G source target st;
  o_path : forall u su, seen st !! u = Some su ->
           nonneg su /\ exists p, paths st !! u = Some p /\ last p = Some u /\ cost_of p su;
  o_exact : forall v dv, dist st !! v = Some dv -> seen st !! v = Some dv;
  o_fringe : forall u su, seen st !! u = Some su -> dist st !! u = None ->
             (exists c, In (su, c, u) (fringe st)) /\
             forall d c, In (d, c, u) (fringe st) -> d = su \/ nltb su d = true;
  o_opt : forall v dv, dist st !! v = Some dv ->
          forall q c, head q = Some source -> last q = Some v -> cost_of q c -> nle dv c;
  o_edge : forall x dx, dist st !! x = Some dx ->
           forall y e, In (y, e) (G_succ G x) ->
           exists sy, seen st !! y = Some sy /\ nle sy (nadd dx (w x y e));
  o_src : dist st !! source = None ->
          (forall d c u, In (d, c, u) (fringe st) -> u = source) /\
          seen st !! source = Some (Fin 0)
}.

Record opt_mid (v : string) (d : num) (pre : list (string * edge_data))
    (st : dijkstra_state) : Prop := {
  om_path : forall u su, seen st !! u = Some su ->
            nonneg su /\ exists p, paths st !! u = Some p /\ last p = Some u /\ cost_of p su;
  om_exact : forall x dx, dist st !! x = Some dx -> seen st !! x = Some dx;
  om_fringe : forall u su, seen st !! u = Some su -> dist st !! u = None ->
              (exists c, In (su, c, u) (fringe st)) /\
              forall d' c, In (d', c, u) (fringe st) -> d' = su \/ nltb su d' = true;
  om_opt : forall x dx, dist st !! x = Some dx ->
           forall q c, head q = Some source -> last q = Some x -> cost_of q c -> nle dx c;
  om_edge : forall x dx, x <> v -> dist st !! x = Some dx ->
            forall y e, In (y, e) (G_succ G x) ->
            exists sy, seen st !! y = Some sy /\ nle sy (nadd dx (w x y e));
  om_pre : forall y e, In (y, e) pre ->
           exists sy, seen st !! y = Some sy /\ nle sy (nadd d (w v y e));
  om_src : is_Some (dist st !! source)
}.

(** What is known of the node [v] popped at distance [d] when it is settled. *)
Lemma settle (st : dijkstra_state) (d : num) (c : nat) (v : string)
    (rest : list (num * nat * string)) :
  opt_inv st ->
  heappop fringe_lt (fringe st) = Some ((d, c, v), rest) ->
  dist st !! v = None ->
  seen st !! v = Some d /\
  forall q c', head q = Some source -> last q = Some v -> cost_of q c' -> nle d c'.
Proof.
  intros I Hpop Hv.
  pose proof (o_nn _ I) as Inn.
  destruct (heappop_In _ _ _ _ Hpop) as [Hin Hrest].
  assert (forall e, In e (fringe st) -> key_ok e) as Hok.
  { intros [[d' c'] u'] He. apply (nn_key _ _ _ _ Inn d' c' u' He). }
  pose proof (fringe_pop_least _ _ _ _ _ Hok Hpop) as Hleast.
  assert (nonneg d) as Hd by apply (nn_key _ _ _ _ Inn d c v Hin).
  assert (forall d' c' u', In (d', c', u') (fringe st) -> nle d d') as Hmin.
  { intros d' c' u' He. eapply fringe_lt_false_nle; [| |apply (Hleast _ He)]; auto.
    apply (nn_key _ _ _ _ Inn d' c' u' He). }
  assert (seen st !! v = Some d) as Hseen.
  { destruct (nn_fseen _ _ _ _ Inn d c v Hin) as [su Hsu].
    destruct (o_fringe _ I v su Hsu Hv) as [[c0 Hc0] Hall].
    destruct (Hall d c Hin) as [->|Hlt]; [exact Hsu|].
    exfalso. pose proof (Hleast _ Hc0) as Hf. unfold fringe_lt in Hf.
    rewrite (nltb_neqb _ _ Hlt), Hlt in Hf. discriminate. }
  split; [exact Hseen|].
  intros q c' Hh Hl Hcost.
  destruct (dist st !! source) as [ds|] eqn:Hsrc.
  - (* the walk leaves the settled nodes along some edge x -> y *)
    destruct (walk_crossing (fun x => is_Some (dist st !! x)) q source v)
      as (p1 & x & y & p2 & Eq & [dx Hx] & Hy); auto.
    { intros x. destruct (dist st !! x); [left; eauto|right; intros [? ?]; discriminate]. }
    { simpl. rewrite Hv. intros [? ?]. discriminate. }
    destruct Hcost as (ws & Hws & <-).
    assert (q = (p1 ++ [x]) ++ y :: p2) as Eq' by (rewrite Eq, <- app_assoc; reflexivity).
    rewrite Eq' in Hws.
    destruct (edge_weights_app G w (p1 ++ [x]) (y :: p2) x ws (last_snoc _ _) Hws)
      as (ws1 & ws2 & H1 & H2 & ->).
    rewrite edge_weights_cons in H2.
    destruct (get_edge_data G x y) as [e|] eqn:He; [|discriminate].
    destruct (edge_weights G w (y :: p2)) as [ws3|] eqn:H3; [|discriminate].
    injection H2 as <-.
    pose proof (edge_weights_nonneg _ _ Hws) as Hnn.
    apply Forall_app in Hnn. destruct Hnn as [Hnn1 Hnn2].
    inversion Hnn2 as [|? ? Hwe Hnn3]; subst.
    assert (nle dx (sum_weights ws1)) as Hdx.
    { apply (o_opt _ I x dx Hx (p1 ++ [x]) (sum_weights ws1)).
      - clear -Hh. destruct p1; simpl in *; exact Hh.
      - apply last_snoc.
      - exists ws1. auto. }
    destruct (o_edge _ I x dx Hx y e (assoc_Some_In _ _ _ He)) as (sy & Hsy & Hle).
    assert (dist st !! y = None) as Hyn.
    { destruct (dist st !! y); [exfalso; apply Hy; eauto|reflexivity]. }
    destruct (o_fringe _ I y sy Hsy Hyn) as [[c1 Hc1] _].
    pose proof (Hmin _ _ _ Hc1) as Hdsy.
    destruct (nn_dist _ _ _ _ Inn x dx Hx) as [Hdxnn _].
    pose proof (sum_weights_nonneg ws1 Hnn1) as Hs1.
    eapply nle_trans; [exact Hdsy|]. eapply nle_trans; [exact Hle|].
    eapply nle_trans; [apply (nadd_mono_l dx (sum_weights ws1)); auto|].
    rewrite <- sum_weights_snoc.
    change (ws1 ++ w x y e :: ws3) with (ws1 ++ [w x y e] ++ ws3).
    rewrite app_assoc. apply sum_weights_app_le; [|exact Hnn3].
    apply Forall_app. split; [exact Hnn1|]. constructor; [exact Hwe|constructor].
  - (* nothing is settled yet: [v] is the source, at distance 0 *)
    destruct (o_src _ I Hsrc) as [Hall H0].
    pose proof (Hall _ _ _ Hin) as ->. rewrite H0 in Hseen. injection Hseen as <-.
    destruct Hcost as (ws & Hws & <-).
    apply foldl_nadd_nonneg; [simpl; lra|]. eapply edge_weights_nonneg; eauto.
Qed.


Lemma relax_opt (v : string) (d : num) (pre : list (string * edge_data))
    (st : dijkstra_state) (ue : string * edge_data) :
  nn_mid G source target v d pre st /\ opt_mid v d pre st ->
  In ue (G_succ G v) ->
  exists st', relax w v d st ue = Return st' /\
    (nn_mid G source target v d (pre ++ [ue]) st' /\ opt_mid v d (pre ++ [ue]) st').
Proof.
  intros [N M] Hin.
  destruct (relax_nn G w source target w_nonneg v d pre st ue N Hin) as (st' & E & N').
  exists st'. split; [exact E|]. split; [exact N'|]. clear N'.
  destruct ue as [u e].
  pose proof (w_nonneg v u e Hin) as Hw.
  pose proof (m_d _ _ _ _ _ _ _ N) as Hd.
  pose proof (m_v _ _ _ _ _ _ _ N) as Hv.
  set (vu := nadd d (w v u e)) in *.
  assert (nonneg vu) as Hvu by (apply nadd_nonneg; assumption).
  assert (nle d vu) as Hdvu by (apply nle_nadd_r; assumption).
  (* the state is kept *)
  assert ((exists su, seen st !! u = Some su /\ nle su vu) ->
          opt_mid v d (pre ++ [(u, e)]) st) as Hkeep.
  { intros Hs. destruct M. constructor; auto.
    intros y e'. rewrite in_app_iff. simpl. intros [H|[[= <- <-]|[]]]; eauto. }
  (* the entry is pushed *)
  assert (forall pv, dist st !! u = None -> paths st !! v = Some pv ->
    (seen st !! u = None \/ exists su, seen st !! u = Some su /\ nltb vu su = true) ->
    opt_mid v d (pre ++ [(u, e)])
      (mk_dijkstra_state (dist st) (<[u := vu]> (seen st))
         (<[u := pv ++ [u]]> (paths st))
         (heappush (fringe st) (vu, count st, u))
         (S (count st)))) as Hpush.
  { intros pv Hu Hpv Hseen.
    assert (forall y sy z, seen st !! y = Some sy -> nle sy z ->
              exists sy', <[u := vu]> (seen st) !! y = Some sy' /\ nle sy' z) as Hdec.
    { intros y sy z Hy Hle. destruct (decide (u = y)) as [<-|Hne].
      - rewrite lookup_insert_eq. exists vu. split; [reflexivity|].
        destruct Hseen as [Hn|(su & Hsu & Hlt)]; [congruence|].
        rewrite Hsu in Hy. injection Hy as <-.
        eapply nle_trans; [apply nltb_true_nle; exact Hlt|exact Hle].
      - rewrite lookup_insert_ne by exact Hne. eauto. }
    destruct M. constructor; simpl.
    - intros x sx. destruct (decide (u = x)) as [<-|Hne].
      + rewrite !lookup_insert_eq. intros [= <-]. split; [exact Hvu|].
        exists (pv ++ [u]). split; [reflexivity|]. split; [apply last_snoc|].
        destruct (om_path0 v d (om_exact0 v d Hv)) as (_ & pv' & Hpv' & Hl & ws & Hws & Hsum).
        rewrite Hpv in Hpv'. injection Hpv' as <-.
        exists (ws ++ [w v u e]). split.
        * apply edge_weights_snoc; auto. apply graph_wf_edge; auto.
        * rewrite sum_weights_snoc, Hsum. reflexivity.
      + rewrite !lookup_insert_ne by exact Hne. apply om_path0.
    - intros x dx Hx. rewrite lookup_insert_ne; [auto|]. intros <-. congruence.
    - intros x sx. unfold heappush. destruct (decide (u = x)) as [<-|Hne].
      + rewrite lookup_insert_eq. intros [= <-] _. split.
        * exists (count st). apply in_app_iff. simpl. auto.
        * intros d' c'. rewrite in_app_iff. simpl. intros [H|[[= <- <-]|[]]]; [|auto].
          right. destruct Hseen as [Hn|(su & Hsu & Hlt)].
          -- destruct (m_fseen _ _ _ _ _ _ _ N d' c' u H) as [? ?]. congruence.
          -- destruct (om_fringe0 u su Hsu Hu) as [_ Hall].
             destruct (Hall d' c' H) as [->|Hlt']; [exact Hlt|].
             eapply nltb_trans; eauto.
      + rewrite lookup_insert_ne by exact Hne. intros Hsx Hdx.
        destruct (om_fringe0 x sx Hsx Hdx) as [[c0 Hc0] Hall]. split.
        * exists c0. apply in_app_iff. auto.
        * intros d' c'. rewrite in_app_iff. simpl.
          intros [H|[[= <- <- <-]|[]]]; [eauto|congruence].
    - exact om_opt0.
    - intros x dx Hne Hx y e' Hy.
      destruct (om_edge0 x dx Hne Hx y e' Hy) as (sy & Hsy & Hle). eauto.
    - intros y e'. rewrite in_app_iff. simpl. intros [H|[[= <- <-]|[]]].
      + destruct (om_pre0 y e' H) as (sy & Hsy & Hle). eauto.
      + rewrite lookup_insert_eq. exists vu. split; [reflexivity|].
        apply nle_refl. exact Hvu.
    - exact om_src0. }
  unfold relax in E. fold vu in E.
  destruct (dist st !! u) as [du|] eqn:Hu.
  - destruct (nltb vu du); [discriminate|]. injection E as <-.
    apply Hkeep. exists du. split; [apply (om_exact _ _ _ _ M u du Hu)|].
    eapply nle_trans; [apply (m_le _ _ _ _ _ _ _ N u du Hu)|exact Hdvu].
  - destruct (seen st !! u) as [su|] eqn:Hs.
    + destruct (nltb vu su) eqn:Hlt.
      * destruct (paths st !! v) as [pv|] eqn:Hpv; [|discriminate].
        injection E as <-. apply Hpush; eauto.
      * injection E as <-. apply Hkeep. exists su. split; [reflexivity|].
        apply nltb_false_nle; auto. apply (om_path _ _ _ _ M u su Hs).
    + destruct (paths st !! v) as [pv|] eqn:Hpv; [|discriminate].
      injection E as <-. apply Hpush; eauto.
Qed.

Lemma opt_mid_start (st : dijkstra_state) (d : num) (c : nat) (v : string)
    (rest : list (num * nat * string)) :
  opt_inv st ->
  heappop fringe_lt (fringe st) = Some ((d, c, v), rest) ->
  dist st !! v = None ->
  opt_mid v d []
    (mk_dijkstra_state (<[v := d]> (dist st)) (seen st) (paths st) rest (count st)).
Proof.
  intros I Hpop Hv.
  destruct (settle st d c v rest I Hpop Hv) as [Hseen Hopt].
  destruct (heappop_In _ _ _ _ Hpop) as [Hin Hrest].
  pose proof (heappop_In_inv _ _ _ _ Hpop) as Hinv.
  destruct I. constructor; simpl.
  - exact o_path0.
  - intros x dx. rewrite lookup_insert_Some. intros [[<- <-]|[Hne Hx]]; auto.
  - intros u su Hsu. rewrite lookup_insert_None. intros [Hu Hne].
    destruct (o_fringe0 u su Hsu Hu) as [[c0 Hc0] Hall]. split; [|eauto].
    exists c0. destruct (Hinv _ Hc0) as [[= _ _ ->]|H]; [congruence|exact H].
  - intros x dx. rewrite lookup_insert_Some. intros [[<- <-]|[Hne Hx]]; eauto.
  - intros x dx Hne. rewrite lookup_insert_ne by auto. eauto.
  - intros y e [].
  - rewrite lookup_insert_is_Some. destruct (decide (v = source)); [auto|].
    right. split; [assumption|].
    destruct (dist st !! source) eqn:Hs; [eauto|].
    destruct (o_src0 eq_refl) as [Hall _]. exfalso. apply n. eauto.
Qed.

Lemma opt_mid_end (st : dijkstra_state) (d : num) (v : string) :
  nn_mid G source target v d (G_succ G v) st ->
  opt_mid v d (G_succ G v) st -> opt_inv st.
Proof.
  intros N M. pose proof (m_v _ _ _ _ _ _ _ N) as Hv.
  destruct M. constructor; auto.
  - eapply nn_mid_end; eauto.
  - intros x dx Hx y e Hin. destruct (decide (x = v)) as [->|Hne]; [|eauto].
    rewrite Hv in Hx. injection Hx as <-. eauto.
  - intros Hs. destruct om_src0 as [? ?]. congruence.
Qed.

Lemma step_opt (st : dijkstra_state) :
  opt_inv st ->
  match dijkstra_step G w target st with
  | Continue st' => opt_inv st'
  | Stop (Return st') =>
      (fringe st = [] /\ st' = st) \/
      (exists d p, dist st' !! target = Some d /\ paths st' !! target = Some p /\
         cost_of p d /\
         forall q c, head q = Some source -> last q = Some target -> cost_of q c ->
                     nle d c)
  | Stop (Raise _) => False
  end.
Proof.
  intros I. pose proof (step_nn G w source target w_nonneg st (o_nn _ I)) as Hnn.
  unfold dijkstra_step in *.
  destruct (heappop fringe_lt (fringe st)) as [[[[d c] v] rest]|] eqn:Hpop.
  2:{ left. destruct (fringe st); [auto|discriminate]. }
  destruct (heappop_In _ _ _ _ Hpop) as [Hin Hrest].
  pose proof (heappop_In_inv _ _ _ _ Hpop) as Hinv.
  destruct (dist st !! v) as [dv|] eqn:Hv.
  - destruct I. constructor; simpl; auto.
    + intros u su Hsu Hu. destruct (o_fringe0 u su Hsu Hu) as [[c0 Hc0] Hall].
      split; [|eauto]. exists c0.
      destruct (Hinv _ Hc0) as [[= _ _ ->]|H]; [congruence|exact H].
    + intros Hs. destruct (o_src0 Hs) as [Hall H0]. split; eauto.
  - destruct (decide (v = target)) as [->|Hvt].
    + right. simpl. destruct (settle st d c target rest I Hpop Hv) as [Hseen Hopt].
      destruct (o_path _ I target d Hseen) as (_ & p & Hp & _ & Hcost).
      exists d, p. rewrite lookup_insert_eq. auto.
    + pose proof (nn_mid_start G source target st d c v rest (o_nn _ I) Hpop Hv Hvt) as N.
      pose proof (opt_mid_start st d c v rest I Hpop Hv) as M.
      destruct (for_each_total (relax w v d)
                  (fun pre s => nn_mid G source target v d pre s /\ opt_mid v d pre s)
                  (G_succ G v)
                  (fun pre x s HJ Hx => relax_opt v d pre s x HJ Hx) [] _ (conj N M))
        as (s' & E & N' & M').
      rewrite E. simpl in N', M'. eapply opt_mid_end; eauto.
Qed.

Lemma opt_inv_init : opt_inv (dijkstra_init source).
Proof.
  constructor; unfold dijkstra_init; simpl.
  - apply nn_inv_init.
  - intros u su. rewrite lookup_singleton_Some. intros [<- <-]. split; [simpl; lra|].
    exists [source]. rewrite lookup_singleton_eq. repeat split.
    exists []. split; reflexivity.
  - intros v dv. rewrite lookup_empty. discriminate.
  - intros u su. rewrite lookup_singleton_Some. intros [<- <-] _. split; [eauto|].
    intros d c [[= <- <-]|[]]. auto.
  - intros v dv. rewrite lookup_empty. discriminate.
  - intros x dx. rewrite lookup_empty. discriminate.
  - intros _. split; [|apply lookup_singleton_eq].
    intros d c u [[= _ _ <-]|[]]. reflexivity.
Qed.

(** The distance returned is the cost of the path returned, and no walk from
    the source to the target costs less. *)
Lemma single_source_dijkstra_optimal (d : num) (p : list string) :
  single_source_dijkstra G w source target = Return (d, p) ->
  cost_of p d /\
  forall q c, head q = Some source -> last q = Some target -> cost_of q c -> nle d c.
Proof.
  unfold single_source_dijkstra.
  destruct (negb (has_node G source)); [discriminate|].
  destruct (decide (target = source)) as [->|Hne].
  - intros [= <- <-]. split; [exists []; split; reflexivity|].
    intros q c _ _ (ws & Hws & <-).
    apply foldl_nadd_nonneg; [simpl; lra|]. eapply edge_weights_nonneg; eauto.
  - change (mk_dijkstra_state _ _ _ _ _) with (dijkstra_init source).
    assert (forall st st', opt_inv st -> dijkstra_step G w target st = Continue st' ->
                           opt_inv st') as Hstep.
    { intros st st' I E. pose proof (step_opt st I) as H. rewrite E in H. exact H. }
    destruct (dijkstra_loop_inv opt_inv G w target Hstep (S (S (edge_count G)))
                (dijkstra_init source) opt_inv_init) as [E|(st' & I & E)].
    { rewrite E. discriminate. }
    pose proof (step_opt st' I) as H. rewrite E in H.
    destruct (dijkstra_loop _ _ _ _ _) as [st2|e]; simpl in H; [|destruct H]. simpl.
    destruct H as [[Hempty ->]|(d' & p' & Hd & Hp & Hcost & Hopt)].
    + rewrite (nn_target _ _ _ _ (o_nn _ I)). discriminate.
    + rewrite Hd, Hp. intros [= <- <-]. auto.
Qed.

End DijkstraOptimal.

(** ** The outcomes of [dijkstra_path] on non-negative weights *)

Lemma dijkstra_loop_returns (G : DiGraph) (w : string -> string -> edge_data -> num)
    (s t : string) :
  (forall v u e, In (u, e) (G_succ G v) -> nonneg (w v u e)) ->
  exists st, dijkstra_loop G w t (S (S (edge_count G))) (dijkstra_init s) = Return st.
Proof.
  intros Hnn.
  assert (forall st st', nn_inv G s t st -> dijkstra_step G w t st = Continue st' ->
                         nn_inv G s t st') as Hstep.
  { intros st st' I E. pose proof (step_nn G w s t Hnn st I) as H.
    rewrite E in H. exact H. }
  destruct (dijkstra_loop_inv (nn_inv G s t) G w t Hstep (S (S (edge_count G)))
              (dijkstra_init s) (nn_inv_init G s t)) as [E|(st' & I & E)].
  { exfalso. revert E. apply dijkstra_loop_fuel.
    unfold dijkstra_measure, dijkstra_init. simpl. rewrite pending_empty. lia. }
  pose proof (step_nn G w s t Hnn st' I) as H. rewrite E in H.
  destruct (dijkstra_loop _ _ _ _ _) as [st2|e]; simpl in H; [eauto|destruct H].
Qed.

Lemma dijkstra_path_outcome (G : DiGraph) (w : string -> string -> edge_data -> num)
    (s t : string) :
  (forall v u e, In (u, e) (G_succ G v) -> nonneg (w v u e)) ->
  has_node G s = true ->
  (exists p, dijkstra_path G w s t = Return p /\ walk_from_to G s t p /\ NoDup p) \/
  dijkstra_path G w s t = Raise NetworkXNoPath.
Proof.
  intros Hnn Hs. unfold dijkstra_path.
  destruct (single_source_dijkstra G w s t) as [[d p]|e] eqn:E.
  - left. exists p. split; [reflexivity|].
    apply (single_source_dijkstra_sound G w s t d p E).
  - right. revert E. unfold single_source_dijkstra. rewrite Hs. cbn [negb].
    destruct (decide (t = s)); [discriminate|].
    change (mk_dijkstra_state _ _ _ _ _) with (dijkstra_init s).
    destruct (dijkstra_loop_returns G w s t Hnn) as [st ->]. simpl.
    destruct (dist st !! t); [|intros [= <-]; reflexivity].
    destruct (paths st !! t); [discriminate|intros [= <-]; reflexivity].
Qed.

(** ** Graphs with edges removed *)

Definition subgraph (H G : DiGraph) : Prop :=
  (forall x, has_node H x = has_node G x) /\
  (forall v u e, In (u, e) (G_succ H v) -> In (u, e) (G_succ G v)).

Lemma subgraph_refl (G : DiGraph) : subgraph G G.
Proof. split; auto. Qed.

Lemma subgraph_trans (G1 G2 G3 : DiGraph) :
  subgraph G1 G2 -> subgraph G2 G3 -> subgraph G1 G3.
Proof.
  intros [H1 H2] [H3 H4]. split.
  - intros x. rewrite H1. apply H3.
  - intros v u e Hin. apply H4, H2, Hin.
Qed.

Lemma remove_key_In {A : Type} (k : string) (l : list (string * A)) (x : string * A) :
  In x (remove_key k l) -> In x l.
Proof.
  induction l as [|[k' a] l IH]; simpl; [tauto|].
  destruct (decide (k = k')); simpl; tauto.
Qed.

Lemma assoc_remove_edge (G : DiGraph) (u v x : string) :
  assoc x (remove_edge G u v) =
  match assoc x G with
  | Some e => Some (if decide (x = u)
                    then mk_node_entry (attrs e) (remove_key v (succs e)) else e)
  | None => None
  end.
Proof.
  induction G as [|[k e] G IH]; simpl; [reflexivity|].
  destruct (decide (u = k)) as [->|Huk]; simpl.
  - destruct (decide (x = k)) as [->|Hxk]; [reflexivity|].
    destruct (assoc x G); reflexivity.
  - destruct (decide (x = k)) as [->|Hxk].
    + rewrite decide_False by congruence. reflexivity.
    + exact IH.
Qed.

Lemma remove_edge_subgraph (G : DiGraph) (u v : string) :
  subgraph (remove_edge G u v) G.
Proof.
  split.
  - intros x. unfold has_node. rewrite assoc_remove_edge.
    destruct (assoc x G); [|reflexivity].
    apply bool_decide_ext. split; eauto.
  - intros y z e. unfold G_succ. rewrite assoc_remove_edge.
    destruct (assoc y G) as [ent|]; [|tauto].
    destruct (decide (y = u)); [|tauto]. simpl. apply remove_key_In.
Qed.

Lemma subgraph_edge (H G : DiGraph) (u v : string) :
  subgraph H G -> is_Some (get_edge_data H u v) -> is_Some (get_edge_data G u v).
Proof.
  intros [_ Hsub] [e He]. apply assoc_Some_In in He.
  eapply In_assoc_is_Some. apply Hsub. exact He.
Qed.

Lemma is_walk_subgraph (H G : DiGraph) (p : list string) :
  subgraph H G -> is_walk H p -> is_walk G p.
Proof.
  intros Hsub. induction p as [|a p IH]; [auto|].
  destruct p as [|b p]; [auto|].
  intros [Hab Hw]. split; [eapply subgraph_edge; eauto|]. apply IH. exact Hw.
Qed.

Lemma remove_root_edge_subgraph (i : nat) (root_path : list string)
    (G temp temp' : DiGraph) (entry : yen_entry) :
  subgraph temp G -> remove_root_edge i root_path temp entry = Return temp' ->
  subgraph temp' G.
Proof.
  intros Hsub. unfold remove_root_edge.
  destruct (_ && _); [|intros [= <-]; exact Hsub].
  destruct (entry.2 !! i) as [u|]; [|discriminate].
  destruct (entry.2 !! S i) as [v|]; [|discriminate].
  intros [= <-]. destruct (has_edge temp u v); [|exact Hsub].
  eapply subgraph_trans; [apply remove_edge_subgraph|exact Hsub].
Qed.

(** ** Lists and walks for Yen's algorithm *)

Lemma removelast_lookup {A : Type} (l : list A) (j : nat) (x : A) :
  l !! j = Some x -> (j < length l - 1)%nat -> In x (removelast l).
Proof.
  intros Hj Hlt. rewrite removelast_firstn_len. apply list_elem_of_In.
  apply elem_of_take. exists j. split; [exact Hj|lia].
Qed.

Lemma take_In_removelast {A : Type} (l : list A) (i : nat) (x : A) :
  (i <= length l - 1)%nat -> In x (take i l) -> In x (removelast l).
Proof.
  intros Hi Hin. apply list_elem_of_In, elem_of_take in Hin.
  destruct Hin as (j & Hj & Hlt). eapply removelast_lookup; [exact Hj|lia].
Qed.

Lemma last_take_S {A : Type} (l : list A) (i : nat) (x : A) :
  l !! i = Some x -> last (take (S i) l) = Some x.
Proof. intros H. rewrite (take_S_r _ _ _ H). apply last_snoc. Qed.

Lemma removelast_take_S {A : Type} (l : list A) (i : nat) :
  (i < length l)%nat -> removelast (take (S i) l) = take i l.
Proof.
  intros Hi. destruct (lookup_lt_is_Some_2 l i Hi) as [x Hx].
  rewrite (take_S_r _ _ _ Hx). apply removelast_last.
Qed.

Lemma NoDup_last_removelast {A : Type} (p : list A) (t : A) :
  NoDup p -> last p = Some t -> ~ In t (removelast p).
Proof.
  intros Hnd Hl. apply last_Some in Hl. destruct Hl as [l' ->].
  rewrite removelast_last. apply NoDup_app in Hnd. destruct Hnd as (_ & Hd & _).
  intros Hin. apply list_elem_of_In in Hin. apply (Hd t Hin). apply list_elem_of_here.
Qed.

Lemma is_walk_join (G : DiGraph) (p q : list string) (x : string) :
  is_walk G (p ++ [x]) -> is_walk G q -> head q = Some x -> is_walk G (p ++ q).
Proof.
  intros Hp Hq Hh. destruct q as [|y q]; [discriminate|]. injection Hh as ->.
  induction p as [|a p IH]; [exact Hq|].
  destruct p as [|b p].
  - simpl in *. destruct Hp as [Hax _]. split; assumption.
  - destruct Hp as [Hab Hp]. split; [exact Hab|]. apply IH. exact Hp.
Qed.

Lemma walk_nodes (G : DiGraph) (p : list string) (s : string) :
  graph_wf G = true -> is_walk G p -> head p = Some s -> has_node G s = true ->
  forall x, In x p -> has_node G x = true.
Proof.
  intros Hwf Hw Hh Hs.
  apply (closed_walk G (fun x => has_node G x = true)); auto.
  - intros v _ u e Hin. eapply graph_wf_node; eauto.
  - intros s'. rewrite Hh. intros [= <-]. exact Hs.
Qed.

Lemma in_A_false (A : list yen_entry) (path : list string) :
  in_A A path = false <-> ~ In path A.*2.
Proof.
  unfold in_A. rewrite <- not_true_iff_false, existsb_exists. split.
  - intros H Hin. apply H. apply list_elem_of_In, list_elem_of_fmap in Hin.
    destruct Hin as (e & -> & He). exists e. split; [apply list_elem_of_In, He|].
    apply bool_decide_eq_true. reflexivity.
  - intros H (e & He & Heq). apply bool_decide_eq_true in Heq. apply H.
    apply list_elem_of_In, list_elem_of_fmap. exists e.
    split; [auto|apply list_elem_of_In, He].
Qed.

Lemma pop_candidate_spec (rounds : nat) (A B : list yen_entry) :
  (length B <= rounds)%nat ->
  (exists e B', pop_candidate rounds A B = (A ++ [e], B', true) /\ In e B /\
                in_A A e.2 = false /\ forall x, In x B' -> In x B) \/
  pop_candidate rounds A B = (A, [], false).
Proof.
  revert B. induction rounds as [|rounds IH]; intros B Hlen.
  - destruct B; [|simpl in Hlen; lia]. right. reflexivity.
  - simpl. destruct (heappop candidate_lt B) as [[[len path] B']|] eqn:Hpop.
    2:{ right. destruct B; [reflexivity|discriminate]. }
    destruct (heappop_In _ _ _ _ Hpop) as [Hin Hsub].
    pose proof (heappop_length _ _ _ _ Hpop) as Hl.
    destruct (in_A A path) eqn:HA.
    + destruct (IH B') as [(e & B2 & E & He & HeA & Hsub2)|E]; [lia| |].
      * left. exists e, B2. rewrite E. split; [reflexivity|]. auto.
      * right. exact E.
    + left. exists (len, path), B'. auto.
Qed.

(** ** Yen's algorithm on a network of the data model *)

Lemma metric_ok_edge (wk : string) (G : DiGraph) (v u : string) (e : edge_data) :
  metric_ok wk G = true -> In (u, e) (G_succ G v) ->
  exists x, e !! wk = Some x /\ nonneg x.
Proof.
  unfold metric_ok, G_succ. intros Hok Hin.
  destruct (assoc v G) as [ent|] eqn:E; [|destruct Hin].
  apply assoc_Some_In in E.
  rewrite forallb_forall in Hok. specialize (Hok _ E). simpl in Hok.
  rewrite forallb_forall in Hok. specialize (Hok _ Hin). simpl in Hok.
  destruct (e !! wk) as [x|]; [|discriminate].
  exists x. split; [reflexivity|]. apply nonnegb_nonneg. exact Hok.
Qed.

Section YenProofs.
Variable G : DiGraph.
Variables source target wk : string.
Hypothesis G_wf : graph_wf G = true.
Hypothesis G_metric : metric_ok wk G = true.
Hypothesis source_node : has_node G source = true.

Lemma weight_function_nonneg (H : DiGraph) :
  subgraph H G ->
  forall v u e, In (u, e) (G_succ H v) -> nonneg (weight_function wk v u e).
Proof.
  intros [_ Hsub] v u e Hin.
  destruct (metric_ok_edge wk G v u e G_metric (Hsub _ _ _ Hin)) as (x & Hx & Hnn).
  unfold weight_function. rewrite Hx. exact Hnn.
Qed.

(** an entry of [A] or [B]: a walk from the source that meets the target at
    its end only, with its length *)
Definition entry_ok (e : yen_entry) : Prop :=
  e.1 = get_path_length e.2 G wk (Fin 0) /\
  head e.2 = Some source /\ last e.2 = Some target /\
  ~ In target (removelast e.2) /\ is_walk G e.2.

Lemma remove_root_edges (A : list yen_entry) (prev_path : list string) (i : nat) :
  Forall entry_ok A -> ~ In target (removelast prev_path) ->
  (i < length prev_path - 1)%nat ->
  exists temp, for_each (remove_root_edge i (take (S i) prev_path)) A G = Return temp /\
               subgraph temp G.
Proof.
  intros HA Hprev Hi.
  destruct (for_each_total (remove_root_edge i (take (S i) prev_path))
              (fun _ temp => subgraph temp G) A) with (pre := @nil yen_entry) (s := G)
    as (temp & E & Hsub).
  - intros pre entry temp Hsub Hin.
    destruct (remove_root_edge i (take (S i) prev_path) temp entry) as [temp'|e] eqn:E.
    + exists temp'. split; [reflexivity|]. eapply remove_root_edge_subgraph; eauto.
    + exfalso. revert E. unfold remove_root_edge.
      destruct (bool_decide (i < length entry.2)%nat) eqn:E1; [|discriminate].
      destruct (bool_decide (take (S i) entry.2 = take (S i) prev_path)) eqn:E2;
        [|discriminate].
      apply bool_decide_eq_true in E1, E2. simpl.
      destruct (lookup_lt_is_Some_2 entry.2 i E1) as [u Hu]. rewrite Hu.
      destruct (entry.2 !! S i) as [v|] eqn:Hv.
      { destruct (has_edge temp u v); discriminate. }
      intros _. apply lookup_ge_None in Hv.
      (* the entry would be a proper prefix of [prev_path] that ends at the target *)
      rewrite Forall_forall in HA.
      destruct (HA entry (proj2 (list_elem_of_In _ _) Hin)) as (_ & _ & Hl & _ & _).
      assert (take (S i) entry.2 = entry.2) as Hfull by (apply take_ge; lia).
      rewrite Hfull in E2.
      destruct (lookup_lt_is_Some_2 prev_path i ltac:(lia)) as [x Hx].
      rewrite E2, (last_take_S _ _ _ Hx) in Hl. injection Hl as ->.
      apply Hprev. eapply removelast_lookup; eauto.
  - apply subgraph_refl.
  - exists temp. auto.
Qed.

Lemma spur_ok (A B : list yen_entry) (prev_path : list string) (i : nat) :
  Forall entry_ok A -> Forall entry_ok B ->
  head prev_path = Some source -> ~ In target (removelast prev_path) ->
  is_walk G prev_path ->
  (i < length prev_path - 1)%nat ->
  exists B', spur G target wk A prev_path B i = Return B' /\ Forall entry_ok B'.
Proof.
  intros HA HB Hh Hnt Hw Hi. unfold spur.
  destruct (lookup_lt_is_Some_2 prev_path i ltac:(lia)) as [spur_node Hsp].
  rewrite Hsp.
  destruct (remove_root_edges A prev_path i HA Hnt Hi) as (temp & E & Hsub).
  rewrite E. cbn [bind].
  assert (has_node temp spur_node = true) as Hnode.
  { rewrite (proj1 Hsub). apply (walk_nodes G prev_path source); auto.
    apply list_elem_of_In. eapply list_elem_of_lookup_2; eauto. }
  destruct (dijkstra_path_outcome temp (weight_function wk) spur_node target
              (weight_function_nonneg temp Hsub) Hnode)
    as [(spur_path & -> & (Hsw & Hsh & Hsl) & Hsnd)| ->]; [|eauto].
  set (total_path := removelast (take (S i) prev_path) ++ spur_path).
  destruct (in_A A total_path); [eauto|].
  eexists. split; [reflexivity|]. unfold heappush.
  apply Forall_app. split; [exact HB|]. constructor; [|constructor].
  assert (spur_path <> []) as Hne by (intros ->; discriminate).
  unfold entry_ok, total_path. simpl.
  rewrite removelast_take_S by lia.
  split; [reflexivity|]. split; [|split; [|split]].
  - rewrite head_app. destruct (take i prev_path) as [|a l] eqn:Et.
    + simpl. destruct i; [|destruct prev_path; discriminate].
      rewrite head_lookup in Hh. congruence.
    + simpl. destruct i; [discriminate|]. destruct prev_path; [discriminate|].
      simpl in *. congruence.
  - rewrite last_app, Hsl. reflexivity.
  - rewrite removelast_app by exact Hne. rewrite in_app_iff. intros [H|H].
    + apply Hnt. eapply take_In_removelast; [|exact H]. lia.
    + revert H. apply NoDup_last_removelast; auto.
  - apply (is_walk_join G _ _ spur_node).
    + rewrite <- (take_S_r _ _ _ Hsp).
      rewrite <- (take_drop (S i) prev_path) in Hw. eapply is_walk_app_l; eauto.
    + eapply is_walk_subgraph; eauto.
    + exact Hsh.
Qed.

Lemma spurs_ok (A B : list yen_entry) (prev_path : list string) :
  Forall entry_ok A -> Forall entry_ok B ->
  head prev_path = Some source -> ~ In target (removelast prev_path) ->
  is_walk G prev_path ->
  exists B', for_each (spur G target wk A prev_path) (seq 0 (length prev_path - 1)) B
               = Return B' /\ Forall entry_ok B'.
Proof.
  intros HA HB Hh Hnt Hw.
  destruct (for_each_total (spur G target wk A prev_path)
              (fun _ B => Forall entry_ok B) (seq 0 (length prev_path - 1)))
    with (pre := @nil nat) (s := B) as (B' & E & HB'); eauto.
  intros pre i B0 HB0 Hin. apply in_seq in Hin.
  apply spur_ok; auto. lia.
Qed.

Lemma yen_loop_spec (n k : nat) (A B : list yen_entry) :
  length A = k -> (1 <= k)%nat ->
  Forall entry_ok A -> NoDup A.*2 -> Forall entry_ok B ->
  exists A', yen_loop G target wk (seq k n) A B = Return A' /\
             Forall entry_ok A' /\ NoDup A'.*2 /\ head A' = head A.
Proof.
  revert k A B. induction n as [|n IH]; intros k A B Hlen Hk HA Hnd HB.
  - exists A. simpl. auto.
  - cbn [seq yen_loop].
    rewrite bool_decide_eq_false_2 by (intros ->; simpl in Hlen; lia).
    destruct (lookup_lt_is_Some_2 A (k - 1) ltac:(lia)) as [[prev_len prev_path] Hprev].
    rewrite Hprev.
    assert (entry_ok (prev_len, prev_path)) as (_ & Hh & Hl & Hnt & Hw).
    { rewrite Forall_forall in HA. apply HA. eapply list_elem_of_lookup_2; eauto. }
    simpl in Hh, Hl, Hnt, Hw.
    destruct (spurs_ok A B prev_path HA HB Hh Hnt Hw) as (B1 & -> & HB1). cbn [bind].
    destruct (bool_decide (B1 = [])); [exists A; auto|].
    destruct (pop_candidate_spec (length B1) A B1 (le_n _))
      as [(e & B2 & -> & He & HeA & Hsub)| ->].
    + cbn [negb andb].
      assert (entry_ok e) as Heok.
      { rewrite Forall_forall in HB1. apply HB1, list_elem_of_In, He. }
      destruct (IH (S k) (A ++ [e]) B2) as (A' & E & HA' & Hnd' & Hhd).
      * rewrite length_app. simpl. lia.
      * lia.
      * apply Forall_app. split; [exact HA|]. constructor; [exact Heok|constructor].
      * rewrite fmap_app. apply NoDup_app. split; [exact Hnd|]. split.
        -- intros x Hx Hx'. apply list_elem_of_In in Hx.
           apply list_elem_of_In in Hx'. simpl in Hx'. destruct Hx' as [<-|[]].
           apply in_A_false in HeA. auto.
        -- apply NoDup_singleton.
      * rewrite Forall_forall in *. intros x Hx. apply HB1.
        apply list_elem_of_In, Hsub, list_elem_of_In, Hx.
      * exists A'. split; [exact E|]. split; [exact HA'|]. split; [exact Hnd'|].
        rewrite Hhd. destruct A; [simpl in Hlen; lia|reflexivity].
    + simpl. exists A. auto.
Qed.

End YenProofs.

(** ** The stable sort by length *)

Fixpoint len_sorted (l : list yen_entry) : Prop :=
  match l with
  | [] => True
  | x :: l' => Forall (fun y => nle x.1 y.1) l' /\ len_sorted l'
  end.

Lemma insert_by_length_perm (x : yen_entry) (l : list yen_entry) :
  insert_by_length x l ≡ₚ x :: l.
Proof.
  induction l as [|y l IH]; simpl; [reflexivity|].
  destruct (nltb x.1 y.1); [reflexivity|].
  rewrite IH. apply Permutation_swap.
Qed.

Lemma insert_by_length_sorted (x : yen_entry) (l : list yen_entry) :
  nonneg x.1 -> Forall (fun e => nonneg e.1) l -> len_sorted l ->
  len_sorted (insert_by_length x l).
Proof.
  intros Hx. induction l as [|y l IH]; intros Hnn Hs; simpl.
  - split; [constructor|exact I].
  - inversion Hnn as [|? ? Hy Hnn']; subst. destruct Hs as [Hyl Hs].
    destruct (nltb x.1 y.1) eqn:E.
    + split; [|split; assumption].
      apply nltb_true_nle in E. constructor; [exact E|].
      eapply Forall_impl; [exact Hyl|]. intros z Hz. simpl in Hz.
      eapply nle_trans; eauto.
    + split; [|apply IH; assumption].
      rewrite (insert_by_length_perm x l). constructor; [|exact Hyl].
      apply nltb_false_nle; assumption.
Qed.

Lemma insert_by_length_head (h x : yen_entry) (l : list yen_entry) :
  nle h.1 x.1 -> insert_by_length x (h :: l) = h :: insert_by_length x l.
Proof. intros H. simpl. rewrite (nle_nltb_false _ _ H). reflexivity. Qed.

Lemma sort_acc_spec (l acc : list yen_entry) :
  Forall (fun e => nonneg e.1) acc -> Forall (fun e => nonneg e.1) l ->
  len_sorted acc ->
  let r := foldl (fun acc x => insert_by_length x acc) acc l in
  len_sorted r /\ r ≡ₚ acc ++ l /\
  (forall h, head acc = Some h -> Forall (fun e => nle h.1 e.1) l -> head r = Some h).
Proof.
  revert acc. induction l as [|x l IH]; intros acc Hacc Hl Hs; simpl.
  - rewrite app_nil_r. auto.
  - inversion Hl as [|? ? Hx Hl']; subst.
    destruct (IH (insert_by_length x acc)) as (H1 & H2 & H3); auto.
    { rewrite (insert_by_length_perm x acc). constructor; assumption. }
    { apply insert_by_length_sorted; assumption. }
    split; [exact H1|]. split.
    + rewrite H2, (insert_by_length_perm x acc). apply Permutation_middle.
    + intros h Hh Hmin. inversion Hmin as [|? ? Hhx Hmin']; subst.
      apply H3; [|exact Hmin']. destruct acc as [|a acc]; [discriminate|].
      injection Hh as ->. rewrite insert_by_length_head by exact Hhx. reflexivity.
Qed.

Lemma sort_by_length_spec (l : list yen_entry) :
  Forall (fun e => nonneg e.1) l ->
  len_sorted (sort_by_length l) /\ sort_by_length l ≡ₚ l /\
  (forall h, head l = Some h -> Forall (fun e => nle h.1 e.1) l ->
             head (sort_by_length l) = Some h).
Proof.
  intros Hl. unfold sort_by_length. destruct l as [|x l].
  - simpl. split; [exact I|]. split; [reflexivity|]. intros h [=].
  - inversion Hl as [|? ? Hx Hl']; subst. simpl.
    destruct (sort_acc_spec l [x]) as (H1 & H2 & H3); auto.
    { simpl. split; [constructor|exact I]. }
    split; [exact H1|]. split; [exact H2|].
    intros h [= <-] Hmin. inversion Hmin; subst. apply H3; auto.
Qed.



Lemma slice_to_nonneg {A : Type} (K : Z) (l : list A) :
  (0 <= K)%Z -> slice_to K l = take (Z.to_nat K) l.
Proof.
  intros H. unfold slice_to. apply Z.leb_le in H. rewrite H. reflexivity.
Qed.

Lemma slice_to_nonpos_one {A : Type} (K : Z) (x : A) :
  (K <= 0)%Z -> slice_to K [x] = [].
Proof.
  intros H. unfold slice_to. destruct (0 <=? K)%Z eqn:E.
  - apply Z.leb_le in E. assert (K = 0%Z) as -> by lia. reflexivity.
  - simpl length. replace (Z.to_nat (Z.of_nat 1 + K)) with 0%nat by lia. reflexivity.
Qed.

(** ** [yen_k_shortest_paths] (C3) *)

Section YenResult.
Variable G : DiGraph.
Variables source target wk : string.
Hypothesis G_wf : graph_wf G = true.
Hypothesis G_metric : metric_ok wk G = true.

Lemma get_path_length_nonneg (p : list string) (a : num) :
  nonneg a -> nonneg (get_path_length p G wk a).
Proof.
  revert a. induction p as [|u p IH]; intros a Ha; [exact Ha|].
  destruct p as [|v p]; [exact Ha|].
  change (get_path_length (u :: v :: p) G wk a) with
    (match get_edge_data G u v with
     | Some e => match e !! wk with
                 | Some x => get_path_length (v :: p) G wk (nadd a x)
                 | None => PInf
                 end
     | None => PInf
     end).
  destruct (get_edge_data G u v) as [e|] eqn:E; [|exact I].
  destruct (metric_ok_edge wk G u v e G_metric (assoc_Some_In _ _ _ E)) as (x & -> & Hx).
  apply IH. apply nadd_nonneg; assumption.
Qed.




End YenResult.



(** ** Loops in the output of Yen's algorithm (C4) *)

Definition road (d : Q) : edge_data := {[ "distance_km" := Fin d ]}.

(** s->a, a->t and a->s of length 1, s->t of length 10. *)
Definition loop_network : DiGraph :=
  [ ("s", mk_node_entry no_coordinates [("a", road 1); ("t", road 10)]);
    ("a", mk_node_entry no_coordinates [("t", road 1); ("s", road 1)]);
    ("t", mk_node_entry no_coordinates []) ].

(** C4 fails on [yen_k_shortest_paths]: the spur search may come back through
    the root path, whose nodes are never removed from [temp_graph]; the third
    route returned here visits s twice. *)
Lemma yen_returns_a_loop :
  graph_wf loop_network = true /\ metric_ok "distance_km" loop_network = true /\
  yen_k_shortest_paths loop_network "s" "t" 3 "distance_km"
    = Return [["s"; "a"; "t"]; ["s"; "t"]; ["s"; "a"; "s"; "t"]] /\
  ~ NoDup ["s"; "a"; "s"; "t"].
Proof.
  split; [vm_compute; reflexivity|]. split; [vm_compute; reflexivity|].
  split; [vm_compute; reflexivity|].
  intros H. apply NoDup_cons in H. destruct H as [H _]. apply H.
  apply list_elem_of_In. simpl. auto.
Qed.

(** ** Parameters that are not validated (C6) *)






(** ** Heaps whose entries carry increasing counts

    Both searches push entries with the next value of a counter, so a heap
    lists its entries by increasing count, and the entry popped is the
    leftmost one of least key. *)

Lemma nltb_num_eq (a a' b b' : num) :
  num_eq a a' -> num_eq b b' -> nltb a b = nltb a' b'.
Proof.
  destruct a, a', b, b'; simpl; try tauto; intros H1 H2; unfold Qltb;
    rewrite H1, H2; reflexivity.
Qed.

Lemma neqb_num_eq (a a' b b' : num) :
  num_eq a a' -> num_eq b b' -> neqb a b = neqb a' b'.
Proof.
  destruct a, a', b, b'; simpl; try tauto; intros H1 H2; unfold Qeqb;
    rewrite H1, H2; reflexivity.
Qed.

Lemma nadd_num_eq (a a' b b' : num) :
  num_eq a a' -> num_eq b b' -> num_eq (nadd a b) (nadd a' b').
Proof.
  destruct a, a', b, b'; simpl; try tauto; intros H1 H2. rewrite H1, H2. reflexivity.
Qed.

Lemma nadd_zero_r (a h : num) : nonneg a -> num_eq h (Fin 0) -> num_eq (nadd a h) a.
Proof.
  destruct a, h; simpl; try tauto. intros _ H. rewrite H. ring.
Qed.

Lemma nleb_nltb (a b : num) : nonneg a -> nonneg b -> nleb a b = negb (nltb b a).
Proof. num_solve. Qed.

Lemma nltb_total (a b : num) :
  nonneg a -> nonneg b -> nltb a b = false -> neqb a b = false -> nltb b a = true.
Proof. num_solve. Qed.

Lemma nltb_irrefl_eq (a b : num) : num_eq a b -> nltb a b = false.
Proof. num_solve. Qed.

Lemma nltb_asym (a b : num) : nltb a b = true -> nltb b a = false.
Proof. num_solve. Qed.

Lemma num_eq_neqb (a b : num) : nonneg a -> num_eq a b -> neqb a b = true.
Proof. num_solve. Qed.

Section CountedHeap.
Context {E : Type} (key : E -> num) (cnt : E -> nat) (lt : E -> E -> bool).
Hypothesis lt_spec : forall a b,
  lt a b = if neqb (key a) (key b) then Nat.ltb (cnt a) (cnt b)
           else nltb (key a) (key b).

Fixpoint incr (bound : nat) (l : list E) : Prop :=
  match l with
  | [] => True
  | x :: l' => (cnt x < bound)%nat /\ Forall (fun y => (cnt x < cnt y)%nat) l' /\
               incr bound l'
  end.

Lemma incr_split (bound : nat) (l1 l2 : list E) (m : E) :
  incr bound (l1 ++ m :: l2) ->
  Forall (fun y => (cnt y < cnt m)%nat) l1 /\ incr bound (l1 ++ l2).
Proof.
  induction l1 as [|x l1 IH]; simpl.
  - intros (_ & _ & H). split; [constructor|exact H].
  - intros (Hx & Hall & H). destruct (IH H) as [H1 H2].
    apply Forall_app in Hall. destruct Hall as [Ha Hb].
    inversion Hb as [|? ? Hm Hc]; subst.
    split; [constructor; assumption|]. split; [exact Hx|]. split; [|exact H2].
    apply Forall_app. split; assumption.
Qed.

Lemma incr_snoc (bound : nat) (l : list E) (x : E) :
  incr bound l -> cnt x = bound -> incr (S bound) (l ++ [x]).
Proof.
  intros H Hx. induction l as [|y l IH]; simpl.
  - split; [lia|]. split; [constructor|exact I].
  - destruct H as (Hy & Hall & H). split; [lia|]. split; [|apply IH; exact H].
    apply Forall_app. split; [exact Hall|]. constructor; [lia|constructor].
Qed.

Lemma incr_bound (bound : nat) (l : list E) (x : E) :
  incr bound l -> In x l -> (cnt x < bound)%nat.
Proof.
  induction l as [|y l IH]; simpl; [tauto|].
  intros (Hy & _ & H) [<-|Hin]; auto.
Qed.

Lemma incr_distinct (bound : nat) (l1 l2 : list E) (m y : E) :
  incr bound (l1 ++ m :: l2) -> In y (l1 ++ l2) -> cnt y <> cnt m.
Proof.
  induction l1 as [|x l1 IH]; simpl.
  - intros (_ & Hall & _) Hin. rewrite Forall_forall in Hall.
    specialize (Hall y (proj2 (list_elem_of_In _ _) Hin)). lia.
  - intros (_ & Hall & H) [Hxy|Hin]; [|auto]. subst x.
    rewrite Forall_forall in Hall.
    assert (cnt y < cnt m)%nat; [|lia]. apply Hall.
    apply list_elem_of_In, in_elt.
Qed.

(** [l1 ++ m :: l2] with [m] the leftmost entry of least key *)
Definition leftmost_min (l1 : list E) (m : E) (l2 : list E) : Prop :=
  Forall (fun y => nltb (key m) (key y) = true) l1 /\
  Forall (fun y => nltb (key y) (key m) = false) l2.

Lemma lt_asym_gen (a b : E) :
  nonneg (key a) -> nonneg (key b) -> lt a b = true -> lt b a = false.
Proof.
  rewrite !lt_spec. intros Ha Hb.
  destruct (neqb (key a) (key b)) eqn:E1, (neqb (key b) (key a)) eqn:E2;
    try (intros H; apply Nat.ltb_lt in H; apply Nat.ltb_ge; lia);
    revert E1 E2; generalize (key a) (key b) Ha Hb; intros x y; num_solve.
Qed.

Lemma lt_negtrans_gen (a b c : E) :
  nonneg (key a) -> nonneg (key b) -> nonneg (key c) ->
  lt a b = false -> lt b c = false -> lt a c = false.
Proof.
  rewrite !lt_spec. intros Ha Hb Hc.
  destruct (neqb (key a) (key b)) eqn:E1, (neqb (key b) (key c)) eqn:E2,
           (neqb (key a) (key c)) eqn:E3;
    try (intros H1 H2; apply Nat.ltb_ge in H1; apply Nat.ltb_ge in H2;
         apply Nat.ltb_ge; lia);
    revert E1 E2 E3; generalize (key a) (key b) (key c) Ha Hb Hc; intros x y z;
    num_solve.
Qed.

Lemma heappop_leftmost (bound : nat) (h : list E) (m : E) (rest : list E) :
  (forall e, In e h -> nonneg (key e)) -> incr bound h ->
  heappop lt h = Some (m, rest) ->
  exists l1 l2, h = l1 ++ m :: l2 /\ rest = l1 ++ l2 /\ leftmost_min l1 m l2.
Proof.
  intros Hnn Hincr Hpop. destruct h as [|x l]; [discriminate|].
  simpl in Hpop. injection Hpop as Hpop.
  destruct (pop_min_split lt x l) as (l1 & l2 & H1 & H2).
  pose proof (pop_min_least lt (fun e => nonneg (key e)) lt_asym_gen lt_negtrans_gen x l)
    as Hleast.
  rewrite Hpop in *. cbn [fst snd] in *.
  exists l1, l2. split; [exact H1|]. split; [exact H2|].
  assert (Forall (fun e => nonneg (key e)) (x :: l)) as Hall.
  { apply Forall_forall. intros e He. apply Hnn. apply list_elem_of_In. exact He. }
  specialize (Hleast Hall).
  rewrite H1 in Hincr, Hleast, Hnn.
  destruct (incr_split _ _ _ _ Hincr) as [Hbefore _].
  assert (nonneg (key m)) as Hm by (apply Hnn, in_elt).
  split; apply Forall_forall; intros y Hy.
  - assert (In y (l1 ++ m :: l2)) as Hin.
    { apply in_app_iff. left. apply list_elem_of_In. exact Hy. }
    specialize (Hleast y Hin). rewrite lt_spec in Hleast.
    rewrite Forall_forall in Hbefore. specialize (Hbefore y Hy).
    destruct (neqb (key y) (key m)) eqn:Ek.
    + apply Nat.ltb_ge in Hleast. lia.
    + apply nltb_total; auto.
  - assert (In y (l1 ++ m :: l2)) as Hin.
    { apply in_app_iff. right. right. apply list_elem_of_In. exact Hy. }
    specialize (Hleast y Hin). rewrite lt_spec in Hleast.
    destruct (neqb (key y) (key m)) eqn:Ek; [|exact Hleast].
    revert Ek. generalize (key y) (key m). intros a b; num_solve.
Qed.

Lemma leftmost_min_unique (l1 l2 l1' l2' : list E) (m m' : E) :
  l1 ++ m :: l2 = l1' ++ m' :: l2' ->
  leftmost_min l1 m l2 -> leftmost_min l1' m' l2' ->
  l1 = l1' /\ m = m' /\ l2 = l2'.
Proof.
  intros Heq [H1 H2] [H1' H2'].
  assert (length l1 = length l1') as Hlen.
  { destruct (Nat.lt_trichotomy (length l1) (length l1')) as [Hlt|[Heq'|Hgt]]; [|exact Heq'|].
    - exfalso.
      assert ((l1' ++ m' :: l2') !! length l1 = Some m) as Hm.
      { rewrite <- Heq. rewrite lookup_app_r by lia. rewrite Nat.sub_diag. reflexivity. }
      rewrite lookup_app_l in Hm by lia.
      assert ((l1 ++ m :: l2) !! length l1' = Some m') as Hm'.
      { rewrite Heq. rewrite lookup_app_r by lia. rewrite Nat.sub_diag. reflexivity. }
      rewrite lookup_app_r in Hm' by lia.
      destruct (length l1' - length l1)%nat as [|k] eqn:Ek; [lia|]. simpl in Hm'.
      rewrite Forall_forall in H1', H2.
      pose proof (H1' m (list_elem_of_lookup_2 _ _ _ Hm)) as Ha.
      pose proof (H2 m' (list_elem_of_lookup_2 _ _ _ Hm')) as Hb.
      simpl in Ha, Hb. congruence.
    - exfalso.
      assert ((l1 ++ m :: l2) !! length l1' = Some m') as Hm'.
      { rewrite Heq. rewrite lookup_app_r by lia. rewrite Nat.sub_diag. reflexivity. }
      rewrite lookup_app_l in Hm' by lia.
      assert ((l1' ++ m' :: l2') !! length l1 = Some m) as Hm.
      { rewrite <- Heq. rewrite lookup_app_r by lia. rewrite Nat.sub_diag. reflexivity. }
      rewrite lookup_app_r in Hm by lia.
      destruct (length l1 - length l1')%nat as [|k] eqn:Ek; [lia|]. simpl in Hm.
      rewrite Forall_forall in H1, H2'.
      pose proof (H1 m' (list_elem_of_lookup_2 _ _ _ Hm')) as Ha.
      pose proof (H2' m (list_elem_of_lookup_2 _ _ _ Hm)) as Hb.
      simpl in Ha, Hb. congruence. }
  apply app_inj_1 in Heq; [|exact Hlen]. destruct Heq as [-> [= -> ->]]. auto.
Qed.

End CountedHeap.

(** ** The fringe of Dijkstra's search, entry by entry *)

Definition keyD (e : num * nat * string) : num := e.1.1.
Definition cntD (e : num * nat * string) : nat := e.1.2.

Lemma fringe_lt_spec (a b : num * nat * string) :
  fringe_lt a b = if neqb (keyD a) (keyD b) then Nat.ltb (cntD a) (cntD b)
                  else nltb (keyD a) (keyD b).
Proof. destruct a as [[d1 c1] v1], b as [[d2 c2] v2]. reflexivity. Qed.

Section DijkstraStrict.
Variable G : DiGraph.
Variable w : string -> string -> edge_data -> num.
Variables source target : string.
Hypothesis w_nonneg : forall v u e, In (u, e) (G_succ G v) -> nonneg (w v u e).

(** Every unsettled node that was seen has one entry at its best known
    distance and otherwise entries at larger distances; the entries left for
    a settled node are at distances larger than its own. *)
Record strict_inv (st : dijkstra_state) : Prop := {
  s_incr : incr cntD (count st) (fringe st);
  s_cur : forall u su, seen st !! u = Some su -> dist st !! u = None ->
          exists c0, In (su, c0, u) (fringe st) /\
            forall d' c', In (d', c', u) (fringe st) ->
                          (d' = su /\ c' = c0) \/ nltb su d' = true;
  s_stale : forall d' c' u du, In (d', c', u) (fringe st) -> dist st !! u = Some du ->
            nltb du d' = true;
  s_exact : forall v dv, dist st !! v = Some dv -> seen st !! v = Some dv;
  s_seen : forall u su, seen st !! u = Some su -> nonneg su
}.

Lemma strict_pop (st : dijkstra_state) (d : num) (c : nat) (v : string)
    (rest : list (num * nat * string)) :
  nn_inv G source target st -> strict_inv st ->
  heappop fringe_lt (fringe st) = Some ((d, c, v), rest) ->
  exists l1 l2, fringe st = l1 ++ (d, c, v) :: l2 /\ rest = l1 ++ l2 /\
                leftmost_min keyD l1 (d, c, v) l2 /\ incr cntD (count st) rest /\
                forall e, In e rest -> cntD e <> c.
Proof.
  intros N I Hpop.
  destruct (heappop_leftmost keyD cntD fringe_lt fringe_lt_spec (count st)
              (fringe st) (d, c, v) rest) as (l1 & l2 & H1 & H2 & H3); auto.
  { intros [[d' c'] u'] He. apply (nn_key _ _ _ _ N d' c' u' He). }
  { apply (s_incr _ I). }
  exists l1, l2. split; [exact H1|]. split; [exact H2|]. split; [exact H3|].
  pose proof (s_incr _ I) as Hincr. rewrite H1 in Hincr. rewrite H2. split.
  - apply (incr_split cntD _ _ _ _ Hincr).
  - intros e He. apply (incr_distinct cntD _ _ _ _ _ Hincr He).
Qed.

Lemma strict_skip (st : dijkstra_state) (d : num) (c : nat) (v : string)
    (rest : list (num * nat * string)) (dv : num) :
  nn_inv G source target st -> strict_inv st ->
  heappop fringe_lt (fringe st) = Some ((d, c, v), rest) ->
  dist st !! v = Some dv ->
  strict_inv (mk_dijkstra_state (dist st) (seen st) (paths st) rest (count st)).
Proof.
  intros N I Hpop Hv.
  destruct (strict_pop st d c v rest N I Hpop) as (l1 & l2 & H1 & H2 & _ & Hincr & _).
  destruct (heappop_In _ _ _ _ Hpop) as [Hin Hrest].
  pose proof (heappop_In_inv _ _ _ _ Hpop) as Hinv.
  destruct I. constructor; simpl; auto.
  - intros u su Hsu Hu. destruct (s_cur0 u su Hsu Hu) as (c0 & Hc0 & Hall).
    exists c0. split; [|eauto].
    destruct (Hinv _ Hc0) as [[= _ _ ->]|H]; [congruence|exact H].
  - intros d' c' u du Hin'. eauto.
Qed.

Lemma strict_settle (st : dijkstra_state) (d : num) (c : nat) (v : string)
    (rest : list (num * nat * string)) :
  nn_inv G source target st -> strict_inv st ->
  heappop fringe_lt (fringe st) = Some ((d, c, v), rest) ->
  dist st !! v = None ->
  seen st !! v = Some d /\
  strict_inv (mk_dijkstra_state (<[v := d]> (dist st)) (seen st) (paths st) rest (count st)).
Proof.
  intros N I Hpop Hv.
  destruct (strict_pop st d c v rest N I Hpop) as (l1 & l2 & H1 & H2 & _ & Hincr & Hcnt).
  destruct (heappop_In _ _ _ _ Hpop) as [Hin Hrest].
  pose proof (heappop_In_inv _ _ _ _ Hpop) as Hinv.
  assert (forall e, In e (fringe st) -> key_ok e) as Hok.
  { intros [[d' c'] u'] He. apply (nn_key _ _ _ _ N d' c' u' He). }
  pose proof (fringe_pop_least _ _ _ _ _ Hok Hpop) as Hleast.
  destruct (nn_fseen _ _ _ _ N d c v Hin) as [su Hsu].
  destruct (s_cur _ I v su Hsu Hv) as (c0 & Hc0 & Hall).
  assert (d = su /\ c = c0) as [-> ->].
  { destruct (Hall d c Hin) as [H|Hlt]; [exact H|].
    exfalso. pose proof (Hleast _ Hc0) as Hf. unfold fringe_lt in Hf.
    rewrite (nltb_neqb _ _ Hlt), Hlt in Hf. discriminate. }
  split; [exact Hsu|].
  destruct I. constructor; simpl; auto.
  - intros u su' Hsu'. rewrite lookup_insert_None. intros [Hu Hne].
    destruct (s_cur0 u su' Hsu' Hu) as (c1 & Hc1 & Hall1).
    exists c1. split; [|eauto].
    destruct (Hinv _ Hc1) as [[= _ _ ->]|H]; [congruence|exact H].
  - intros d' c' u du Hin'. rewrite lookup_insert_Some. intros [[<- <-]|[Hne Hu]].
    + destruct (Hall d' c' (Hrest _ Hin')) as [[-> ->]|Hlt]; [|exact Hlt].
      exfalso. apply (Hcnt _ Hin'). reflexivity.
    + eauto.
  - intros x dx. rewrite lookup_insert_Some. intros [[<- <-]|[Hne Hx]]; auto.
Qed.

Lemma relax_strict (v : string) (d : num) (pre : list (string * edge_data))
    (st st' : dijkstra_state) (ue : string * edge_data) :
  nn_mid G source target v d pre st -> strict_inv st ->
  In ue (G_succ G v) ->
  relax w v d st ue = Return st' -> strict_inv st'.
Proof.
  intros N I Hin E. destruct ue as [u e].
  pose proof (w_nonneg v u e Hin) as Hw.
  pose proof (m_d _ _ _ _ _ _ _ N) as Hd.
  set (vu := nadd d (w v u e)) in *.
  assert (nonneg vu) as Hvu by (apply nadd_nonneg; assumption).
  assert (forall pv, dist st !! u = None ->
    (seen st !! u = None \/ exists su, seen st !! u = Some su /\ nltb vu su = true) ->
    strict_inv (mk_dijkstra_state (dist st) (<[u := vu]> (seen st))
         (<[u := pv ++ [u]]> (paths st))
         (heappush (fringe st) (vu, count st, u))
         (S (count st)))) as Hpush.
  { intros pv Hu Hseen. destruct I. constructor; simpl; unfold heappush.
    - apply incr_snoc; auto.
    - intros x sx. destruct (decide (u = x)) as [<-|Hne].
      + rewrite lookup_insert_eq. intros [= <-] _. exists (count st). split.
        * apply in_app_iff. simpl. auto.
        * intros d' c'. rewrite in_app_iff. simpl. intros [H|[[= <- <-]|[]]]; [|auto].
          right. destruct Hseen as [Hn|(su & Hsu & Hlt)].
          -- destruct (m_fseen _ _ _ _ _ _ _ N d' c' u H) as [? ?]. congruence.
          -- destruct (s_cur0 u su Hsu Hu) as (c0 & _ & Hall).
             destruct (Hall d' c' H) as [[-> _]|Hlt']; [exact Hlt|].
             eapply nltb_trans; eauto.
      + rewrite lookup_insert_ne by exact Hne. intros Hsx Hdx.
        destruct (s_cur0 x sx Hsx Hdx) as (c0 & Hc0 & Hall). exists c0. split.
        * apply in_app_iff. auto.
        * intros d' c'. rewrite in_app_iff. simpl.
          intros [H|[[= <- <- <-]|[]]]; [eauto|congruence].
    - intros d' c' x dx. rewrite in_app_iff. simpl.
      intros [H|[[= <- <- <-]|[]]] Hx; [eauto|congruence].
    - intros x dx Hx. rewrite lookup_insert_ne; [auto|]. intros <-. congruence.
    - intros x sx. rewrite lookup_insert_Some. intros [[<- <-]|[_ H]]; eauto. }
  unfold relax in E. fold vu in E.
  destruct (dist st !! u) as [du|] eqn:Hu.
  - destruct (nltb vu du); [discriminate|]. injection E as <-. exact I.
  - destruct (seen st !! u) as [su|] eqn:Hs.
    + destruct (nltb vu su) eqn:Hlt.
      * destruct (paths st !! v) as [pv|] eqn:Hpv; [|discriminate].
        injection E as <-. apply Hpush; eauto.
      * injection E as <-. exact I.
    + destruct (paths st !! v) as [pv|] eqn:Hpv; [|discriminate].
      injection E as <-. apply Hpush; eauto.
Qed.

Lemma strict_inv_init_step :
  strict_inv (mk_dijkstra_state {[ source := Fin 0 ]} {[ source := Fin 0 ]}
                {[ source := [source] ]} [] 1%nat).
Proof.
  constructor; simpl.
  - exact I.
  - intros u su. rewrite lookup_singleton_Some. intros [<- <-].
    rewrite lookup_singleton_eq. discriminate.
  - intros d' c' u du [].
  - intros v dv H. exact H.
  - intros u su. rewrite lookup_singleton_Some. intros [_ <-]. simpl. lra.
Qed.

End DijkstraStrict.

(** ** A* with a vanishing heuristic runs as Dijkstra's search *)

Lemma astar_loop_unfold (G : DiGraph) (h : string -> string -> num)
    (w : string -> string -> edge_data -> num) (t : string) (fuel : nat)
    (st : astar_state) :
  astar_loop G h w t (S fuel) st =
  match astar_step G h w t st with
  | Continue st' => astar_loop G h w t fuel st'
  | Stop r => r
  end.
Proof.
  unfold astar_step. simpl.
  destruct (heappop queue_lt (queue st)) as [[[[[[pri c] u] d] par] rest]|]; [|reflexivity].
  destruct (decide (u = t)); [reflexivity|].
  destruct (explored st !! u) as [[p|]|]; try reflexivity.
  destruct (enqueued st !! u) as [[q hq]|]; [|reflexivity].
  destruct (nltb q d); reflexivity.
Qed.

Definition keyA (e : astar_entry) : num := e.1.1.1.1.
Definition cntA (e : astar_entry) : nat := e.1.1.1.2.
Definition nodeA (e : astar_entry) : string := e.1.1.2.
Definition costA (e : astar_entry) : num := e.1.2.
Definition parA (e : astar_entry) : option string := e.2.

Lemma queue_lt_spec (a b : astar_entry) :
  queue_lt a b = if neqb (keyA a) (keyA b) then Nat.ltb (cntA a) (cntA b)
                 else nltb (keyA a) (keyA b).
Proof.
  destruct a as [[[[p1 c1] u1] d1] r1], b as [[[[p2 c2] u2] d2] r2]. reflexivity.
Qed.

(** an entry of the fringe and the entry of the queue pushed with it *)
Definition rel (eD : num * nat * string) (eA : astar_entry) : Prop :=
  eD.2 = nodeA eA /\ num_eq (costA eA) (keyD eD).

Lemma Forall2_rel_In {A B : Type} (R : A -> B -> Prop) (l : list A) (k : list B) (b : B) :
  Forall2 R l k -> In b k -> exists a, In a l /\ R a b.
Proof.
  induction 1 as [|a b' l k Hab H IH]; simpl; [tauto|].
  intros [<-|Hin]; [eauto|]. destruct (IH Hin) as (a' & Ha & Hr). eauto.
Qed.

Section Simulation.
Variable G : DiGraph.
Variables wD wA : string -> string -> edge_data -> num.
Variable h : string -> string -> num.
Variables source target : string.
Hypothesis wD_nonneg : forall v u e, In (u, e) (G_succ G v) -> nonneg (wD v u e).
Hypothesis w_eq : forall v u e, In (u, e) (G_succ G v) -> num_eq (wA v u e) (wD v u e).
Hypothesis h_zero : forall u, num_eq (h u target) (Fin 0).
Hypothesis source_target : source <> target.

Definition proper (e : astar_entry) : Prop := nodeA e <> source.

Instance proper_dec (e : astar_entry) : Decision (proper e).
Proof. unfold proper. apply _. Defined.

Record sim (D : dijkstra_state) (S : astar_state) : Prop := {
  sim_queue : Forall2 rel (fringe D) (filter proper (queue S));
  sim_ns : forall d c u, In (d, c, u) (fringe D) -> u <> source;
  sim_key : forall e, In e (queue S) -> nonneg (costA e) /\ num_eq (keyA e) (costA e);
  sim_incr : incr cntA (acount S) (queue S);
  sim_enq : forall u, u <> source ->
            match seen D !! u, enqueued S !! u with
            | None, None => True
            | Some su, Some qh => num_eq qh.1 su
            | _, _ => False
            end;
  sim_h : forall u qh, enqueued S !! u = Some qh -> num_eq qh.2 (Fin 0);
  sim_src : explored S !! source = Some None /\ is_Some (dist D !! source) /\
            paths D !! source = Some [source];
  sim_dom : forall v, is_Some (explored S !! v) <-> is_Some (dist D !! v);
  sim_par : forall v p, explored S !! v = Some (Some p) ->
            exists pv, paths D !! p = Some pv /\ paths D !! v = Some (pv ++ [v]) /\
                       is_Some (explored S !! p);
  sim_none : forall v, explored S !! v = Some None -> v = source;
  sim_path : forall e, In e (queue S) -> proper e ->
             forall su, seen D !! nodeA e = Some su -> dist D !! nodeA e = None ->
             num_eq (costA e) su ->
             exists p pv, parA e = Some p /\ paths D !! p = Some pv /\
                          is_Some (explored S !! p) /\
                          paths D !! nodeA e = Some (pv ++ [nodeA e]);
  sim_len : forall v pv, is_Some (explored S !! v) -> paths D !! v = Some pv ->
            (length pv <= size (explored S))%nat
}.


Lemma nleb_true_of_nle (a b a' b' : num) :
  nonneg a -> nonneg b -> nle a b -> num_eq a' a -> num_eq b' b -> nleb a' b' = true.
Proof. num_solve. Qed.

Lemma nleb_push_agree (vu sy ncost q : num) :
  nonneg vu -> nonneg sy -> num_eq ncost vu -> num_eq q sy ->
  nleb q ncost = negb (nltb vu sy).
Proof. num_solve. Qed.

Lemma expand_sim (v : string) (d dA : num) (pre : list (string * edge_data))
    (D D' : dijkstra_state) (S : astar_state) (ue : string * edge_data) :
  nn_mid G source target v d pre D -> strict_inv D -> sim D S ->
  num_eq dA d -> In ue (G_succ G v) ->
  relax wD v d D ue = Return D' ->
  sim D' (expand h wA target v dA S ue).
Proof.
  intros N I R HdA Hin E. destruct ue as [y e].
  pose proof (wD_nonneg v y e Hin) as Hw.
  pose proof (w_eq v y e Hin) as Hweq.
  pose proof (m_d _ _ _ _ _ _ _ N) as Hd.
  pose proof (m_v _ _ _ _ _ _ _ N) as Hdv.
  set (vu := nadd d (wD v y e)) in *.
  set (ncost := nadd dA (wA v y e)).
  assert (nonneg vu) as Hvu by (apply nadd_nonneg; assumption).
  assert (nle d vu) as Hdvu by (apply nle_nadd_r; assumption).
  assert (num_eq ncost vu) as Hnc by (apply nadd_num_eq; assumption).
  assert (nonneg ncost) as Hncnn.
  { eapply nonneg_num_eq; [exact Hvu|]. apply num_eq_sym. exact Hnc. }
  unfold expand. fold ncost.
  set (push := fun hq : num =>
    mk_astar_state
      (heappush (queue S) (nadd ncost hq, acount S, y, ncost, Some v))
      (<[y := (ncost, hq)]> (enqueued S)) (explored S) (Datatypes.S (acount S))).
  (* a push for the source changes nothing that the relation reads *)
  assert (forall hq, y = source -> num_eq hq (Fin 0) -> sim D (push hq)) as Hjunk.
  { intros hq -> Hhq. destruct R. constructor; simpl; unfold heappush; auto.
    - rewrite filter_app, filter_cons_False, filter_nil, app_nil_r by (unfold proper; simpl; tauto).
      exact sim_queue0.
    - intros e0. rewrite in_app_iff. simpl. intros [H|[<-|[]]]; [auto|].
      unfold costA, keyA. simpl. split; [exact Hncnn|]. apply nadd_zero_r; assumption.
    - apply incr_snoc; auto.
    - intros u Hu. rewrite lookup_insert_ne by congruence. apply sim_enq0. exact Hu.
    - intros u qh. rewrite lookup_insert_Some. intros [[_ <-]|[_ H]]; [exact Hhq|eauto].
    - intros e0. rewrite in_app_iff. simpl. intros [H|[<-|[]]] Hp; [exact (sim_path0 e0 H Hp)|].
      exfalso. apply Hp. reflexivity. }
  (* both searches push an entry for [y] *)
  assert (forall hq pv, y <> source -> num_eq hq (Fin 0) ->
    dist D !! y = None -> paths D !! v = Some pv ->
    (seen D !! y = None \/ exists sy, seen D !! y = Some sy /\ nltb vu sy = true) ->
    sim (mk_dijkstra_state (dist D) (<[y := vu]> (seen D))
           (<[y := pv ++ [y]]> (paths D))
           (heappush (fringe D) (vu, count D, y)) (Datatypes.S (count D)))
        (push hq)) as Hboth.
  { intros hq pv Hys Hhq Hy Hpv Hseen.
    assert (forall x, is_Some (dist D !! x) -> x <> y) as Hdy.
    { intros x [dx Hx] ->. congruence. }
    assert (forall x, is_Some (explored S !! x) -> x <> y) as Hey.
    { intros x Hx. apply Hdy. apply (sim_dom _ _ R). exact Hx. }
    destruct R. constructor; simpl; unfold heappush.
    - rewrite filter_app, filter_cons_True, filter_nil by exact Hys.
      apply Forall2_app; [exact sim_queue0|]. constructor; [|constructor].
      split; [reflexivity|exact Hnc].
    - intros d' c' u. rewrite in_app_iff. simpl. intros [H|[[= <- <- <-]|[]]]; eauto.
    - intros e0. rewrite in_app_iff. simpl. intros [H|[<-|[]]]; [auto|].
      unfold costA, keyA. simpl. split; [exact Hncnn|]. apply nadd_zero_r; assumption.
    - apply incr_snoc; auto.
    - intros u Hu. destruct (decide (y = u)) as [<-|Hne].
      + rewrite !lookup_insert_eq. exact Hnc.
      + rewrite !lookup_insert_ne by exact Hne. apply sim_enq0. exact Hu.
    - intros u qh. rewrite lookup_insert_Some. intros [[_ <-]|[_ H]]; [exact Hhq|eauto].
    - destruct sim_src0 as (H1 & H2 & H3). split; [exact H1|]. split; [exact H2|].
      rewrite lookup_insert_ne by auto. exact H3.
    - exact sim_dom0.
    - intros x p Hx. destruct (sim_par0 x p Hx) as (px & H1 & H2 & H3).
      exists px. rewrite !lookup_insert_ne; auto.
      + apply not_eq_sym, Hey. rewrite Hx. eauto.
      + apply not_eq_sym, Hey. exact H3.
    - exact sim_none0.
    - intros e0. rewrite in_app_iff. simpl. intros [H|[<-|[]]] Hp su.
      + destruct (decide (y = nodeA e0)) as [Heq|Hne].
        * (* an older entry for [y]: its cost is above the new distance *)
          rewrite <- Heq. rewrite lookup_insert_eq. intros [= <-] _ Hcost. exfalso.
          assert (In e0 (filter proper (queue S))) as Hf.
          { apply list_elem_of_In, list_elem_of_filter. split; [exact Hp|].
            apply list_elem_of_In. exact H. }
          destruct (Forall2_rel_In _ _ _ _ sim_queue0 Hf) as ([[d' c'] u'] & HeD & Hn & Hc).
          simpl in Hn, Hc. unfold keyD in Hc. simpl in Hc. subst u'. rewrite <- Heq in HeD.
          destruct Hseen as [Hnone|(sy & Hsy & Hlt)].
          -- destruct (m_fseen _ _ _ _ _ _ _ N d' c' y HeD) as [? ?]. congruence.
          -- destruct (s_cur _ I y sy Hsy Hy) as (c0 & _ & Hall).
             assert (nltb vu d' = true) as Hvd.
             { destruct (Hall d' c' HeD) as [[-> _]|Hlt']; [exact Hlt|].
               eapply nltb_trans; eauto. }
             rewrite (nltb_num_eq vu (costA e0) d' d') in Hvd.
             ++ rewrite (nltb_irrefl_eq _ _ Hc) in Hvd. discriminate.
             ++ apply num_eq_sym. exact Hcost.
             ++ apply num_eq_refl.
        * rewrite !lookup_insert_ne by exact Hne. intros Hsu Hdu Hcost.
          destruct (sim_path0 e0 H Hp su Hsu Hdu Hcost) as (p & px & H1 & H2 & H3 & H4).
          exists p, px. rewrite lookup_insert_ne; auto.
          apply not_eq_sym, Hey. exact H3.
      + unfold nodeA, parA, costA. simpl. intros _ _ _.
        exists v, pv. rewrite lookup_insert_eq.
        rewrite lookup_insert_ne by (apply not_eq_sym, Hdy; rewrite Hdv; eauto).
        split; [reflexivity|]. split; [exact Hpv|]. split; [|reflexivity].
        apply sim_dom0. rewrite Hdv. eauto.
    - intros x px Hx. rewrite lookup_insert_ne by (apply not_eq_sym, Hey, Hx).
      apply sim_len0. exact Hx. }
  assert (is_Some (paths D !! v)) as [pv Hpv].
  { apply (m_paths_d _ _ _ _ _ _ _ N). rewrite Hdv. eauto. }
  unfold relax in E. fold vu in E. rewrite Hpv in E.
  destruct (decide (y = source)) as [Hys|Hys].
  - (* an edge back to the source *)
    destruct (sim_src _ _ R) as (_ & [ds Hds] & _). rewrite Hys in E. rewrite Hds in E.
    destruct (nltb vu ds); [discriminate|]. injection E as <-.
    destruct (enqueued S !! y) as [[q hq]|] eqn:Eq.
    + destruct (nleb q ncost); [exact R|]. apply Hjunk; [exact Hys|].
      apply (sim_h _ _ R y (q, hq) Eq).
    + apply Hjunk; [exact Hys|apply h_zero].
  - pose proof (sim_enq _ _ R y Hys) as Henq.
    destruct (dist D !! y) as [dy|] eqn:Hy.
    + (* [y] is settled: nothing is pushed *)
      destruct (nltb vu dy); [discriminate|]. injection E as <-.
      rewrite (s_exact _ I y dy Hy) in Henq.
      destruct (enqueued S !! y) as [[q hq]|] eqn:Eq; [|destruct Henq].
      simpl in Henq.
      assert (nleb q ncost = true) as ->; [|exact R].
      apply (nleb_true_of_nle dy vu); auto.
      * apply (m_dist _ _ _ _ _ _ _ N y dy Hy).
      * eapply nle_trans; [apply (m_le _ _ _ _ _ _ _ N y dy Hy)|exact Hdvu].
    + destruct (seen D !! y) as [sy|] eqn:Hsy.
      * destruct (enqueued S !! y) as [[q hq]|] eqn:Eq; [|destruct Henq].
        simpl in Henq.
        rewrite (nleb_push_agree vu sy ncost q); auto.
        2:{ apply (s_seen _ I y sy Hsy). }
        destruct (nltb vu sy) eqn:Hlt; simpl; injection E as <-.
        -- apply Hboth; eauto. apply (sim_h _ _ R y (q, hq) Eq).
        -- exact R.
      * destruct (enqueued S !! y) as [[q hq]|] eqn:Eq; [destruct Henq|].
        injection E as <-. apply Hboth; auto.
Qed.


Lemma expand_shape (v : string) (dA : num) (S : astar_state) (ue : string * edge_data) :
  explored (expand h wA target v dA S ue) = explored S /\
  (length (queue (expand h wA target v dA S ue)) <= Datatypes.S (length (queue S)))%nat.
Proof.
  destruct ue as [y e]. unfold expand.
  destruct (enqueued S !! y) as [[q hq]|]; [destruct (nleb q _)|]; simpl;
    unfold heappush; rewrite ?length_app; simpl; split; auto; lia.
Qed.

(** The two loops over the successors of a settled node, side by side. *)
Lemma expand_all_sim (v : string) (d dA : num) (l : list (string * edge_data)) :
  num_eq dA d -> (forall x, In x l -> In x (G_succ G v)) ->
  forall pre D S, nn_mid G source target v d pre D -> strict_inv D -> sim D S ->
  exists D', for_each (relax wD v d) l D = Return D' /\
             nn_mid G source target v d (pre ++ l) D' /\ strict_inv D' /\
             sim D' (foldl (expand h wA target v dA) S l) /\
             (length (queue (foldl (expand h wA target v dA) S l))
              <= length (queue S) + length l)%nat.
Proof.
  intros HdA. induction l as [|x l IH]; intros Hl pre D S N I R.
  - exists D. simpl. rewrite app_nil_r.
    split; [reflexivity|]. split; [exact N|]. split; [exact I|]. split; [exact R|]. lia.
  - assert (In x (G_succ G v)) as Hx by (apply Hl; left; reflexivity).
    destruct (relax_nn G wD source target wD_nonneg v d pre D x N Hx) as (D1 & E1 & N1).
    pose proof (relax_strict G wD source target wD_nonneg v d pre D D1 x N I Hx E1) as I1.
    pose proof (expand_sim v d dA pre D D1 S x N I R HdA Hx E1) as R1.
    destruct (IH (fun y Hy => Hl y (or_intror Hy)) (pre ++ [x]) D1 _ N1 I1 R1)
      as (D' & E' & N' & I' & R' & Hlen).
    exists D'. simpl. rewrite E1. simpl.
    split; [exact E'|]. rewrite <- app_assoc in N'. split; [exact N'|].
    split; [exact I'|]. split; [exact R'|].
    destruct (expand_shape v dA S x) as [_ H1]. lia.
Qed.

(** Walking back along the parents gives the path that Dijkstra's search
    recorded, within the iterations allowed. *)
Lemma reconstruct_spec (D : dijkstra_state) (S : astar_state) :
  sim D S -> forall fuel p pv acc,
  is_Some (explored S !! p) -> paths D !! p = Some pv -> (length pv <= fuel)%nat ->
  reconstruct fuel (explored S) (Some p) acc = Return (acc ++ reverse pv).
Proof.
  intros R. induction fuel as [|fuel IH]; intros p pv acc [o Ho] Hpv Hlen.
  - exfalso. destruct o as [q|].
    + destruct (sim_par _ _ R p q Ho) as (pq & _ & H & _).
      rewrite Hpv in H. injection H as ->.
      rewrite length_app in Hlen. simpl in Hlen. lia.
    + rewrite (sim_none _ _ R p Ho) in Hpv.
      destruct (sim_src _ _ R) as (_ & _ & H). rewrite Hpv in H. injection H as ->.
      simpl in Hlen. lia.
  - simpl. rewrite Ho. destruct o as [q|].
    + destruct (sim_par _ _ R p q Ho) as (pq & Hq & H & Hex).
      rewrite Hpv in H. injection H as ->.
      rewrite (IH q pq (acc ++ [p]) Hex Hq).
      2:{ rewrite length_app in Hlen. simpl in Hlen. lia. }
      rewrite reverse_app. simpl. rewrite <- app_assoc. reflexivity.
    + pose proof (sim_none _ _ R p Ho) as ->.
      destruct (sim_src _ _ R) as (_ & _ & H). rewrite Hpv in H. injection H as ->.
      destruct fuel; reflexivity.
Qed.

Lemma filter_proper_In (l : list astar_entry) (e : astar_entry) :
  In e (filter proper l) <-> In e l /\ proper e.
Proof. rewrite <- !list_elem_of_In, list_elem_of_filter. tauto. Qed.

(** Entries that correspond compare alike. *)
Lemma rel_keys (b : bool) (f : list (num * nat * string)) (k : list astar_entry)
    (mD : num * nat * string) (m : astar_entry) :
  Forall2 rel f k -> (forall e, In e k -> num_eq (keyA e) (costA e)) ->
  num_eq (keyA m) (keyD mD) ->
  ((forall y, In y k -> nltb (keyA m) (keyA y) = b) ->
   Forall (fun y => nltb (keyD mD) (keyD y) = b) f) /\
  ((forall y, In y k -> nltb (keyA y) (keyA m) = b) ->
   Forall (fun y => nltb (keyD y) (keyD mD) = b) f).
Proof.
  intros HF Hk Hm. induction HF as [|x y f k [_ Hxy] HF IH].
  - split; constructor.
  - assert (num_eq (keyA y) (keyD x)) as Hy.
    { eapply num_eq_trans; [apply Hk; left; reflexivity|exact Hxy]. }
    destruct IH as [IH1 IH2]; [intros e He; apply Hk; right; exact He|].
    split; intros H; constructor.
    + rewrite <- (nltb_num_eq _ _ _ _ Hm Hy). apply H. left. reflexivity.
    + apply IH1. intros z Hz. apply H. right. exact Hz.
    + rewrite <- (nltb_num_eq _ _ _ _ Hy Hm). apply H. left. reflexivity.
    + apply IH2. intros z Hz. apply H. right. exact Hz.
Qed.

(** An entry leaves the queue, and the fringe keeps the entries that
    correspond to the rest. *)
Lemma sim_pop (D : dijkstra_state) (S : astar_state) (l1 l2 : list astar_entry)
    (m : astar_entry) (fD : list (num * nat * string)) :
  sim D S -> queue S = l1 ++ m :: l2 ->
  Forall2 rel fD (filter proper (l1 ++ l2)) ->
  (forall e, In e fD -> In e (fringe D)) ->
  sim (mk_dijkstra_state (dist D) (seen D) (paths D) fD (count D))
      (mk_astar_state (l1 ++ l2) (enqueued S) (explored S) (acount S)).
Proof.
  intros R Hq HF Hsub.
  assert (forall e, In e (l1 ++ l2) -> In e (queue S)) as Hin.
  { intros e. rewrite Hq, !in_app_iff. simpl. tauto. }
  destruct R. constructor; simpl; auto.
  - intros d c u He. eapply sim_ns0, Hsub, He.
  - rewrite Hq in sim_incr0. apply (incr_split cntA _ _ _ _ sim_incr0).
  - intros e He. apply sim_path0, Hin, He.
Qed.

(** The node of the entry popped is settled on one side and explored on the
    other. *)
Lemma sim_settle (D : dijkstra_state) (S : astar_state) (v : string) (d : num)
    (p : string) (pv : list string) :
  sim D S -> dist D !! v = None -> v <> source ->
  paths D !! p = Some pv -> is_Some (explored S !! p) ->
  paths D !! v = Some (pv ++ [v]) ->
  sim (mk_dijkstra_state (<[v := d]> (dist D)) (seen D) (paths D) (fringe D) (count D))
      (mk_astar_state (queue S) (enqueued S) (<[v := Some p]> (explored S)) (acount S)).
Proof.
  intros R Hv Hvs Hp Hpex Hpv.
  assert (explored S !! v = None) as Hex.
  { destruct (explored S !! v) eqn:E; [|reflexivity].
    assert (is_Some (dist D !! v)) as [? ?]; [|congruence].
    apply (sim_dom _ _ R). rewrite E. eauto. }
  destruct R. constructor; simpl; auto.
  - destruct sim_src0 as (H1 & H2 & H3). rewrite lookup_insert_ne by exact Hvs.
    split; [exact H1|]. split; [|exact H3]. rewrite lookup_insert_is_Some'. auto.
  - intros x. rewrite !lookup_insert_is_Some'. pose proof (sim_dom0 x). tauto.
  - intros x q. rewrite lookup_insert_Some. intros [[<- [= <-]]|[Hne Hx]].
    + exists pv. rewrite lookup_insert_is_Some'. auto.
    + destruct (sim_par0 x q Hx) as (pq & H1 & H2 & H3).
      exists pq. rewrite lookup_insert_is_Some'. auto.
  - intros x. rewrite lookup_insert_Some. intros [[_ [=]]|[_ Hx]]. auto.
  - intros e He Hpe su Hsu. rewrite lookup_insert_None. intros [Hdu Hne] Hc.
    destruct (sim_path0 e He Hpe su Hsu Hdu Hc) as (q & pq & H1 & H2 & H3 & H4).
    exists q, pq. rewrite lookup_insert_is_Some'. auto.
  - intros x px. rewrite lookup_insert_is_Some'. rewrite map_size_insert, Hex.
    intros [<-|Hx] Hpx.
    + rewrite Hpv in Hpx. injection Hpx as <-. rewrite length_app. simpl.
      pose proof (sim_len0 p pv Hpex Hp). lia.
    + pose proof (sim_len0 x px Hx Hpx). lia.
Qed.

(** One round of A* is one round of Dijkstra's search, or the removal of an
    entry for the source that Dijkstra's search never pushed. *)
Lemma sim_step (D : dijkstra_state) (S : astar_state) :
  nn_inv G source target D -> strict_inv D -> sim D S ->
  match astar_step G h wA target S with
  | Continue S' =>
      (sim D S' /\ (length (queue S') < length (queue S))%nat) \/
      exists D', dijkstra_step G wD target D = Continue D' /\
                 nn_inv G source target D' /\ strict_inv D' /\ sim D' S' /\
                 (length (queue S') + pending G (dist D') <
                  length (queue S) + pending G (dist D))%nat
  | Stop r =>
      exists D', dijkstra_step G wD target D = Stop (Return D') /\
                 r = match dist D' !! target, paths D' !! target with
                     | Some _, Some p => Return p
                     | _, _ => Raise NetworkXNoPath
                     end
  end.
Proof.
  intros N I R. unfold astar_step.
  destruct (heappop queue_lt (queue S)) as [[m rest]|] eqn:HpopA.
  2:{ assert (queue S = []) as Hq by (destruct (queue S); [reflexivity|discriminate]).
      pose proof (sim_queue _ _ R) as HF. rewrite Hq, filter_nil in HF.
      apply Forall2_nil_inv_r in HF.
      exists D. unfold dijkstra_step. rewrite HF. simpl.
      split; [reflexivity|]. rewrite (nn_target _ _ _ _ N). reflexivity. }
  destruct (heappop_leftmost keyA cntA queue_lt queue_lt_spec (acount S) (queue S) m rest)
    as (l1 & l2 & Hq & Hrest & Hmin); [| |exact HpopA|].
  { intros e He. destruct (sim_key _ _ R e He) as [H1 H2].
    eapply nonneg_num_eq; [exact H1|apply num_eq_sym; exact H2]. }
  { apply (sim_incr _ _ R). }
  assert (In m (queue S)) as Hm by (rewrite Hq; apply in_app_iff; right; left; reflexivity).
  assert (length (queue S) = Datatypes.S (length rest)) as Hlen.
  { rewrite Hq, Hrest, !length_app. simpl. lia. }
  destruct m as [[[[k c] v] dA] par].
  destruct (decide (v = source)) as [Hvs|Hvs].
  - (* an entry for the source *)
    destruct (decide (v = target)) as [Hvt|_]; [congruence|].
    destruct (sim_src _ _ R) as (Hsrc & _). rewrite Hvs, Hsrc. left. simpl.
    split; [|lia].
    pose proof (sim_pop D S l1 l2 _ (fringe D) R Hq) as HP.
    rewrite Hrest. destruct D; simpl in *. apply HP; [|auto].
    rewrite filter_app. pose proof (sim_queue _ _ R) as HF. simpl in HF.
    rewrite Hq, filter_app, filter_cons_False in HF; [exact HF|].
    unfold proper, nodeA. simpl. tauto.
  - assert (proper (k, c, v, dA, par)) as Hpm by exact Hvs.
    pose proof (sim_queue _ _ R) as HF.
    rewrite Hq, filter_app, filter_cons_True in HF by exact Hpm.
    apply Forall2_app_inv_r in HF. destruct HF as (f1 & f2' & HF1 & HF2 & HfD).
    apply Forall2_cons_inv_r in HF2. destruct HF2 as ([[d cD] v'] & f2 & Hrel & HF2 & ->).
    destruct Hrel as [Hv' HdA]. change (v' = v) in Hv'. change (num_eq dA d) in HdA.
    subst v'.
    assert (num_eq k d) as Hk.
    { eapply num_eq_trans; [|exact HdA]. apply (sim_key _ _ R _ Hm). }
    assert (forall e, In e (l1 ++ l2) -> num_eq (keyA e) (costA e)) as Hkeys.
    { intros e He. apply (sim_key _ _ R). rewrite Hq.
      rewrite in_app_iff in *. simpl. tauto. }
    assert (leftmost_min keyD f1 (d, cD, v) f2) as HminD.
    { destruct Hmin as [Hm1 Hm2]. split.
      - eapply (rel_keys true f1 (filter proper l1) (d, cD, v) (k, c, v, dA, par)); [exact HF1| |exact Hk|].
        + intros e He. apply filter_proper_In in He. apply Hkeys, in_app_iff. tauto.
        + intros y Hy. apply filter_proper_In in Hy.
          apply (proj1 (List.Forall_forall _ _) Hm1). tauto.
      - eapply (rel_keys false f2 (filter proper l2) (d, cD, v) (k, c, v, dA, par)); [exact HF2| |exact Hk|].
        + intros e He. apply filter_proper_In in He. apply Hkeys, in_app_iff. tauto.
        + intros y Hy. apply filter_proper_In in Hy.
          apply (proj1 (List.Forall_forall _ _) Hm2). tauto. }
    destruct (heappop fringe_lt (fringe D)) as [[[[d0 c0] v0] restD]|] eqn:HpopD.
    2:{ rewrite HfD in HpopD. destruct f1; discriminate. }
    destruct (strict_pop G source target D d0 c0 v0 restD N I HpopD)
      as (l1' & l2' & Hf' & HrestD & Hmin' & _).
    rewrite HfD in Hf'.
    destruct (leftmost_min_unique keyD _ _ _ _ _ _ Hf' HminD Hmin') as (<- & [= <- <- <-] & <-).
    assert (Forall2 rel restD (filter proper (l1 ++ l2))) as HFrest.
    { rewrite HrestD, filter_app. apply Forall2_app; assumption. }
    assert (forall e, In e restD -> In e (fringe D)) as Hsub.
    { intros e. rewrite HrestD, HfD, !in_app_iff. simpl. tauto. }
    pose proof (sim_pop D S l1 l2 _ restD R Hq HFrest Hsub) as Rpop.
    rewrite <- Hrest in Rpop.
    pose proof (step_nn G wD source target wD_nonneg D N) as Hnn.
    unfold dijkstra_step in Hnn |- *. rewrite HpopD in Hnn |- *.
    destruct (dist D !! v) as [dv|] eqn:Hdv.
    + (* a stale entry on both sides *)
      assert (v <> target) as Hvt.
      { intros ->. rewrite (nn_target _ _ _ _ N) in Hdv. discriminate. }
      destruct (decide (v = target)) as [|_]; [contradiction|].
      assert (is_Some (explored S !! v)) as [o Hex].
      { apply (sim_dom _ _ R). rewrite Hdv. eauto. }
      rewrite Hex. destruct o as [pp|].
      2:{ exfalso. apply Hvs. apply (sim_none _ _ R v Hex). }
      pose proof (sim_enq _ _ R v Hvs) as Henq.
      rewrite (s_exact _ I v dv Hdv) in Henq.
      destruct (enqueued S !! v) as [[q hq]|]; [|destruct Henq]. simpl in Henq.
      assert (nltb q dA = true) as ->.
      { rewrite (nltb_num_eq q dv dA d Henq HdA).
        apply (s_stale _ I d cD v dv); [|exact Hdv].
        rewrite HfD. apply in_app_iff. right. left. reflexivity. }
      right. eexists. split; [reflexivity|]. split; [exact Hnn|].
      split; [apply (strict_skip G source target D d cD v restD dv N I HpopD Hdv)|].
      split; [exact Rpop|]. simpl. lia.
    + destruct (strict_settle G source target D d cD v restD N I HpopD Hdv) as [Hseen I1].
      destruct (sim_path _ _ R _ Hm Hpm d Hseen Hdv HdA) as (p & pv & Hpar & Hp & Hpex & Hpv).
      change (par = Some p) in Hpar. subst par.
      change (paths D !! v = Some (pv ++ [v])) in Hpv.
      destruct (decide (v = target)) as [Hvt|Hvt].
      * (* the target: the path is read off *)
        eexists. split; [reflexivity|]. cbn [dist paths].
        rewrite Hvt, lookup_insert_eq. rewrite Hvt in Hpv. rewrite Hpv.
        rewrite (reconstruct_spec D S R _ p pv [target] Hpex Hp).
        2:{ pose proof (sim_len _ _ R p pv Hpex Hp). lia. }
        simpl. rewrite reverse_cons, reverse_involutive. reflexivity.
      * assert (explored S !! v = None) as Hex.
        { destruct (explored S !! v) eqn:E; [|reflexivity].
          assert (is_Some (dist D !! v)) as [? ?]; [|congruence].
          apply (sim_dom _ _ R). rewrite E. eauto. }
        rewrite Hex. right.
        pose proof (nn_mid_start G source target D d cD v restD N HpopD Hdv Hvt) as M.
        pose proof (sim_settle _ _ v d p pv Rpop Hdv Hvs Hp Hpex Hpv) as R1.
        simpl in R1.
        destruct (expand_all_sim v d dA (G_succ G v) HdA (fun x H => H) [] _ _ M I1 R1)
          as (D' & E & M' & I' & R' & Hlen').
        rewrite E. exists D'. split; [reflexivity|].
        split; [apply (nn_mid_end G source target D' d v M')|].
        split; [exact I'|]. split; [exact R'|].
        pose proof (for_each_relax_shape wD v d (G_succ G v)
                      (mk_dijkstra_state (<[v := d]> (dist D)) (seen D) (paths D)
                         restD (count D))) as Hshape.
        rewrite E in Hshape. destruct Hshape as [-> _]. simpl.
        pose proof (pending_insert G (dist D) v d Hdv). simpl in Hlen'. lia.
Qed.

(** The two searches end together, with the same answer. *)
Lemma sim_run (n : nat) : forall (m : nat) (D : dijkstra_state) (S : astar_state),
  nn_inv G source target D -> strict_inv D -> sim D S ->
  (length (queue S) + pending G (dist D) < n)%nat ->
  (dijkstra_measure G D < m)%nat ->
  exists D', dijkstra_loop G wD target m D = Return D' /\
    astar_loop G h wA target n S =
      match dist D' !! target, paths D' !! target with
      | Some _, Some p => Return p
      | _, _ => Raise NetworkXNoPath
      end.
Proof.
  induction n as [|n IH]; intros m D S N I R Hn Hm; [lia|].
  rewrite astar_loop_unfold.
  pose proof (sim_step D S N I R) as Hstep.
  destruct (astar_step G h wA target S) as [S'|r].
  - destruct Hstep as [[R' Hlt]|(D' & E & N' & I' & R' & Hlt)].
    + apply (IH m D S' N I R'); [lia|exact Hm].
    + destruct m as [|m]; [lia|]. rewrite dijkstra_loop_unfold, E.
      apply (IH m D' S' N' I' R'); [lia|].
      pose proof (dijkstra_step_measure G wD target D) as H. rewrite E in H. lia.
  - destruct Hstep as (D' & E & ->). destruct m as [|m]; [lia|].
    rewrite dijkstra_loop_unfold, E. exists D'. split; reflexivity.
Qed.

(** The states once the source has been popped on both sides. *)
Lemma sim_init :
  sim (mk_dijkstra_state {[ source := Fin 0 ]} {[ source := Fin 0 ]}
         {[ source := [source] ]} [] 1%nat)
      (mk_astar_state [] ∅ {[ source := None ]} 1%nat).
Proof.
  constructor; simpl.
  - rewrite filter_nil. constructor.
  - intros d c u [].
  - intros e [].
  - exact I.
  - intros u Hu. rewrite lookup_singleton_ne by auto. rewrite lookup_empty. exact I.
  - intros u qh. rewrite lookup_empty. discriminate.
  - rewrite !lookup_singleton_eq. eauto.
  - intros v. rewrite !lookup_singleton_is_Some. tauto.
  - intros v p. rewrite lookup_singleton_Some. intros [_ [=]].
  - intros v. rewrite lookup_singleton_Some. intros [<- _]. reflexivity.
  - intros e [].
  - intros v pv. rewrite lookup_singleton_is_Some. intros <-.
    rewrite lookup_singleton_eq. intros [= <-]. rewrite map_size_singleton. simpl. lia.
Qed.

Lemma astar_path_is_dijkstra_path (fuel : nat) :
  has_node G source = true -> has_node G target = true ->
  (Datatypes.S (Datatypes.S (edge_count G)) <= fuel)%nat ->
  astar_path fuel G source target h wA = dijkstra_path G wD source target.
Proof.
  intros Hs Ht Hfuel. unfold astar_path, dijkstra_path, single_source_dijkstra.
  rewrite Hs, Ht. cbn [negb orb].
  destruct (decide (target = source)) as [Heq|_]; [congruence|].
  destruct fuel as [|n]; [lia|].
  change (mk_dijkstra_state _ _ _ _ _) with (dijkstra_init source).
  rewrite astar_loop_unfold, dijkstra_loop_unfold.
  pose proof (nn_mid_start G source target (dijkstra_init source) (Fin 0) 0%nat source []
                (nn_inv_init G source target) eq_refl (lookup_empty _) source_target) as M.
  pose proof (strict_inv_init_step source) as I0.
  pose proof sim_init as R0.
  cbn [dist seen paths count dijkstra_init] in M. rewrite insert_empty in M.
  destruct (expand_all_sim source (Fin 0) (Fin 0) (G_succ G source) (num_eq_refl _)
              (fun x H => H) [] _ _ M I0 R0) as (D' & E & M' & I' & R' & Hlen).
  pose proof (for_each_relax_shape wD source (Fin 0) (G_succ G source)
                (mk_dijkstra_state {[ source := Fin 0 ]} {[ source := Fin 0 ]}
                   {[ source := [source] ]} [] 1%nat)) as Hshape.
  rewrite E in Hshape. destruct Hshape as [Hdist Hfr]. cbn [dist fringe] in Hdist, Hfr.
  pose proof (pending_insert G ∅ source (Fin 0) (lookup_empty _)) as Hpend.
  rewrite insert_empty, pending_empty in Hpend.
  assert (astar_step G h wA target
            (mk_astar_state [(Fin 0, 0%nat, source, Fin 0, None)] ∅ ∅ 1%nat) =
          Continue (foldl (expand h wA target source (Fin 0))
                      (mk_astar_state [] ∅ {[ source := None ]} 1%nat) (G_succ G source)))
    as ->.
  { unfold astar_step. cbn [queue heappop pop_min enqueued explored acount].
    destruct (decide (source = target)) as [|_]; [contradiction|].
    rewrite lookup_empty, insert_empty. reflexivity. }
  assert (dijkstra_step G wD target (dijkstra_init source) = Continue D') as ->.
  { unfold dijkstra_step, dijkstra_init. cbn [fringe heappop pop_min dist seen paths count].
    rewrite lookup_empty. destruct (decide (source = target)) as [|_]; [contradiction|].
    rewrite insert_empty, E. reflexivity. }
  destruct (sim_run n (Datatypes.S (edge_count G)) D' _
              (nn_mid_end G source target D' (Fin 0) source M') I' R')
    as (D2 & E2 & ->).
  { rewrite Hdist. simpl in Hlen. lia. }
  { unfold dijkstra_measure. rewrite Hdist. simpl in Hfr. lia. }
  rewrite E2. simpl.
  destruct (dist D2 !! target), (paths D2 !! target); reflexivity.
Qed.

End Simulation.

(** ** [a_star_emergency_path] against [dijkstra_time_dependent] (C8) *)



Lemma heuristic_distance_no_coordinates (G : DiGraph) (u t : string) :
  (node_coordinates G t).1 = None \/ (node_coordinates G t).2 = None ->
  heuristic_distance G u t = Fin 0.
Proof.
  unfold heuristic_distance.
  destruct (node_coordinates G u) as [[x1|] [y1|]],
           (node_coordinates G t) as [[x2|] [y2|]]; simpl;
    intros [H|H]; try discriminate; reflexivity.
Qed.


(** A network whose coordinates are not on the scale of its distances:
    s -> a -> t costs 2 and s -> t costs 5, while a lies 50 units away from
    s and t, which share a position. *)
Definition at_position (x y : Q) : node_attrs := mk_node_attrs (Some x) (Some y).

Definition detour_network : DiGraph :=
  [ ("s", mk_node_entry (at_position 0 0) [("a", demo_edge 1); ("t", demo_edge 5)]);
    ("a", mk_node_entry (at_position 30 40) [("t", demo_edge 1)]);
    ("t", mk_node_entry (at_position 0 0) []) ].




(** * Further properties of the routers *)

(** ** What [dijkstra_time_dependent] returns *)

Lemma dijkstra_time_dependent_spec (G : DiGraph) (source target weight_key : string)
    (time_dependent : bool) (time_of_day : option string) :
  graph_wf G = true -> road_network_ok weight_key G = true ->
  let w := get_edge_weight weight_key time_dependent time_of_day in
  match dijkstra_time_dependent G source target weight_key time_dependent time_of_day with
  | Route p c =>
      has_node G source = true /\ has_node G target = true /\
      walk_from_to G source target p /\ NoDup p /\
      (exists ws, edge_weights G w p = Some ws /\ c = sum_weights ws) /\
      (forall q ws, walk_from_to G source target q -> edge_weights G w q = Some ws ->
                    nle c (sum_weights ws))
  | NoRoute =>
      has_node G source = false \/ has_node G target = false \/
      ~ reachable G source target
  end.
Proof.
  intros Hwf Hok w. unfold dijkstra_time_dependent. fold w.
  destruct (has_node G source) eqn:Hs; cbn [negb orb]; [|auto].
  destruct (has_node G target) eqn:Ht; cbn [negb]; [|auto].
  assert (forall v u e, In (u, e) (G_succ G v) -> nonneg (w v u e)) as Hnn.
  { intros v u e Hin. apply get_edge_weight_nonneg.
    eapply road_network_ok_edge; eauto. }
  unfold dijkstra_path.
  destruct (single_source_dijkstra G w source target) as [[d p]|e] eqn:E; cbn [bind snd].
  - destruct (single_source_dijkstra_sound G w source target d p E) as [Hwalk Hnd].
    destruct (single_source_dijkstra_optimal G w source target Hnn Hwf d p E)
      as [(ws & Hws & Hd) Hopt].
    rewrite path_length_spec, Hws. cbn [bind]. fold (sum_weights ws). rewrite Hd.
    split; [reflexivity|]. split; [reflexivity|].
    split; [exact Hwalk|]. split; [exact Hnd|]. split; [exists ws; auto|].
    intros q wq (_ & Hh & Hl) Hq. apply (Hopt q (sum_weights wq) Hh Hl).
    exists wq. auto.
  - right. right. intros Hreach.
    destruct (single_source_dijkstra_complete G w source target Hnn Hs Hreach)
      as (d & p & E'). congruence.
Qed.

(** X1. On a road network of the data model, the route that
    [dijkstra_time_dependent] returns is a cheapest one: no walk of the graph
    from the source to the target has a smaller sum of effective weights. *)
Theorem shortest_path_is_cheapest (G : DiGraph) (source target weight_key : string)
    (time_dependent : bool) (time_of_day : option string)
    (path : list string) (length : num) :
  graph_wf G = true -> road_network_ok weight_key G = true ->
  dijkstra_time_dependent G source target weight_key time_dependent time_of_day
    = Route path length ->
  forall q ws,
    walk_from_to G source target q ->
    edge_weights G (get_edge_weight weight_key time_dependent time_of_day) q = Some ws ->
    nle length (sum_weights ws).
Proof.
  intros Hwf Hok E.
  pose proof (dijkstra_time_dependent_spec G source target weight_key time_dependent
                time_of_day Hwf Hok) as H.
  rewrite E in H. apply H.
Qed.

Lemma shortest_path_is_cheapest_witness :
  nle (Fin 10) (sum_weights [Fin 12]).
Proof.
  apply (shortest_path_is_cheapest demo_network "A" "C" "distance_km" false None
           ["A"; "B"; "C"] (Fin 10)) with (q := ["A"; "C"]).
  - vm_compute. reflexivity.
  - vm_compute. reflexivity.
  - vm_compute. reflexivity.
  - repeat split; vm_compute; eauto.
  - vm_compute. reflexivity.
Defined.

(** ** Congestion on one edge *)

Lemma edge_ok_bucket (weight_key : string) (td : bool) (tod : option string)
    (data : edge_data) :
  edge_ok weight_key data = true ->
  nonneg (default PInf (data !! weight_key)) /\
  (traffic_bucket td tod data = None \/
   exists vol c, traffic_bucket td tod data = Some (Fin vol) /\ (0 <= vol)%Q /\
                 edge_capacity data = Fin c /\ (0 < c)%Q).
Proof.
  unfold edge_ok. rewrite !andb_true_iff.
  intros [[[[[Hb Hc] H1] H2] H3] H4]. apply nonnegb_nonneg in Hb.
  split; [exact Hb|].
  destruct (traffic_bucket td tod data) as [x|] eqn:E; [right|left; reflexivity].
  apply traffic_bucket_Some in E. destruct E as (_ & label & attr & _ & Hl & Hx).
  assert (count_ok data attr = true) as Hattr.
  { destruct (traffic_col_map_cases _ _ Hl) as [->|[->|[->| ->]]]; assumption. }
  destruct (count_ok_spec _ _ Hattr) as [Hn|(vol & Hv & Hvol)]; [congruence|].
  rewrite Hx in Hv. injection Hv as ->.
  assert (capacity_ok data) as Hcap.
  { unfold capacity_ok. destruct (count_ok_spec _ _ Hc) as [->|(c & -> & Hc')]; auto. }
  destruct (edge_capacity_pos data Hcap) as (c & Hcv & Hpos).
  exists vol, c. auto.
Qed.

(** The two factors at a volume [>= 0]: the emergency factor is the smaller
    one, and both lie between 1 and their caps. *)
Lemma factors_ordered (data : edge_data) (vol c : Q) :
  edge_capacity data = Fin c -> (0 < c)%Q -> (0 <= vol)%Q ->
  exists f g, congestion_factor (Fin vol) data = Fin f /\
              emergency_congestion_factor (Fin vol) data = Fin g /\
              (1 <= g)%Q /\ (g <= f)%Q /\ (f <= 5)%Q /\ (g <= 3)%Q.
Proof.
  intros Hc Hpos Hvol.
  assert (0 <= vol / c)%Q as Hdiv.
  { pose proof (Qdiv_le_mono 0 vol c Hpos Hvol) as H.
    assert (0 / c == 0)%Q as E0 by (field; lra). lra. }
  assert (vol / (c * (3 # 2)) == vol / c * (2 # 3))%Q as Hem by (field; lra).
  unfold congestion_factor, emergency_congestion_factor. rewrite Hc.
  simpl. unfold nmin. simpl.
  destruct (Qltb 5 (1 + vol / c)) eqn:E5, (Qltb 3 (1 + vol / (c * (3 # 2)))) eqn:E3;
    qbool; eexists; eexists; (split; [reflexivity|]); (split; [reflexivity|]); lra.
Qed.

Lemma congestion_weight_bounds_aux (weight_key : string) (time_dependent : bool)
    (time_of_day : option string) (u v : string) (data : edge_data) :
  edge_ok weight_key data = true ->
  nle (default PInf (data !! weight_key))
      (get_edge_weight weight_key time_dependent time_of_day u v data) /\
  nle (get_edge_weight weight_key time_dependent time_of_day u v data)
      (nmul (default PInf (data !! weight_key)) (Fin 5)).
Proof.
  intros Hok.
  destruct (edge_ok_bucket weight_key time_dependent time_of_day data Hok)
    as [Hb [E|(vol & c & E & Hvol & Hc & Hpos)]];
    unfold get_edge_weight; rewrite E.
  - destruct (default PInf (data !! weight_key)) as [b| | |]; simpl in *; try tauto. lra.
  - destruct (factors_ordered data vol c Hc Hpos Hvol) as (f & g & -> & _ & H1 & H2 & H3 & _).
    destruct (default PInf (data !! weight_key)) as [b| | |]; simpl in *; try tauto.
    + split; nra.
    + unfold inf_times. assert (Qltb 0 f = true) as -> by (qbool; lra). tauto.
Qed.

(** X2. On an edge of the data model, time-dependent congestion never makes
    the effective weight smaller than the base metric and never more than
    five times the base metric in [get_edge_weight]; in
    [get_dynamic_edge_weight], for a priority factor [> 0], the weight lies
    between the base metric times the factor and three times that. *)
Theorem congestion_weight_bounds (weight_key : string) (time_dependent : bool)
    (time_of_day : option string) (priority : Q) (u v : string) (data : edge_data) :
  edge_ok weight_key data = true -> (0 < priority)%Q ->
  let base := default PInf (data !! weight_key) in
  let ordinary := get_edge_weight weight_key time_dependent time_of_day u v data in
  let emergency :=
    get_dynamic_edge_weight weight_key time_dependent time_of_day priority u v data in
  nle base ordinary /\ nle ordinary (nmul base (Fin 5)) /\
  nle (nmul base (Fin priority)) emergency /\
  nle emergency (nmul (nmul base (Fin 3)) (Fin priority)).
Proof.
  intros Hok Hp. cbv zeta.
  destruct (congestion_weight_bounds_aux weight_key time_dependent time_of_day u v data Hok)
    as [H1 H2].
  split; [exact H1|]. split; [exact H2|]. clear H1 H2.
  assert (Qltb 0 priority = true) as Hpb by (qbool; lra).
  destruct (edge_ok_bucket weight_key time_dependent time_of_day data Hok)
    as [Hb [E|(vol & c & E & Hvol & Hc & Hpos)]];
    unfold get_dynamic_edge_weight; rewrite E.
  - destruct (default PInf (data !! weight_key)) as [b| | |]; simpl in *; try tauto.
    + split; nra.
    + unfold inf_times. rewrite Hpb. tauto.
  - destruct (factors_ordered data vol c Hc Hpos Hvol) as (f & g & _ & -> & H1 & _ & _ & H3).
    destruct (default PInf (data !! weight_key)) as [b| | |]; simpl in *; try tauto.
    + assert (b <= b * g)%Q by nra. assert (b * g <= b * 3)%Q by nra. split; nra.
    + unfold inf_times. rewrite Hpb.
      assert (Qltb 0 g = true) as -> by (qbool; lra). simpl. unfold inf_times.
      rewrite Hpb. tauto.
Qed.

Lemma congestion_weight_bounds_witness :
  let base := default PInf (busy_edge 5 4000 !! "distance_km") in
  let ordinary :=
    get_edge_weight "distance_km" true (Some "morning_peak") "A" "B" (busy_edge 5 4000) in
  let emergency :=
    get_dynamic_edge_weight "distance_km" true (Some "morning_peak") (4 # 5) "A" "B"
      (busy_edge 5 4000) in
  nle base ordinary /\ nle ordinary (nmul base (Fin 5)) /\
  nle (nmul base (Fin (4 # 5))) emergency /\
  nle emergency (nmul (nmul base (Fin 3)) (Fin (4 # 5))).
Proof.
  apply (congestion_weight_bounds "distance_km" true (Some "morning_peak") (4 # 5)
           "A" "B" (busy_edge 5 4000)).
  - vm_compute. reflexivity.
  - reflexivity.
Defined.

(** X3. On an edge of the data model, for a priority factor in (0, 1], the
    weight [get_dynamic_edge_weight] that the emergency search uses is a
    cost, and it is never larger than the weight [get_edge_weight] of the
    ordinary search for the same time of day. *)
Theorem emergency_weight_below_ordinary (weight_key : string) (time_dependent : bool)
    (time_of_day : option string) (priority : Q) (u v : string) (data : edge_data) :
  edge_ok weight_key data = true -> (0 < priority)%Q -> (priority <= 1)%Q ->
  nonneg (get_dynamic_edge_weight weight_key time_dependent time_of_day priority u v data) /\
  nle (get_dynamic_edge_weight weight_key time_dependent time_of_day priority u v data)
      (get_edge_weight weight_key time_dependent time_of_day u v data).
Proof.
  intros Hok Hp0 Hp1.
  destruct (edge_ok_bucket weight_key time_dependent time_of_day data Hok)
    as [Hb [E|(vol & c & E & Hvol & Hc & Hpos)]];
    unfold get_dynamic_edge_weight, get_edge_weight; rewrite E.
  - destruct (default PInf (data !! weight_key)) as [b| | |]; simpl in *; try tauto.
    + split; nra.
    + unfold inf_times. assert (Qltb 0 priority = true) as -> by (qbool; lra). tauto.
  - destruct (factors_ordered data vol c Hc Hpos Hvol)
      as (f & g & -> & -> & H1 & H2 & H3 & H4).
    destruct (default PInf (data !! weight_key)) as [b| | |]; simpl in *; try tauto.
    + assert (0 <= b * g)%Q by nra. assert (b * g <= b * f)%Q by nra. split; nra.
    + unfold inf_times. assert (Qltb 0 g = true) as -> by (qbool; lra).
      assert (Qltb 0 f = true) as -> by (qbool; lra). simpl. unfold inf_times.
      assert (Qltb 0 priority = true) as -> by (qbool; lra). tauto.
Qed.

Lemma emergency_weight_below_ordinary_witness :
  nonneg (get_dynamic_edge_weight "distance_km" true (Some "morning_peak") (4 # 5) "A" "B"
            (busy_edge 5 4000)) /\
  nle (get_dynamic_edge_weight "distance_km" true (Some "morning_peak") (4 # 5) "A" "B"
         (busy_edge 5 4000))
      (get_edge_weight "distance_km" true (Some "morning_peak") "A" "B" (busy_edge 5 4000)).
Proof.
  apply (emergency_weight_below_ordinary "distance_km" true (Some "morning_peak") (4 # 5)
           "A" "B" (busy_edge 5 4000)).
  - vm_compute. reflexivity.
  - reflexivity.
  - vm_compute. discriminate.
Defined.

(** ** Congestion along a route *)








(** ** What [a_star_emergency_path] returns

    Whatever the weights and the heuristic, the parents that [astar_path]
    records follow edges of the graph back to the source. *)

Section AStarSound.
Variable G : DiGraph.
Variable h : string -> string -> num.
Variable w : string -> string -> edge_data -> num.
Variables source target : string.

(** the parent [par] recorded for the node [v] *)
Definition parent_ok (explored : gmap string (option string)) (v : string)
    (par : option string) : Prop :=
  match par with
  | None => v = source
  | Some p => is_Some (explored !! p) /\ is_Some (get_edge_data G p v)
  end.

Record astar_inv (S : astar_state) : Prop := {
  a_queue : forall e, In e (queue S) -> parent_ok (explored S) (nodeA e) (parA e);
  a_explored : forall v par, explored S !! v = Some par -> parent_ok (explored S) v par
}.

Lemma parent_ok_insert (explored : gmap string (option string)) (v x : string)
    (par px : option string) :
  parent_ok explored v par -> parent_ok (<[x := px]> explored) v par.
Proof.
  destruct par as [p|]; simpl; [|auto]. intros [H1 H2]. split; [|exact H2].
  rewrite lookup_insert_is_Some'. auto.
Qed.

Lemma expand_inv (v : string) (d : num) (S : astar_state) (nw : string * edge_data) :
  In nw (G_succ G v) -> is_Some (explored S !! v) -> astar_inv S ->
  astar_inv (expand h w target v d S nw) /\
  explored (expand h w target v d S nw) = explored S.
Proof.
  intros Hin Hv I. destruct nw as [y e]. unfold expand.
  assert (forall hq,
    astar_inv (mk_astar_state
      (heappush (queue S) (nadd (nadd d (w v y e)) hq, acount S, y, nadd d (w v y e), Some v))
      (<[y := (nadd d (w v y e), hq)]> (enqueued S)) (explored S)
      (Datatypes.S (acount S)))) as Hpush.
  { intros hq. destruct I. constructor; simpl; [|exact a_explored0].
    intros e0. unfold heappush. rewrite in_app_iff. simpl. intros [H|[<-|[]]]; [auto|].
    split; [exact Hv|]. apply (succ_edge G v y e Hin). }
  destruct (enqueued S !! y) as [[q hq]|]; [destruct (nleb q _)|]; auto.
Qed.

Lemma expand_all_inv (v : string) (d : num) (l : list (string * edge_data)) :
  (forall x, In x l -> In x (G_succ G v)) ->
  forall S, is_Some (explored S !! v) -> astar_inv S ->
  astar_inv (foldl (expand h w target v d) S l).
Proof.
  induction l as [|x l IH]; intros Hl S Hv I; [exact I|]. simpl.
  destruct (expand_inv v d S x (Hl x (or_introl eq_refl)) Hv I) as [I' E].
  apply IH; [intros y Hy; apply Hl; right; exact Hy| |exact I'].
  rewrite E. exact Hv.
Qed.

(** The walk back along the parents, read in reverse. *)
Lemma reconstruct_walk (explored : gmap string (option string)) :
  (forall v par, explored !! v = Some par -> parent_ok explored v par) ->
  forall fuel node acc x path,
  reconstruct fuel explored node acc = Return path ->
  is_walk G (reverse acc) -> head (reverse acc) = Some x ->
  parent_ok explored x node ->
  is_walk G (reverse path) /\ head (reverse path) = Some source /\
  last (reverse path) = last (reverse acc).
Proof.
  intros Hex. induction fuel as [|fuel IH]; intros node acc x path E Hw Hh Hp.
  - destruct node as [n|]; [discriminate|]. injection E as <-.
    simpl in Hp. subst x. auto.
  - destruct node as [n|].
    2:{ injection E as <-. simpl in Hp. subst x. auto. }
    simpl in E. destruct Hp as [[par Hn] Hedge]. rewrite Hn in E.
    destruct (IH par (acc ++ [n]) n path E) as (H1 & H2 & H3).
    + rewrite reverse_app. simpl.
      destruct (reverse acc) as [|y r]; [discriminate|]. injection Hh as ->.
      split; assumption.
    + rewrite reverse_app. reflexivity.
    + apply (Hex n par Hn).
    + split; [exact H1|]. split; [exact H2|]. rewrite H3, reverse_app. simpl.
      destruct (reverse acc); [discriminate|reflexivity].
Qed.

Lemma astar_step_inv (S : astar_state) :
  astar_inv S ->
  match astar_step G h w target S with
  | Continue S' => astar_inv S'
  | Stop (Return path) => walk_from_to G source target path
  | Stop (Raise _) => True
  end.
Proof.
  intros J. unfold astar_step.
  destruct (heappop queue_lt (queue S)) as [[[[[[k c] v] d] par] rest]|] eqn:Hpop; [|exact I].
  destruct (heappop_In _ _ _ _ Hpop) as [Hin Hrest].
  pose proof (a_queue _ J _ Hin) as Hpar. change (parent_ok (explored S) v par) in Hpar.
  assert (astar_inv (mk_astar_state rest (enqueued S) (explored S) (acount S))) as I1.
  { destruct J. constructor; simpl; auto. }
  destruct (decide (v = target)) as [Hvt|Hvt].
  - destruct (reconstruct _ (explored S) par [v]) as [path|e] eqn:E; simpl; [|exact I].
    destruct (reconstruct_walk (explored S) (a_explored _ J) _ par [v] v path E)
      as (H1 & H2 & H3); [exact I|reflexivity|exact Hpar|].
    split; [exact H1|]. split; [exact H2|]. rewrite H3, Hvt. reflexivity.
  - assert (astar_inv (foldl (expand h w target v d)
              (mk_astar_state rest (enqueued S) (<[v := par]> (explored S)) (acount S))
              (G_succ G v))) as Hgo.
    { apply expand_all_inv; [auto|simpl; rewrite lookup_insert_is_Some'; auto|].
      destruct J. constructor; simpl.
      - intros e He. apply parent_ok_insert, a_queue0, Hrest, He.
      - intros x px. rewrite lookup_insert_Some. intros [[<- <-]|[_ Hx]].
        + apply parent_ok_insert, Hpar.
        + apply parent_ok_insert, (a_explored0 x px Hx). }
    destruct (explored S !! v) as [[pp|]|]; [|exact I1|exact Hgo].
    destruct (enqueued S !! v) as [[q hq]|]; [|exact I].
    destruct (nltb q d); [exact I1|exact Hgo].
Qed.

Lemma astar_loop_walk (fuel : nat) : forall (S : astar_state) (path : list string),
  astar_inv S -> astar_loop G h w target fuel S = Return path ->
  walk_from_to G source target path.
Proof.
  induction fuel as [|fuel IH]; intros S path I E; [discriminate|].
  rewrite astar_loop_unfold in E. pose proof (astar_step_inv S I) as H.
  destruct (astar_step G h w target S) as [S'|r].
  - apply (IH S' path H E).
  - subst r. exact H.
Qed.

Lemma astar_path_walk (fuel : nat) (path : list string) :
  astar_path fuel G source target h w = Return path ->
  has_node G source = true /\ has_node G target = true /\
  walk_from_to G source target path.
Proof.
  unfold astar_path.
  destruct (has_node G source); cbn [negb orb]; [|discriminate].
  destruct (has_node G target); cbn [negb]; [|discriminate].
  intros E. split; [reflexivity|]. split; [reflexivity|].
  apply (astar_loop_walk fuel
           (mk_astar_state [(Fin 0, 0%nat, source, Fin 0, None)] ∅ ∅ 1%nat) path);
    [|exact E].
  constructor; simpl.
  - intros e [<-|[]]. reflexivity.
  - intros v par. rewrite lookup_empty. discriminate.
Qed.

End AStarSound.

Lemma emergency_route_walk (fuel : nat) (G : DiGraph) (source target weight_key : string)
    (time_dependent : bool) (time_of_day : option string) (priority : Q)
    (path : list string) (length : num) :
  a_star_emergency_path fuel G source target weight_key time_dependent time_of_day priority
    = Some (Route path length) ->
  walk_from_to G source target path.
Proof.
  unfold a_star_emergency_path.
  destruct (negb (has_node G source) || negb (has_node G target)); [discriminate|].
  destruct (astar_path fuel G source target _ _) as [p|e] eqn:E; cbn [bind].
  2:{ destruct e; discriminate. }
  destruct (astar_path_walk G _ _ source target fuel p E) as (_ & _ & Hwalk).
  destruct (path_length G _ p (Fin 0)) as [c|e]; cbn [bind]; [|destruct e; discriminate].
  intros [= <- <-]. exact Hwalk.
Qed.

(** X5. Whatever the graph, the weights and the parameters, a route that
    [a_star_emergency_path] returns starts at the source, ends at the target
    and follows edges of the graph, both nodes are nodes of the graph, and
    its length is the sum of [get_dynamic_edge_weight] over its edges. *)
Theorem emergency_path_is_route (fuel : nat) (G : DiGraph) (source target weight_key : string)
    (time_dependent : bool) (time_of_day : option string) (priority : Q)
    (path : list string) (length : num) :
  a_star_emergency_path fuel G source target weight_key time_dependent time_of_day priority
    = Some (Route path length) ->
  has_node G source = true /\ has_node G target = true /\
  walk_from_to G source target path /\
  exists ws,
    edge_weights G
      (get_dynamic_edge_weight weight_key time_dependent time_of_day priority) path
      = Some ws /\
    length = sum_weights ws.
Proof.
  unfold a_star_emergency_path.
  set (w := get_dynamic_edge_weight weight_key time_dependent time_of_day priority).
  set (h := fun u v : string => nmul (heuristic_distance G u v) (Fin priority)).
  destruct (negb (has_node G source) || negb (has_node G target)); [discriminate|].
  destruct (astar_path fuel G source target h w) as [p|e] eqn:E; cbn [bind].
  2:{ destruct e; discriminate. }
  destruct (astar_path_walk G h w source target fuel p E) as (Hs & Ht & Hwalk).
  rewrite path_length_spec.
  destruct (edge_weights G w p) as [ws|] eqn:Hws; cbn [bind]; [|discriminate].
  intros [= <- <-]. split; [exact Hs|]. split; [exact Ht|]. split; [exact Hwalk|].
  exists ws. split; [exact Hws|reflexivity].
Qed.

Lemma emergency_path_is_route_witness :
  has_node detour_network "s" = true /\ has_node detour_network "t" = true /\
  walk_from_to detour_network "s" "t" ["s"; "t"] /\
  exists ws,
    edge_weights detour_network
      (get_dynamic_edge_weight "distance_km" true (Some "night") (4 # 5)) ["s"; "t"]
      = Some ws /\
    Fin (20 # 5) = sum_weights ws.
Proof.
  apply (emergency_path_is_route 10 detour_network "s" "t" "distance_km" true
           (Some "night") (4 # 5) ["s"; "t"] (Fin (20 # 5))).
  vm_compute. reflexivity.
Defined.

(** ** What [yen_k_shortest_paths] returns *)

(** The list returned lists entries that the loop has checked, and it is
    empty exactly when there is nothing to return. *)
Lemma yen_result_spec (G : DiGraph) (source target : string) (K : Z) (weight_key : string) :
  graph_wf G = true -> metric_ok weight_key G = true ->
  exists A : list yen_entry,
    yen_k_shortest_paths G source target K weight_key = Return A.*2 /\
    Forall (entry_ok G source target weight_key) A /\
    ((A = [] /\
      ((K <= 0)%Z \/ has_node G source = false \/ has_node G target = false \/
       ~ reachable G source target)) \/
     (A <> [] /\ (1 <= K)%Z /\ has_node G source = true /\
      has_node G target = true /\ reachable G source target)).
Proof.
  intros Hwf Hm. unfold yen_k_shortest_paths.
  destruct (has_node G source) eqn:Hs; cbn [negb orb].
  2:{ exists []. split; [reflexivity|]. split; [constructor|]. left. auto. }
  destruct (has_node G target) eqn:Ht; cbn [negb].
  2:{ exists []. split; [reflexivity|]. split; [constructor|]. left. auto. }
  pose proof (weight_function_nonneg G weight_key Hm G (subgraph_refl G)) as Hnn.
  destruct (dijkstra_path_outcome G (weight_function weight_key) source target Hnn Hs)
    as [(first_path & E & (Hw & Hh & Hl) & Hnd)|E]; rewrite E.
  2:{ exists []. split; [reflexivity|]. split; [constructor|].
      left. split; [reflexivity|]. right. right. right. intros Hreach.
      destruct (single_source_dijkstra_complete G (weight_function weight_key)
                  source target Hnn Hs Hreach) as (d & p & E').
      unfold dijkstra_path in E. rewrite E' in E. discriminate. }
  assert (reachable G source target) as Hreach by (exists first_path; repeat split; auto).
  set (first := (get_path_length first_path G weight_key (Fin 0), first_path)).
  assert (entry_ok G source target weight_key first) as Hfirst.
  { unfold entry_ok, first. simpl. repeat split; auto.
    apply NoDup_last_removelast; auto. }
  destruct (Z_le_gt_dec 1 K) as [HK|HK].
  2:{ replace (Z.to_nat (K - 1)) with 0%nat by lia. cbn [seq yen_loop bind].
      change (sort_by_length [first]) with [first].
      rewrite slice_to_nonpos_one by lia.
      exists []. split; [reflexivity|]. split; [constructor|].
      left. split; [reflexivity|]. left. lia. }
  destruct (yen_loop_spec G source target weight_key Hwf Hm Hs
              (Z.to_nat (K - 1)) 1 [first] [])
    as (A & -> & HA & HAnd & Hhd); auto.
  { simpl. apply NoDup_singleton. }
  cbn [bind].
  assert (Forall (fun e : yen_entry => nonneg e.1) A) as HAnn.
  { eapply Forall_impl; [exact HA|]. intros e (-> & _).
    apply get_path_length_nonneg; [exact Hm|simpl; lra]. }
  destruct (sort_by_length_spec A HAnn) as (_ & Hperm & _).
  rewrite slice_to_nonneg by lia.
  exists (take (Z.to_nat K) (sort_by_length A)).
  split; [reflexivity|]. split.
  - rewrite Forall_forall in *. intros e He. apply HA. rewrite <- Hperm.
    apply elem_of_take in He. destruct He as (i & Hi & _).
    eapply list_elem_of_lookup_2; eauto.
  - right. split; [|auto]. intros Hnil.
    assert (length (take (Z.to_nat K) (sort_by_length A)) = 0%nat) as Hlen
      by (rewrite Hnil; reflexivity).
    rewrite length_take, (Permutation_length Hperm) in Hlen.
    destruct A; [discriminate|]. simpl in Hlen. lia.
Qed.

(** X6. On a well-formed graph whose edges all carry a non-negative base
    metric, every path that [yen_k_shortest_paths] returns starts at the
    source, ends at the target, follows edges of the graph, and meets the
    target only at its end. *)
Theorem yen_paths_are_routes (G : DiGraph) (source target : string) (K : Z)
    (weight_key : string) (paths : list (list string)) :
  graph_wf G = true -> metric_ok weight_key G = true ->
  yen_k_shortest_paths G source target K weight_key = Return paths ->
  forall p, In p paths ->
    walk_from_to G source target p /\ ~ In target (removelast p).
Proof.
  intros Hwf Hm E p Hp.
  destruct (yen_result_spec G source target K weight_key Hwf Hm) as (A & EA & HA & _).
  rewrite E in EA. injection EA as ->.
  apply list_elem_of_In, list_elem_of_fmap in Hp. destruct Hp as (e & -> & He).
  rewrite Forall_forall in HA. destruct (HA e He) as (_ & Hh & Hl & Hnt & Hw).
  split; [split; [exact Hw|split; assumption]|exact Hnt].
Qed.

Lemma yen_paths_are_routes_witness :
  walk_from_to loop_network "s" "t" ["s"; "a"; "s"; "t"] /\
  ~ In "t" (removelast ["s"; "a"; "s"; "t"]).
Proof.
  apply (yen_paths_are_routes loop_network "s" "t" 3 "distance_km"
           [["s"; "a"; "t"]; ["s"; "t"]; ["s"; "a"; "s"; "t"]]).
  - vm_compute. reflexivity.
  - vm_compute. reflexivity.
  - vm_compute. reflexivity.
  - simpl. auto.
Defined.

(** X7. On a well-formed graph whose edges all carry a non-negative base
    metric, [yen_k_shortest_paths] never raises, and for [K >= 1] it returns
    at least one path exactly when both nodes are in the graph and a walk
    joins the source to the target. *)
Theorem yen_finds_a_path_iff_reachable (G : DiGraph) (source target : string) (K : Z)
    (weight_key : string) :
  graph_wf G = true -> metric_ok weight_key G = true -> (1 <= K)%Z ->
  exists paths,
    yen_k_shortest_paths G source target K weight_key = Return paths /\
    (paths <> [] <->
     has_node G source = true /\ has_node G target = true /\
     reachable G source target).
Proof.
  intros Hwf Hm HK.
  destruct (yen_result_spec G source target K weight_key Hwf Hm)
    as (A & EA & _ & [[-> Hno]|(Hne & _ & Hs & Ht & Hr)]).
  - exists []. split; [exact EA|]. split; [congruence|].
    intros (Hs & Ht & Hr). destruct Hno as [H|[H|[H|H]]];
      [lia|congruence|congruence|contradiction].
  - exists A.*2. split; [exact EA|]. split; [auto|].
    intros _ Hnil. apply Hne. apply fmap_nil_inv in Hnil. exact Hnil.
Qed.

Lemma yen_finds_a_path_iff_reachable_witness :
  exists paths,
    yen_k_shortest_paths demo_network "A" "D" 2 "distance_km" = Return paths /\
    (paths <> [] <->
     has_node demo_network "A" = true /\ has_node demo_network "D" = true /\
     reachable demo_network "A" "D").
Proof.
  apply (yen_finds_a_path_iff_reachable demo_network "A" "D" 2 "distance_km").
  - vm_compute. reflexivity.
  - vm_compute. reflexivity.
  - lia.
Defined.

(** ** A route from a node to itself *)

Lemma yen_loop_single (G : DiGraph) (t wk : string) (len : num) (x : string) (n : nat) :
  yen_loop G t wk (seq 1 n) [(len, [x])] [] = Return [(len, [x])].
Proof.
  destruct n as [|n]; [reflexivity|].
  cbn [seq yen_loop]. rewrite bool_decide_eq_false_2 by discriminate. reflexivity.
Qed.

(** X8. A query from a node of the graph to itself returns the one-node
    path: with length 0 from [dijkstra_time_dependent] and from
    [a_star_emergency_path] (within one round, whatever the other
    parameters), and as the only path from [yen_k_shortest_paths], whatever
    [K >= 1] is asked for. *)
Theorem route_to_itself (G : DiGraph) (node weight_key : string) (time_dependent : bool)
    (time_of_day : option string) (priority : Q) (K : Z) (fuel : nat) :
  has_node G node = true -> (1 <= fuel)%nat -> (1 <= K)%Z ->
  dijkstra_time_dependent G node node weight_key time_dependent time_of_day
    = Route [node] (Fin 0) /\
  a_star_emergency_path fuel G node node weight_key time_dependent time_of_day priority
    = Some (Route [node] (Fin 0)) /\
  yen_k_shortest_paths G node node K weight_key = Return [[node]].
Proof.
  intros Hn Hfuel HK. split; [|split].
  - unfold dijkstra_time_dependent, dijkstra_path, single_source_dijkstra.
    rewrite Hn. cbn [negb orb].
    destruct (decide (node = node)); [|contradiction]. reflexivity.
  - unfold a_star_emergency_path, astar_path. rewrite Hn. cbn [negb orb].
    destruct fuel as [|n]; [lia|]. rewrite astar_loop_unfold.
    unfold astar_step. cbn [queue heappop pop_min explored].
    destruct (decide (node = node)); [|contradiction]. reflexivity.
  - unfold yen_k_shortest_paths, dijkstra_path, single_source_dijkstra.
    rewrite Hn. cbn [negb orb].
    destruct (decide (node = node)); [|contradiction]. cbn [bind snd get_path_length].
    rewrite yen_loop_single. cbn [bind].
    change (sort_by_length [(Fin 0, [node])]) with [(Fin 0, [node])].
    rewrite slice_to_nonneg by lia.
    destruct (Z.to_nat K) eqn:EK; [lia|]. simpl. rewrite take_nil. reflexivity.
Qed.

Lemma route_to_itself_witness :
  dijkstra_time_dependent demo_network "B" "B" "distance_km" true (Some "night")
    = Route ["B"] (Fin 0) /\
  a_star_emergency_path 1 demo_network "B" "B" "distance_km" true (Some "night") (4 # 5)
    = Some (Route ["B"] (Fin 0)) /\
  yen_k_shortest_paths demo_network "B" "B" 3 "distance_km" = Return [["B"]].
Proof.
  apply (route_to_itself demo_network "B" "distance_km" true (Some "night") (4 # 5) 3 1).
  - vm_compute. reflexivity.
  - lia.
  - lia.
Defined.

(** ** [get_path_length] *)

Lemma get_path_length_cons (G : DiGraph) (wk u v : string) (p : list string) (a : num) :
  get_path_length (u :: v :: p) G wk a =
  match get_edge_data G u v with
  | Some e => match e !! wk with
              | Some x => get_path_length (v :: p) G wk (nadd a x)
              | None => PInf
              end
  | None => PInf
  end.
Proof. reflexivity. Qed.

(** X9. [get_path_length] returns [+inf] for every path that has two
    consecutive nodes not joined by an edge of the graph, or joined by an edge
    that lacks the weight key, whatever the rest of the path is. *)
Theorem get_path_length_missing_edge (G : DiGraph) (weight_key : string)
    (path : list string) (length : num) (i : nat) (u v : string) :
  path !! i = Some u -> path !! S i = Some v ->
  get_edge_data G u v ≫= (fun data => data !! weight_key) = None ->
  get_path_length path G weight_key length = PInf.
Proof.
  revert i length. induction path as [|x p IH]; intros i a Hu Hv Hmiss; [discriminate|].
  destruct p as [|y p]; [destruct i; discriminate|].
  rewrite get_path_length_cons. destruct i as [|i].
  - injection Hu as ->. injection Hv as ->.
    destruct (get_edge_data G u v) as [e|]; [|reflexivity].
    simpl in Hmiss. rewrite Hmiss. reflexivity.
  - destruct (get_edge_data G x y) as [e|]; [|reflexivity].
    destruct (e !! weight_key) as [w|]; [|reflexivity].
    apply (IH i _ Hu Hv Hmiss).
Qed.

Lemma get_path_length_missing_edge_witness :
  get_path_length ["A"; "B"; "D"; "C"] demo_network "distance_km" (Fin 0) = PInf.
Proof.
  apply (get_path_length_missing_edge demo_network "distance_km" ["A"; "B"; "D"; "C"]
           (Fin 0) 1 "B" "D"); reflexivity.
Defined.

Lemma path_length_from_inf (G : DiGraph) (w : string -> string -> edge_data -> num)
    (p : list string) (c : num) :
  (forall v u e, In (u, e) (G_succ G v) -> nonneg (w v u e)) ->
  path_length G w p PInf = Return c -> c = PInf.
Proof.
  intros Hnn. induction p as [|x p IH]; [intros [= <-]; reflexivity|].
  destruct p as [|y p]; [intros [= <-]; reflexivity|].
  change (path_length G w (x :: y :: p) PInf) with
    (match get_edge_data G x y with
     | Some e => path_length G w (y :: p) (nadd PInf (w x y e))
     | None => Raise KeyError
     end).
  destruct (get_edge_data G x y) as [e|] eqn:E; [|discriminate].
  pose proof (Hnn x y e (assoc_Some_In _ _ _ E)) as Hw.
  destruct (w x y e); simpl in Hw |- *; try tauto; exact IH.
Qed.

Lemma get_path_length_path_length (G : DiGraph) (wk : string) :
  road_network_ok wk G = true ->
  forall p a c, nonneg a ->
  path_length G (get_edge_weight wk false None) p a = Return c ->
  get_path_length p G wk a = c.
Proof.
  intros Hok.
  assert (forall v u e, In (u, e) (G_succ G v) ->
            nonneg (get_edge_weight wk false None v u e)) as Hnn.
  { intros v u e Hin. apply get_edge_weight_nonneg.
    apply (road_network_ok_edge wk G v u e Hok Hin). }
  induction p as [|x p IH]; intros a c Ha; [intros [= <-]; reflexivity|].
  destruct p as [|y p]; [intros [= <-]; reflexivity|].
  rewrite get_path_length_cons.
  change (path_length G ?w (x :: y :: p) a) with
    (match get_edge_data G x y with
     | Some e => path_length G w (y :: p) (nadd a (w x y e))
     | None => Raise KeyError
     end).
  destruct (get_edge_data G x y) as [e|] eqn:E; [|discriminate].
  pose proof (Hnn x y e (assoc_Some_In _ _ _ E)) as Hw.
  unfold get_edge_weight in Hw |- *. cbn [traffic_bucket andb] in Hw |- *.
  destruct (e !! wk) as [wx|]; cbn [default] in Hw |- *.
  - apply IH. apply nadd_nonneg; assumption.
  - intros H. symmetry. apply (path_length_from_inf G _ (y :: p) c Hnn).
    destruct a; simpl in Ha |- *; try tauto; exact H.
Qed.

(** X10. On a road network of the data model, the length that
    [dijkstra_time_dependent] reports for a static query is the length that
    [get_path_length] of the alternate-routes module computes for the
    returned path and the same base metric. *)
Theorem get_path_length_of_shortest_path (G : DiGraph) (source target weight_key : string)
    (path : list string) (length : num) :
  road_network_ok weight_key G = true ->
  dijkstra_time_dependent G source target weight_key false None = Route path length ->
  get_path_length path G weight_key (Fin 0) = length.
Proof.
  intros Hok. unfold dijkstra_time_dependent.
  destruct (negb (has_node G source) || negb (has_node G target)); [discriminate|].
  destruct (dijkstra_path G _ source target) as [p|e]; cbn [bind]; [|discriminate].
  destruct (path_length G _ p (Fin 0)) as [c|e] eqn:E; cbn [bind]; [|discriminate].
  intros [= <- <-].
  apply (get_path_length_path_length G weight_key Hok p (Fin 0) c); [simpl; lra|exact E].
Qed.

Lemma get_path_length_of_shortest_path_witness :
  get_path_length ["A"; "B"; "C"] demo_network "distance_km" (Fin 0) = Fin 10.
Proof.
  apply (get_path_length_of_shortest_path demo_network "A" "C" "distance_km").
  - vm_compute. reflexivity.
  - vm_compute. reflexivity.
Defined.

(** ** [heuristic_distance] *)

Lemma square_minus_sym (x y : Q) : square (x - y) = square (y - x).
Proof.
  destruct x as [a b], y as [c d]. unfold square, Qminus, Qplus, Qopp, Qmult. simpl.
  f_equal; [ring|]. rewrite (Pos.mul_comm d b). reflexivity.
Qed.

Lemma Qsqrt_nonneg (q : Q) : (0 <= Qsqrt q)%Q.
Proof.
  unfold Qsqrt, Qle. simpl. rewrite Z.mul_1_r. apply Z.sqrt_nonneg.
Qed.

Lemma square_minus_self (x : Q) : Qnum (square (x - x)) = 0%Z.
Proof.
  destruct x as [a b]. unfold square, Qminus, Qplus, Qopp, Qmult. simpl. ring.
Qed.

Lemma Qsqrt_zero (a b : Q) : Qnum a = 0%Z -> Qnum b = 0%Z -> (Qsqrt (a + b) == 0)%Q.
Proof.
  intros Ha Hb. unfold Qsqrt, Qeq. cbn [Qnum Qden Qplus]. rewrite Ha, Hb. reflexivity.
Qed.

(** X11. [heuristic_distance] never fails: it is 0 as soon as one of the two
    nodes is not in the graph or lacks a coordinate; in every case it is a
    finite number [>= 0], the same in both directions, and 0 from a node to
    itself. *)
Theorem heuristic_distance_properties (G : DiGraph) (u v : string) :
  ((node_coordinates G u).1 = None \/ (node_coordinates G u).2 = None \/
   (node_coordinates G v).1 = None \/ (node_coordinates G v).2 = None ->
   heuristic_distance G u v = Fin 0) /\
  (has_node G u = false -> heuristic_distance G u v = Fin 0) /\
  (exists d, heuristic_distance G u v = Fin d /\ (0 <= d)%Q) /\
  heuristic_distance G u v = heuristic_distance G v u /\
  num_eq (heuristic_distance G u u) (Fin 0).
Proof.
  assert ((node_coordinates G u).1 = None \/ (node_coordinates G u).2 = None \/
          (node_coordinates G v).1 = None \/ (node_coordinates G v).2 = None ->
          heuristic_distance G u v = Fin 0) as Hmiss.
  { unfold heuristic_distance.
    destruct (node_coordinates G u) as [[x1|] [y1|]],
             (node_coordinates G v) as [[x2|] [y2|]]; simpl;
      intros [H|[H|[H|H]]]; try discriminate; reflexivity. }
  split; [exact Hmiss|]. split; [|split; [|split]].
  - intros Hu. apply Hmiss. left. unfold node_coordinates, has_node in *.
    destruct (assoc u G); [discriminate|reflexivity].
  - unfold heuristic_distance.
    destruct (node_coordinates G u) as [[x1|] [y1|]],
             (node_coordinates G v) as [[x2|] [y2|]];
      eexists; (split; [reflexivity|]); try apply Qsqrt_nonneg; lra.
  - unfold heuristic_distance.
    destruct (node_coordinates G u) as [[x1|] [y1|]],
             (node_coordinates G v) as [[x2|] [y2|]]; try reflexivity.
    rewrite (square_minus_sym x1 x2), (square_minus_sym y1 y2). reflexivity.
  - unfold heuristic_distance.
    destruct (node_coordinates G u) as [[x|] [y|]]; try reflexivity.
    apply Qsqrt_zero; apply square_minus_self.
Qed.

(** ** The emergency search without a heuristic *)

Lemma get_dynamic_edge_weight_nonneg (weight_key : string) (td : bool)
    (tod : option string) (priority : Q) (u v : string) (data : edge_data) :
  edge_ok weight_key data = true -> (0 < priority)%Q ->
  nonneg (get_dynamic_edge_weight weight_key td tod priority u v data).
Proof.
  intros Hok Hp.
  assert (Qltb 0 priority = true) as Hpb by (qbool; lra).
  destruct (edge_ok_bucket weight_key td tod data Hok)
    as [Hb [E|(vol & c & E & Hvol & Hc & Hpos)]];
    unfold get_dynamic_edge_weight; rewrite E.
  - destruct (default PInf (data !! weight_key)) as [b| | |]; simpl in *; try tauto.
    + nra.
    + unfold inf_times. rewrite Hpb. exact I.
  - destruct (factors_ordered data vol c Hc Hpos Hvol) as (f & g & _ & -> & H1 & _ & _ & H3).
    destruct (default PInf (data !! weight_key)) as [b| | |]; simpl in *; try tauto.
    + assert (0 <= b * g)%Q by nra. nra.
    + unfold inf_times. assert (Qltb 0 g = true) as -> by (qbool; lra).
      simpl. unfold inf_times. rewrite Hpb. exact I.
Qed.

Lemma nmul_zero_l (a : num) (q : Q) : num_eq a (Fin 0) -> num_eq (nmul a (Fin q)) (Fin 0).
Proof. destruct a; simpl; try tauto. intros H. rewrite H. ring. Qed.

(** X12. On a well-formed road network of the data model, when the heuristic
    toward the target is zero at every node (as it is when the target has no
    coordinates) and the priority factor is [> 0], [a_star_emergency_path]
    ends within [edge_count G + 2] rounds for every time of day; a route it
    returns is a cheapest one for the weights [get_dynamic_edge_weight], and
    it returns no route only when a node is missing or no walk joins the
    source to the target. *)
Theorem emergency_path_is_cheapest (G : DiGraph) (source target weight_key : string)
    (time_dependent : bool) (time_of_day : option string) (priority : Q) (fuel : nat) :
  graph_wf G = true -> road_network_ok weight_key G = true -> (0 < priority)%Q ->
  (forall u, num_eq (heuristic_distance G u target) (Fin 0)) ->
  (S (S (edge_count G)) <= fuel)%nat ->
  match a_star_emergency_path fuel G source target weight_key time_dependent
          time_of_day priority with
  | Some (Route path length) =>
      forall q ws,
        walk_from_to G source target q ->
        edge_weights G
          (get_dynamic_edge_weight weight_key time_dependent time_of_day priority) q
          = Some ws ->
        nle length (sum_weights ws)
  | Some NoRoute =>
      has_node G source = false \/ has_node G target = false \/
      ~ reachable G source target
  | None => False
  end.
Proof.
  intros Hwf Hok Hp Hh Hfuel. unfold a_star_emergency_path.
  set (w := get_dynamic_edge_weight weight_key time_dependent time_of_day priority).
  set (h := fun u v : string => nmul (heuristic_distance G u v) (Fin priority)).
  assert (forall v u e, In (u, e) (G_succ G v) -> nonneg (w v u e)) as Hnn.
  { intros v u e Hin. apply get_dynamic_edge_weight_nonneg; [|exact Hp].
    apply (road_network_ok_edge weight_key G v u e Hok Hin). }
  destruct (has_node G source) eqn:Hs; cbn [negb orb]; [|auto].
  destruct (has_node G target) eqn:Ht; cbn [negb]; [|auto].
  assert (astar_path fuel G source target h w = dijkstra_path G w source target) as ->.
  { destruct (decide (source = target)) as [->|Hne].
    - unfold astar_path, dijkstra_path, single_source_dijkstra. rewrite Ht. cbn [negb orb].
      destruct fuel as [|n]; [lia|]. rewrite astar_loop_unfold.
      unfold astar_step. cbn [queue heappop pop_min explored].
      destruct (decide (target = target)); [|contradiction]. reflexivity.
    - apply (astar_path_is_dijkstra_path G w w h source target Hnn); auto.
      + intros v u e _. apply num_eq_refl.
      + intros u. apply nmul_zero_l, Hh. }
  unfold dijkstra_path.
  destruct (single_source_dijkstra G w source target) as [[d p]|e] eqn:E; cbn [bind snd].
  - destruct (single_source_dijkstra_optimal G w source target Hnn Hwf d p E)
      as [(ws & Hws & Hd) Hopt].
    rewrite path_length_spec, Hws. cbn [bind]. fold (sum_weights ws). rewrite Hd.
    intros q wq (_ & Hq1 & Hq2) Hq. apply (Hopt q (sum_weights wq) Hq1 Hq2).
    exists wq. auto.
  - assert (~ reachable G source target) as Hnr.
    { intros Hreach.
      destruct (single_source_dijkstra_complete G w source target Hnn Hs Hreach)
        as (d & p & E'). congruence. }
    destruct e; auto. exfalso. revert E. unfold single_source_dijkstra.
    rewrite Hs. cbn [negb]. destruct (decide (target = source)); [discriminate|].
    destruct (dijkstra_loop G w target _ _) as [st|e] eqn:El; cbn [bind].
    + destruct (dist st !! target), (paths st !! target); discriminate.
    + intros [= ->]. revert El. apply dijkstra_loop_fuel.
      unfold dijkstra_measure. simpl. rewrite pending_empty. lia.
Qed.

Lemma emergency_path_is_cheapest_witness :
  match a_star_emergency_path 6 busy_network "A" "C" "distance_km" true
          (Some "morning_peak") (4 # 5) with
  | Some (Route path length) =>
      forall q ws,
        walk_from_to busy_network "A" "C" q ->
        edge_weights busy_network
          (get_dynamic_edge_weight "distance_km" true (Some "morning_peak") (4 # 5)) q
          = Some ws ->
        nle length (sum_weights ws)
  | Some NoRoute =>
      has_node busy_network "A" = false \/ has_node busy_network "C" = false \/
      ~ reachable busy_network "A" "C"
  | None => False
  end.
Proof.
  apply (emergency_path_is_cheapest busy_network "A" "C" "distance_km" true
           (Some "morning_peak") (4 # 5) 6).
  - vm_compute. reflexivity.
  - vm_compute. reflexivity.
  - reflexivity.
  - intros u. rewrite heuristic_distance_no_coordinates; [reflexivity|].
    left. vm_compute. reflexivity.
  - vm_compute. lia.
Defined.

Lemma heuristic_distance_properties_witness :
  heuristic_distance detour_network "s" "nowhere" = Fin 0.
Proof.
  apply (proj1 (heuristic_distance_properties detour_network "s" "nowhere")).
  right. right. left. vm_compute. reflexivity.
Defined.

(** * The dispatch of emergency vehicles: [emergency_simulation.py] *)

Module EmergencySimulator.

(** the dictionaries of [self.emergency_vehicles] *)
Record vehicle : Type := mk_vehicle {
  vehicle_id : string;
  current_node : string;
  vehicle_status : string;
  incident_target : option string;
  facility_target : option string;
  vehicle_path : option (list string);
  path_index : nat;
  payload : bool
}.

(** the dictionaries of [self.incidents] *)
Record incident : Type := mk_incident {
  incident_id : string;
  location : string;
  time_reported : nat;
  incident_status : string;
  assigned_vehicle : option string
}.

(** the three variables of the search for the closest vehicle; the vehicle
    is kept with its position in [self.emergency_vehicles], the dictionary
    that the assignment below updates *)
Record choice : Type := mk_choice {
  best_vehicle : option (nat * vehicle);
  shortest_path_to_incident : option (list string);
  min_len_to_incident : num
}.

(** [[v for v in self.emergency_vehicles if v["status"] == "available"]] *)
Definition available_vehicles (emergency_vehicles : list vehicle) : list (nat * vehicle) :=
  filter (fun iv => vehicle_status iv.2 = "available")
         (imap (fun i v => (i, v)) emergency_vehicles).

(** the body of [for vehicle in available_vehicles]; [None] when the search
    does not end within [fuel] rounds *)
Definition consider (fuel : nat) (graph : DiGraph) (inc : incident)
    (current_time_of_day : string) (st : choice) (iv : nat * vehicle) : option choice :=
  match a_star_emergency_path fuel graph (current_node iv.2) (location inc)
          "distance_km" true (Some current_time_of_day) (4 # 5) with
  | None => None
  | Some (Route path length) =>
      if negb (bool_decide (path = [])) && nltb length (min_len_to_incident st)
      then Some (mk_choice (Some iv) (Some path) length)
      else Some st
  | Some NoRoute => Some st
  end.

Fixpoint consider_all (fuel : nat) (graph : DiGraph) (inc : incident)
    (current_time_of_day : string) (l : list (nat * vehicle)) (st : choice)
    : option choice :=
  match l with
  | [] => Some st
  | iv :: l' =>
      match consider fuel graph inc current_time_of_day st iv with
      | Some st' => consider_all fuel graph inc current_time_of_day l' st'
      | None => None
      end
  end.

(** [dispatch_vehicle]: the vehicles and the incident after the call, and
    the value returned *)
Definition dispatch_vehicle (fuel : nat) (graph : DiGraph)
    (emergency_vehicles : list vehicle) (inc : incident) (current_time_of_day : string)
    : option (list vehicle * incident * bool) :=
  let available := available_vehicles emergency_vehicles in
  if bool_decide (available = []) then Some (emergency_vehicles, inc, false)
  else
    match consider_all fuel graph inc current_time_of_day available
            (mk_choice None None PInf) with
    | None => None
    | Some st =>
        match best_vehicle st, shortest_path_to_incident st with
        | Some (i, v), Some ((_ :: _) as path) =>
            let v' := mk_vehicle (vehicle_id v) (current_node v) "enroute_to_incident"
                        (Some (location inc)) (facility_target v) (Some path) 0
                        (payload v) in
            let inc' := mk_incident (incident_id inc) (location inc) (time_reported inc)
                          "vehicle_assigned" (Some (vehicle_id v)) in
            Some (<[i := v']> emergency_vehicles, inc', true)
        | _, _ => Some (emergency_vehicles, inc, false)
        end
    end.

End EmergencySimulator.

Import EmergencySimulator.

Section Dispatch.
Variable fuel : nat.
Variable graph : DiGraph.
Variable inc : incident.
Variable tod : string.

(** the route of the emergency search from the vehicle [v] to the incident *)
Definition route_of (v : vehicle) : option route_result :=
  a_star_emergency_path fuel graph (current_node v) (location inc)
    "distance_km" true (Some tod) (4 # 5).

(** what the loop knows once the vehicles [seen] have been considered *)
Definition choice_ok (seen : list (nat * vehicle)) (st : choice) : Prop :=
  (forall j u p len, In (j, u) seen -> route_of u = Some (Route p len) -> p <> [] ->
                     nltb len (min_len_to_incident st) = false) /\
  match best_vehicle st, shortest_path_to_incident st with
  | None, None => min_len_to_incident st = PInf
  | Some (i, v), Some p =>
      In (i, v) seen /\ route_of v = Some (Route p (min_len_to_incident st)) /\
      p <> [] /\ nltb (min_len_to_incident st) PInf = true
  | _, _ => False
  end.

Lemma consider_ok (seen : list (nat * vehicle)) (st st' : choice) (i0 : nat) (v0 : vehicle) :
  choice_ok seen st -> consider fuel graph inc tod st (i0, v0) = Some st' ->
  choice_ok (seen ++ [(i0, v0)]) st'.
Proof.
  intros [Hle Hbest] E. unfold consider in E.
  cbn [snd] in E. fold (route_of v0) in E.
  assert (min_len_to_incident st = PInf \/ nltb (min_len_to_incident st) PInf = true)
    as Hmin.
  { destruct (best_vehicle st) as [[i v]|], (shortest_path_to_incident st) as [p|];
      try (destruct Hbest; fail); [right; apply Hbest|left; exact Hbest]. }
  assert (forall p len, route_of v0 = Some (Route p len) ->
            (p <> [] -> nltb len (min_len_to_incident st) = false) ->
            choice_ok (seen ++ [(i0, v0)]) st) as Hsame.
  { intros p len Hr Hno. split.
    - intros j u p' len'. rewrite in_app_iff. simpl. intros [Hj|[[= <- <-]|[]]] Hu Hp'.
      + apply (Hle j u p' len' Hj Hu Hp').
      + rewrite Hr in Hu. injection Hu as <- <-. auto.
    - destruct (best_vehicle st) as [[i v]|], (shortest_path_to_incident st) as [q|];
        try exact Hbest.
      destruct Hbest as (H1 & H2). split; [apply in_app_iff; auto|exact H2]. }
  destruct (route_of v0) as [[p len|]|] eqn:Hr; [| |discriminate].
  - destruct (bool_decide (p = [])) eqn:Hp; cbn [negb andb] in E.
    + injection E as <-. apply (Hsame p len eq_refl). intros Hne.
      apply bool_decide_eq_true in Hp. contradiction.
    + apply bool_decide_eq_false in Hp.
      destruct (nltb len (min_len_to_incident st)) eqn:Hlt.
      * injection E as <-. split; simpl.
        -- intros j u p' len'. rewrite in_app_iff. simpl. intros [Hj|[[= <- <-]|[]]] Hu Hp'.
           ++ destruct (nltb len' len) eqn:Hlt'; [|reflexivity].
              rewrite <- (Hle j u p' len' Hj Hu Hp'). symmetry.
              apply (nltb_trans _ _ _ Hlt' Hlt).
           ++ rewrite Hr in Hu. injection Hu as <- <-.
              apply nltb_irrefl_eq, num_eq_refl.
        -- split; [apply in_app_iff; simpl; auto|]. split; [exact Hr|]. split; [exact Hp|].
           destruct Hmin as [Hm|Hm]; [rewrite <- Hm; exact Hlt|].
           apply (nltb_trans _ _ _ Hlt Hm).
      * injection E as <-. apply (Hsame p len eq_refl). intros _. exact Hlt.
  - injection E as <-. split.
    + intros j u p' len'. rewrite in_app_iff. simpl. intros [Hj|[[= <- <-]|[]]] Hu Hp'.
      * apply (Hle j u p' len' Hj Hu Hp').
      * rewrite Hr in Hu. discriminate.
    + destruct (best_vehicle st) as [[i v]|], (shortest_path_to_incident st) as [q|];
        try exact Hbest.
      destruct Hbest as (H1 & H2). split; [apply in_app_iff; auto|exact H2].
Qed.

Lemma consider_all_ok (l : list (nat * vehicle)) :
  forall seen st st', choice_ok seen st ->
  consider_all fuel graph inc tod l st = Some st' -> choice_ok (seen ++ l) st'.
Proof.
  induction l as [|iv l IH]; intros seen st st' Hok E.
  - injection E as <-. rewrite app_nil_r. exact Hok.
  - simpl in E. destruct (consider fuel graph inc tod st iv) as [st1|] eqn:E1; [|discriminate].
    replace (seen ++ iv :: l) with ((seen ++ [iv]) ++ l) by (rewrite <- app_assoc; reflexivity).
    apply (IH _ st1 st'); [|exact E]. destruct iv as [i0 v0].
    apply (consider_ok seen st st1 i0 v0 Hok E1).
Qed.

Lemma available_vehicles_In (emergency_vehicles : list vehicle) (i : nat) (v : vehicle) :
  In (i, v) (available_vehicles emergency_vehicles) <->
  emergency_vehicles !! i = Some v /\ vehicle_status v = "available".
Proof.
  unfold available_vehicles. rewrite <- list_elem_of_In, list_elem_of_filter.
  rewrite elem_of_lookup_imap. simpl. split.
  - intros [Hs (j & x & [= -> ->] & Hx)]. auto.
  - intros [Hx Hs]. split; [exact Hs|]. exists i, v. auto.
Qed.

End Dispatch.

(** X13. When [dispatch_vehicle] returns [True], exactly one vehicle has
    changed: it was available, no available vehicle has a strictly shorter
    emergency route to the incident, it is now en route along its own route,
    which leads from its node to the incident along edges of the graph, and
    the incident is assigned to it.  When it returns [False], no available
    vehicle has a route of finite length, and nothing has changed. *)
Theorem dispatch_vehicle_assigns_nearest (fuel : nat) (graph : DiGraph)
    (emergency_vehicles vehicles' : list vehicle) (inc inc' : incident) (tod : string)
    (dispatched : bool) :
  dispatch_vehicle fuel graph emergency_vehicles inc tod
    = Some (vehicles', inc', dispatched) ->
  (forall j u p len,
     emergency_vehicles !! j = Some u -> vehicle_status u = "available" ->
     route_of fuel graph inc tod u = Some (Route p len) -> p <> [] ->
     if dispatched then True else nltb len PInf = false) /\
  if dispatched then
    exists i v p len,
      emergency_vehicles !! i = Some v /\ vehicle_status v = "available" /\
      route_of fuel graph inc tod v = Some (Route p len) /\
      walk_from_to graph (current_node v) (location inc) p /\
      (forall j u q len',
         emergency_vehicles !! j = Some u -> vehicle_status u = "available" ->
         route_of fuel graph inc tod u = Some (Route q len') -> q <> [] ->
         nltb len' len = false) /\
      vehicles' = <[i := mk_vehicle (vehicle_id v) (current_node v) "enroute_to_incident"
                           (Some (location inc)) (facility_target v) (Some p) 0
                           (payload v)]> emergency_vehicles /\
      inc' = mk_incident (incident_id inc) (location inc) (time_reported inc)
               "vehicle_assigned" (Some (vehicle_id v))
  else vehicles' = emergency_vehicles /\ inc' = inc.
Proof.
  unfold dispatch_vehicle.
  destruct (bool_decide (available_vehicles emergency_vehicles = [])) eqn:Hnil.
  { intros [= <- <- <-]. split; [|auto]. intros j u p len Hj Hu _ _. exfalso.
    apply bool_decide_eq_true in Hnil.
    pose proof (proj2 (available_vehicles_In emergency_vehicles j u) (conj Hj Hu)) as Hin.
    rewrite Hnil in Hin. destruct Hin. }
  destruct (consider_all fuel graph inc tod (available_vehicles emergency_vehicles)
              (mk_choice None None PInf)) as [st|] eqn:E; [|discriminate].
  assert (choice_ok fuel graph inc tod [] (mk_choice None None PInf)) as H0.
  { split; [intros j u p len []|reflexivity]. }
  pose proof (consider_all_ok fuel graph inc tod _ [] _ st H0 E) as [Hle Hbest].
  simpl in Hle, Hbest.
  assert (forall j u q len',
            emergency_vehicles !! j = Some u -> vehicle_status u = "available" ->
            route_of fuel graph inc tod u = Some (Route q len') -> q <> [] ->
            nltb len' (min_len_to_incident st) = false) as Hall.
  { intros j u q len' Hj Hu. apply (Hle j u q len'). apply available_vehicles_In. auto. }
  destruct (best_vehicle st) as [[i v]|], (shortest_path_to_incident st) as [p|];
    try (destruct Hbest; fail).
  - destruct Hbest as (Hin & Hr & Hp & Hfin).
    destruct p as [|x p]; [contradiction|].
    intros [= <- <- <-]. split; [auto|].
    apply available_vehicles_In in Hin. destruct Hin as [Hi Hs].
    exists i, v, (x :: p), (min_len_to_incident st).
    split; [exact Hi|]. split; [exact Hs|]. split; [exact Hr|].
    split; [|split; [exact Hall|split; reflexivity]].
    apply (emergency_route_walk fuel graph _ _ _ _ _ _ _ _ Hr).
  - intros [= <- <- <-]. split; [|auto].
    intros j u q len' Hj Hu Hq Hne. rewrite <- Hbest. apply (Hall j u q len' Hj Hu Hq Hne).
Qed.

(** Two available vehicles, at A and at B, a third one busy at C, and an
    incident at C. *)
Definition demo_vehicles : list vehicle :=
  [ mk_vehicle "EV0" "A" "available" None None None 0 false;
    mk_vehicle "EV1" "B" "available" None None None 0 false;
    mk_vehicle "EV2" "C" "enroute_to_facility" None (Some "C") (Some ["C"]) 0 true ].

Definition demo_incident : incident :=
  mk_incident "INC0_0" "C" 0 "pending_dispatch" None.

Lemma dispatch_vehicle_assigns_nearest_witness :
  exists i v p len,
    demo_vehicles !! i = Some v /\ vehicle_status v = "available" /\
    route_of 6 demo_network demo_incident "night" v = Some (Route p len) /\
    walk_from_to demo_network (current_node v) (location demo_incident) p /\
    (forall j u q len',
       demo_vehicles !! j = Some u -> vehicle_status u = "available" ->
       route_of 6 demo_network demo_incident "night" u = Some (Route q len') -> q <> [] ->
       nltb len' len = false) /\
    [ mk_vehicle "EV0" "A" "available" None None None 0 false;
      mk_vehicle "EV1" "B" "enroute_to_incident" (Some "C") None (Some ["B"; "C"]) 0 false;
      mk_vehicle "EV2" "C" "enroute_to_facility" None (Some "C") (Some ["C"]) 0 true ]
    = <[i := mk_vehicle (vehicle_id v) (current_node v) "enroute_to_incident"
               (Some (location demo_incident)) (facility_target v) (Some p) 0
               (payload v)]> demo_vehicles /\
    mk_incident "INC0_0" "C" 0 "vehicle_assigned" (Some "EV1")
    = mk_incident (incident_id demo_incident) (location demo_incident)
        (time_reported demo_incident) "vehicle_assigned" (Some (vehicle_id v)).
Proof.
  refine (proj2 (dispatch_vehicle_assigns_nearest 6 demo_network demo_vehicles _
                   demo_incident _ "night" true _)).
  vm_compute. reflexivity.
Defined.
